(** * w3up: authorization queries, the delegation store and the account store

    A shallow embedding of
    - [packages/w3up-client/src/authorization/query.js]: the clause builders
      [query], [explicit], [implicit] and [match];
    - the delegation store [DbDelegationsStorageWithR2] and the [Accounts]
      key/value store;
    together with the collaborators these call: the clause evaluator, the
    projection of delegations into facts, and the domain matchers. *)

From Stdlib Require Import ZArith Ascii String List Decimal DecimalString.
From stdpp Require Import base decidable option list gmap strings fin_maps.

Local Open Scope string_scope.
Local Open Scope list_scope.
Local Open Scope stdpp_scope.

(** ** JavaScript values shared by all modules *)

(** A thrown [Error]: its [name] and its [message]. *)
Record Error := mkError { name : string; message : string }.

(** The outcome of a call that may throw. *)
Inductive Result (A : Type) : Type :=
| Ok (a : A)
| Throw (e : Error).
Arguments Ok {A} a.
Arguments Throw {A} e.

Definition bindR {A B} (r : Result A) (k : A -> Result B) : Result B :=
  match r with
  | Ok a => k a
  | Throw e => Throw e
  end.

Notation "'try' x ':=' r 'in' k" := (bindR r (fun x => k))
  (at level 10, x name, r at level 100, k at level 200, only parsing).

(** [flat_mapR f l] runs [f] on every element, left to right, and
    concatenates the results; the first throw aborts. *)
Fixpoint flat_mapR {A B} (f : A -> Result (list B)) (l : list A)
  : Result (list B) :=
  match l with
  | [] => Ok []
  | x :: l' =>
      try r := f x in
      try rs := flat_mapR f l' in
      Ok (r ++ rs)
  end.

(** JavaScript truthiness of a string: only the empty string is falsy. *)
Definition truthy (s : string) : bool :=
  match s with
  | EmptyString => false
  | String _ _ => true
  end.

(** ** UCAN delegations (read-only input of the engine) *)

Module Ucan.

Definition DID := string.
Definition Ability := string.
Definition CID := string.

(** Entities of the fact store: a delegation, addressed by its content
    identifier, or the [i]-th capability of a delegation. *)
Inductive Link :=
| UcanLink (c : CID)
| CapabilityLink (c : CID) (i : nat).

(** Scalars: strings, numbers (with JavaScript's [Infinity]) and links. *)
Inductive Scalar :=
| Str (s : string)
| Int (z : Z)
| Infinity
| Ref (l : Link).

Record Capability := mkCapability {
  can : Ability;
  with_ : string;
  nb : list (string * Scalar)
}.

(** [Never] is a delegation without expiration. *)
Inductive Expiration :=
| Never
| At (t : Z).

Record Delegation := mkDelegation {
  cid : CID;
  issuer : DID;
  audience : DID;
  capabilities : list Capability;
  expiration : Expiration;
  proofs : list CID
}.

Definition link (d : Delegation) : Scalar := Ref (UcanLink (cid d)).

Definition expiration_scalar (e : Expiration) : Scalar :=
  match e with
  | Never => Infinity
  | At t => Int t
  end.

End Ucan.
Export Ucan.

Global Instance Link_eq_dec : EqDecision Link.
Proof. solve_decision. Defined.
Global Instance Scalar_eq_dec : EqDecision Scalar.
Proof. solve_decision. Defined.

(** ** Glob patterns *)

(** [glob_match pattern text]: [*] in the pattern stands for any run of
    characters, every other character for itself. *)
Fixpoint glob_match (pattern text : string) {struct pattern} : bool :=
  match pattern with
  | EmptyString =>
      match text with
      | EmptyString => true
      | String _ _ => false
      end
  | String c pattern' =>
      if Ascii.eqb c "*"%char then
        (fix star (text : string) : bool :=
           glob_match pattern' text
           || match text with
              | EmptyString => false
              | String _ text' => star text'
              end) text
      else
        match text with
        | EmptyString => false
        | String x text' => Ascii.eqb x c && glob_match pattern' text'
        end
  end.

(** ** The fact store and the clause evaluator (datalogia) *)

Module DB.

Record Fact := mkFact {
  entity : Scalar;
  attribute : string;
  value : Scalar
}.

(** A term is a logic variable or a constant. *)
Inductive Term :=
| Var (id : nat)
| Const (s : Scalar).

Abbreviation Binding := (gmap nat Scalar).

#[local] Unset Elimination Schemes.
Inductive Clause :=
| Match (e : Term) (a : string) (v : Term)
| And (cs : list Clause)
| Or (cs : list Clause)
| Not (c : Clause)
| Glob (text pattern : Term)
| Is (t u : Term)
| GreaterOrEqual (t u : Term).
#[local] Set Elimination Schemes.

(** *** Fresh variables

    [DB.string()], [DB.link()] and [DB.integer()] allocate a variable that
    no earlier call returned; the counter is threaded explicitly. *)
Definition Fresh (A : Type) : Type := nat -> A * nat.

Definition ret {A} (a : A) : Fresh A := fun n => (a, n).

Definition bind {A B} (m : Fresh A) (k : A -> Fresh B) : Fresh B :=
  fun n => let (a, n') := m n in k a n'.

Definition variable : Fresh Term := fun n => (Var n, S n).

Fixpoint mapM {A B} (f : A -> Fresh B) (l : list A) : Fresh (list B) :=
  match l with
  | [] => ret []
  | a :: l' =>
      bind (f a) (fun b => bind (mapM f l') (fun bs => ret (b :: bs)))
  end.

(** A destructured parameter with default [= DB.string()]. *)
Definition default_to (m : Fresh Term) (t : option Term) : Fresh Term :=
  match t with
  | Some t => ret t
  | None => m
  end.

(** *** Unification *)

Definition resolve (t : Term) (b : Binding) : option Scalar :=
  match t with
  | Var x => b !! x
  | Const s => Some s
  end.

Definition unify (t : Term) (s : Scalar) (b : Binding) : option Binding :=
  match t with
  | Const c => if decide (c = s) then Some b else None
  | Var x =>
      match b !! x with
      | Some s' => if decide (s' = s) then Some b else None
      | None => Some (<[x := s]> b)
      end
  end.

Definition term_vars (t : Term) : list nat :=
  match t with
  | Var x => [x]
  | Const _ => []
  end.

Fixpoint vars (c : Clause) : list nat :=
  match c with
  | Match e _ v => term_vars e ++ term_vars v
  | And cs | Or cs =>
      (fix go (cs : list Clause) : list nat :=
         match cs with
         | [] => []
         | c :: cs' => vars c ++ go cs'
         end) cs
  | Not c => vars c
  | Glob t u | Is t u | GreaterOrEqual t u => term_vars t ++ term_vars u
  end.

Definition bound (b : Binding) (x : nat) : bool :=
  match b !! x with
  | Some _ => true
  | None => false
  end.

(** Numeric comparison [x >= y]; [Infinity] is never less than a number. *)
Definition scalar_geb (x y : Scalar) : bool :=
  match x, y with
  | Int a, Int b => (b <=? a)%Z
  | Infinity, Int _ => true
  | Infinity, Infinity => true
  | _, _ => false
  end.

(** The query-construction error of a constraint over an unbound
    variable. *)
Definition unbound_variable : Error :=
  mkError "ReferenceError" "variable is not bound".

Definition match_fact (e : Term) (a : string) (v : Term) (b : Binding)
           (f : Fact) : option Binding :=
  if decide (attribute f = a)
  then match unify e (entity f) b with
       | Some b1 => unify v (value f) b1
       | None => None
       end
  else None.

Definition constraint (t u : Term) (b : Binding)
           (holds : Scalar -> Scalar -> bool) : Result (list Binding) :=
  match resolve t b, resolve u b with
  | Some x, Some y => Ok (if holds x y then [b] else [])
  | _, _ => Throw unbound_variable
  end.

Definition glob_scalars (text pattern : Scalar) : bool :=
  match text, pattern with
  | Str s, Str p => glob_match p s
  | _, _ => false
  end.

(** Modelled from the spec: the clause evaluator of §4.4 (the datalogia
    library is not part of the sources). [eval db c b] is the list of
    bindings extending [b] that satisfy [c]. *)
Fixpoint eval (db : list Fact) (c : Clause) (b : Binding) {struct c}
  : Result (list Binding) :=
  match c with
  | Match e a v => Ok (omap (match_fact e a v b) db)
  | And cs =>
      (fix conj (cs : list Clause) (b : Binding) {struct cs}
         : Result (list Binding) :=
         match cs with
         | [] => Ok [b]
         | c :: cs' =>
             try bs := eval db c b in
             flat_mapR (conj cs') bs
         end) cs b
  | Or cs =>
      (fix disj (cs : list Clause) {struct cs} : Result (list Binding) :=
         match cs with
         | [] => Ok []
         | c :: cs' =>
             try r := eval db c b in
             try rs := disj cs' in
             Ok (r ++ rs)
         end) cs
  | Not c =>
      if forallb (bound b) (vars c)
      then try r := eval db c b in
           Ok (match r with [] => [b] | _ :: _ => [] end)
      else Throw unbound_variable
  | Glob t p => constraint t p b glob_scalars
  | Is t u => constraint t u b (fun x y => bool_decide (x = y))
  | GreaterOrEqual t u => constraint t u b scalar_geb
  end.

(** [DB.and(...)], [DB.or(...)], [clause.and(other)] and [DB.not]. *)
Definition and (cs : list Clause) : Clause := And cs.
Definition or (cs : list Clause) : Clause := Or cs.
Definition not (c : Clause) : Clause := Not c.
Definition and_then (c other : Clause) : Clause := And [c; other].
Definition glob (text pattern : Term) : Clause := Glob text pattern.
Definition match_ (e : Term) (a : string) (v : Term) : Clause := Match e a v.

(** *** Projection of delegations into facts (§4.3) *)

Definition capability_facts (c : CID) (i : nat) (cap : Capability)
  : list Fact :=
  let k := Ref (CapabilityLink c i) in
  [ mkFact k "capability/can" (Str (can cap));
    mkFact k "capability/with" (Str (with_ cap)) ]
  ++ map (fun fv => mkFact k ("capability/nb/" +:+ fst fv) (snd fv)) (nb cap)
  ++ [ mkFact (Ref (UcanLink c)) "ucan/capability" k ].

Definition delegation_facts (d : Delegation) : list Fact :=
  [ mkFact (Ucan.link d) "ucan/issuer" (Str (issuer d));
    mkFact (Ucan.link d) "ucan/audience" (Str (audience d));
    mkFact (Ucan.link d) "ucan/expiration"
           (expiration_scalar (expiration d)) ]
  ++ concat (imap (capability_facts (cid d)) (capabilities d))
  ++ map (fun p => mkFact (Ucan.link d) "ucan/proof" (Ref (UcanLink p)))
         (proofs d).

Definition facts (ds : list Delegation) : list Fact :=
  flat_map delegation_facts ds.

(** [DB.query(index, { select, where })]: the clauses of [where] are a
    conjunction evaluated from the empty binding; every resulting binding
    is projected through [select]. *)
Definition query {Row} (db : list Fact) (select : Binding -> Row)
           (where_ : list Clause) : Result (list Row) :=
  try bs := eval db (And where_) ∅ in
  Ok (map select bs).

Definition string : Fresh Term := variable.
Definition link : Fresh Term := variable.
Definition integer : Fresh Term := variable.

End DB.

Notation "'let*' x ':=' m 'in' k" := (DB.bind m (fun x => k))
  (at level 10, x name, m at level 100, k at level 200, only parsing).

(** ** Domain matchers (agent/capability.js, agent/delegation.js,
       agent/attestation.js, agent/db/text.js) *)

Module Capability.

(** Modelled from the spec: [Capability.match] of agent/capability.js,
    which is not part of the sources. §4.5: "matches a capability entity
    whose can equals the requested ability and whose with equals the
    requested resource". *)
Definition match_ (capability can subject : DB.Term) : DB.Clause :=
  DB.and [ DB.match_ capability "capability/can" can;
           DB.match_ capability "capability/with" subject ].

End Capability.

Module Delegation.

(** Modelled from the spec: [Delegation.match] of agent/delegation.js,
    which is not part of the sources. §4.5: "a delegation match
    constraining audience/issuer/time, where time constraint requires
    [...] expiration >= time"; the facts are those of §4.3. *)
Definition match_ (delegation capability audience issuer time : DB.Term)
  : DB.Fresh DB.Clause :=
  let* expiration := DB.integer in
  DB.ret (DB.and [ DB.match_ delegation "ucan/capability" capability;
                   DB.match_ delegation "ucan/audience" audience;
                   DB.match_ delegation "ucan/issuer" issuer;
                   DB.match_ delegation "ucan/expiration" expiration;
                   DB.GreaterOrEqual expiration time ]).

(** Modelled from the spec: [Delegation.forwards] of agent/delegation.js,
    which is not part of the sources. §4.5: "the delegation's capability
    with = ucan:*", unexpired, with the selected issuer, audience and
    ability. *)
Definition forwards (delegation issuer audience can time : DB.Term)
  : DB.Fresh DB.Clause :=
  let* capability := DB.link in
  let* clause := match_ delegation capability audience issuer time in
  DB.ret (DB.and_then
            (Capability.match_ capability can (DB.Const (Str "ucan:*")))
            clause).

(** Modelled from the spec: [Delegation.issuedBy] of agent/delegation.js,
    which is not part of the sources. §4.5: "issuer is the subject". *)
Definition issuedBy (delegation issuer : DB.Term) : DB.Clause :=
  DB.match_ delegation "ucan/issuer" issuer.

(** Modelled from the spec: [Delegation.hasProof] of agent/delegation.js,
    which is not part of the sources. §4.3: the proof-link edge
    [(d, ucan/proof, p)]. *)
Definition hasProof (delegation proof : DB.Term) : DB.Clause :=
  DB.match_ delegation "ucan/proof" proof.

End Delegation.

Module Attestation.

(** Modelled from the spec: [Attestation.match] of agent/attestation.js,
    which is not part of the sources. §4.5: "(attestation, audience,
    requester), (attestation, capability.can, ucan/attest), (attestation,
    capability.nb.proof, proof), unexpired". *)
Definition match_ (attestation proof time audience : DB.Term)
  : DB.Fresh DB.Clause :=
  let* capability := DB.link in
  let* expiration := DB.integer in
  DB.ret (DB.and [ DB.match_ attestation "ucan/audience" audience;
                   DB.match_ attestation "ucan/capability" capability;
                   DB.match_ capability "capability/can"
                             (DB.Const (Str "ucan/attest"));
                   DB.match_ capability "capability/nb/proof" proof;
                   DB.match_ attestation "ucan/expiration" expiration;
                   DB.GreaterOrEqual expiration time ]).

End Attestation.

Module Text.

(** [API.TextConstraint]: an exact string or [{ glob: pattern }]. *)
Inductive Constraint :=
| Exact (s : string)
| GlobPattern (pattern : string).

(** Modelled from the spec: [Text.match] of agent/db/text.js, which is not
    part of the sources. §4.6: "the subject-glob and audience-exact text
    constraints". *)
Definition match_ (term : DB.Term) (c : Constraint) : DB.Clause :=
  match c with
  | Exact s => DB.Is term (DB.Const (Str s))
  | GlobPattern p => DB.glob term (DB.Const (Str p))
  end.

End Text.

(** ** authorization/query.js *)

Module Options.
(** The destructured selector of [explicit], [implicit] and [match]; an
    omitted field is [None]. *)
Record t := mk {
  audience : option DB.Term;
  issuer : option DB.Term;
  subject : option DB.Term;
  can : option DB.Term;
  time : option DB.Term
}.
End Options.

Module ProofSelector.
Record t := mk {
  issuer : DB.Term;
  can : DB.Term;
  proof : DB.Term;
  attestation : DB.Term;
  need : option string
}.
End ProofSelector.

Module Selector.
Record t := mk {
  proofs : list ProofSelector.t;
  subject : DB.Term;
  audience : DB.Term
}.
End Selector.

Module Query.

(** The argument of [query]. [can] is the key list of the [API.Can]
    object, in [Object.keys] order; its array values are not read. *)
Record Input := mkInput {
  audience : Text.Constraint;
  can : option (list string);
  subject : option Text.Constraint;
  time : option Z
}.

Record t := mk {
  select : Selector.t;
  where_ : list DB.Clause
}.

Definition explicit (delegation : DB.Term) (o : Options.t)
  : DB.Fresh DB.Clause :=
  let* audience := DB.default_to DB.string (Options.audience o) in
  let* issuer := DB.default_to DB.string (Options.issuer o) in
  let* subject := DB.default_to DB.string (Options.subject o) in
  let* can := DB.default_to DB.string (Options.can o) in
  let* time := DB.default_to DB.integer (Options.time o) in
  let* capability := DB.link in
  let c := Capability.match_ capability can subject in
  let* m := Delegation.match_ delegation capability audience issuer time in
  DB.ret (DB.and_then c m).

Definition implicit (delegation : DB.Term) (o : Options.t)
  : DB.Fresh DB.Clause :=
  let* subject := DB.default_to DB.string (Options.subject o) in
  let* can := DB.default_to DB.string (Options.can o) in
  let* time := DB.default_to DB.integer (Options.time o) in
  let* audience := DB.default_to DB.string (Options.audience o) in
  let* issuer := DB.default_to DB.string (Options.issuer o) in
  let* proof := DB.link in
  let* f := Delegation.forwards delegation issuer audience can time in
  let* e := explicit proof
              (Options.mk (Some issuer) None (Some subject) (Some can)
                          (Some time)) in
  DB.ret (DB.and [ f;
                   DB.or [ Delegation.issuedBy delegation subject;
                           DB.and [ Delegation.hasProof delegation proof;
                                    DB.or [ e ] ] ] ]).

Definition match_ (delegation : DB.Term) (o : Options.t)
  : DB.Fresh DB.Clause :=
  let* audience := DB.default_to DB.string (Options.audience o) in
  let* subject := DB.default_to DB.string (Options.subject o) in
  let* issuer := DB.default_to DB.string (Options.issuer o) in
  let* can := DB.default_to DB.string (Options.can o) in
  let* time := DB.default_to DB.integer (Options.time o) in
  let o' := Options.mk (Some audience) (Some issuer) (Some subject)
                       (Some can) (Some time) in
  let* e := explicit delegation o' in
  let* i := implicit delegation o' in
  DB.ret (DB.or [ e; i ]).

(** One element of [proofs]: the variable group of one requested
    ability. [...(need && { need })] leaves [need] out when it is
    [undefined] or the empty string. *)
Definition group (need : option string) : DB.Fresh ProofSelector.t :=
  let* issuer := DB.string in
  let* can := DB.string in
  let* proof := DB.link in
  let* attestation := DB.link in
  DB.ret (ProofSelector.mk issuer can proof attestation
            (match need with
             | Some n => if truthy n then Some n else None
             | None => None
             end)).

(** One element of [where]: the clause of one variable group. *)
Definition group_clause (subject audience : DB.Term) (time : Z)
           (g : ProofSelector.t) : DB.Fresh DB.Clause :=
  let* clause :=
    match_ (ProofSelector.proof g)
           (Options.mk (Some audience) (Some (ProofSelector.issuer g))
                       (Some subject) (Some (ProofSelector.can g))
                       (Some (DB.Const (Int time)))) in
  let* attestation :=
    Attestation.match_ (ProofSelector.attestation g) (ProofSelector.proof g)
                       (DB.Const (Int time)) audience in
  let attestations :=
    DB.or [ DB.not (DB.glob (ProofSelector.issuer g)
                            (DB.Const (Str "did:mailto:*")));
            attestation ] in
  DB.ret (DB.and_then
            (match ProofSelector.need g with
             | Some need =>
                 DB.and_then clause
                   (DB.glob (DB.Const (Str need)) (ProofSelector.can g))
             | None => clause
             end)
            attestations).

(** [query({ can = {}, time = Date.now() / 1000, ...selector })]; [now] is
    the clock reading [Date.now() / 1000], in whole seconds. *)
Definition query (selector : Input) (now : Z) : DB.Fresh t :=
  let can := default [] (can selector) in
  let time := default now (time selector) in
  let* subject := DB.string in
  let* audience := DB.string in
  let need := can in
  let* proofs :=
    DB.mapM group
      (if (0 <? length need)%nat then map Some need else [None]) in
  let* where_ := DB.mapM (group_clause subject audience time) proofs in
  DB.ret (mk (Selector.mk proofs subject audience)
             (where_
              ++ [ Text.match_ subject
                     (default (Text.GlobPattern "*") (Query.subject selector));
                   Text.match_ audience (Query.audience selector) ])).

End Query.

(** ** authorization.js *)

Module ProofRow.
(** A selected variable group of one result row; a variable that the
    binding leaves unbound is [None]. *)
Record t := mk {
  issuer : option Scalar;
  can : option Scalar;
  proof : option Scalar;
  attestation : option Scalar;
  need : option string
}.
End ProofRow.

Module Row.
Record t := mk {
  proofs : list ProofRow.t;
  subject : option Scalar;
  audience : option Scalar
}.
End Row.

Module Authorization.

Record t := mk {
  authority : DID;
  subject : DID;
  can : list Ability;
  proofs : list Delegation
}.

Definition select_proof (b : DB.Binding) (g : ProofSelector.t) : ProofRow.t :=
  ProofRow.mk (DB.resolve (ProofSelector.issuer g) b)
              (DB.resolve (ProofSelector.can g) b)
              (DB.resolve (ProofSelector.proof g) b)
              (DB.resolve (ProofSelector.attestation g) b)
              (ProofSelector.need g).

(** The projection of a binding through [select]. *)
Definition select (s : Selector.t) (b : DB.Binding) : Row.t :=
  Row.mk (map (select_proof b) (Selector.proofs s))
         (DB.resolve (Selector.subject s) b)
         (DB.resolve (Selector.audience s) b).

(** The delegation of the set that a content identifier addresses. *)
Definition get (ds : list Delegation) (c : CID) : option Delegation :=
  List.find (fun d => bool_decide (cid d = c)) ds.

Definition ucan_cid (s : option Scalar) : list CID :=
  match s with
  | Some (Ref (UcanLink c)) => [c]
  | _ => []
  end.

(** The links a row cites for one group: the proof, then its attestation
    when there is one. *)
Definition cited (g : ProofRow.t) : list CID :=
  ucan_cid (ProofRow.proof g) ++ ucan_cid (ProofRow.attestation g).

(** The ability a group stands for: the requested one, or the matched one
    when none was requested. *)
Definition ability (g : ProofRow.t) : option Ability :=
  match ProofRow.need g with
  | Some need => Some need
  | None =>
      match ProofRow.can g with
      | Some (Str c) => Some c
      | _ => None
      end
  end.

(** Modelled from the spec: [Authorization.from] of authorization.js,
    which is not part of the sources. §4.6: "project each resulting
    binding into an Authorization record, merging proof sets that share
    the same (audience, subject) pair and unioning their can sets": the
    groups of one binding share its audience and subject, their proofs
    are merged into one sequence without repetition and their abilities
    into one can set. *)
Definition from (ds : list Delegation) (row : Row.t) : option t :=
  match Row.audience row, Row.subject row with
  | Some (Str authority), Some (Str subject) =>
      Some (mk authority subject
               (remove_dups (omap ability (Row.proofs row)))
               (omap (get ds) (remove_dups (flat_map cited (Row.proofs row)))))
  | _, _ => None
  end.

(** The rows [DB.query(db.index, query(selector))] returns. *)
Definition rows (ds : list Delegation) (selector : Query.Input) (now : Z)
           (n : nat) : Result (list Row.t) :=
  let q := fst (Query.query selector now n) in
  DB.query (DB.facts ds) (select (Query.select q)) (Query.where_ q).

(** Modelled from the spec: [Authorization.find] of authorization.js,
    which is not part of the sources. §6: "query(index, selector) ->
    sequence of Authorization"; one record per resulting binding, as the
    tests "does not match expired ucans" and "find whatever capabilities
    match" expect. [n] is the state of the variable counter. *)
Definition find (ds : list Delegation) (selector : Query.Input) (now : Z)
           (n : nat) : Result (list t) :=
  try rs := rows ds selector now n in
  Ok (omap (from ds) rs).

End Authorization.

(** ** The delegation store (DbDelegationsStorageWithR2) *)

(** What an async generator produces: the values it yields, until it
    returns or throws. *)
Inductive Generated (A : Type) : Type :=
| Done
| Yield (a : A) (rest : Generated A)
| Raise (e : Error).
Arguments Done {A}.
Arguments Yield {A} a rest.
Arguments Raise {A} e.

Fixpoint yielded {A} (g : Generated A) : list A :=
  match g with
  | Yield a rest => a :: yielded rest
  | Done | Raise _ => []
  end.

Definition bytes := list Byte.byte.

(** [`${n}`] for a non-negative integer. *)
Definition decimal (n : nat) : string :=
  NilEmpty.string_of_uint (Nat.to_uint n).

Module Storage.

(** [class UnexpectedDelegation extends Error { name = 'UnexpectedDelegation' }] *)
Definition UnexpectedDelegation (message : string) : Error :=
  mkError "UnexpectedDelegation" message.

(** [new Error(message)] *)
Definition new_Error (message : string) : Error :=
  mkError "Error" message.

(** A row of the [delegations_v3] table, without its timestamps. *)
Record DelegationRow := mkRow {
  row_cid : string;
  row_audience : string;
  row_issuer : string
}.

(** The relational database: the [delegations_v3] table and whether the
    driver can stream. *)
Record Database := mkDatabase {
  canStream : bool;
  table : list DelegationRow
}.

(** A write that reached one of the two backing stores. *)
Inductive Write :=
| BucketPut (key : string) (value : bytes)
| TableInsert (values : list DelegationRow).

(** The store: the R2 bucket [#dags], the database [#db], and the writes
    performed so far. *)
Record Store := mkStore {
  dags : gmap string bytes;
  db : Database;
  writes : list Write
}.

Definition createDelegationRowUpdateV3 (d : Delegation) : DelegationRow :=
  mkRow (cid d) (Ucan.audience d) (Ucan.issuer d).

Definition carFileKeyer (cid : string) : string := cid +:+ ".car".

(** [bucket.put(key, value)] *)
Definition bucket_put (key : string) (value : bytes) (s : Store) : Store :=
  mkStore (<[key := value]> (dags s)) (db s) (writes s ++ [BucketPut key value]).

Definition writeEntries (entries : list (string * bytes)) (s : Store)
  : Store :=
  fold_left (fun s kv => bucket_put (fst kv) (snd kv) s) entries s.

(** [insertInto(table).values(values).onConflict(oc =>
    oc.column('cid').doNothing())]: rows whose [cid] is present are
    skipped. *)
Definition insert_row (t : list DelegationRow) (r : DelegationRow)
  : list DelegationRow :=
  if existsb (fun r' => bool_decide (row_cid r' = row_cid r)) t
  then t else t ++ [r].

Definition insertInto (values : list DelegationRow) (s : Store) : Store :=
  mkStore (dags s)
          (mkDatabase (canStream (db s)) (fold_left insert_row values (table (db s))))
          (writes s ++ [TableInsert values]).

Section Codec.

(** The archive codec of [@web3-storage/access/encoding]. *)
Context (delegationsToBytes : list Delegation -> bytes)
        (bytesToDelegations : bytes -> list Delegation).

Definition writeDelegations (delegations : list Delegation) (keyer : string -> string)
           (s : Store) : Store :=
  writeEntries
    (map (fun delegation =>
            (keyer (cid delegation), delegationsToBytes [delegation]))
         delegations)
    s.

Definition putMany (delegations : list Delegation) (s : Store)
  : Result unit * Store :=
  if (length delegations =? 0)%nat then (Ok tt, s)
  else
    let s1 := writeDelegations delegations carFileKeyer s in
    let values := map createDelegationRowUpdateV3 delegations in
    (Ok tt, insertInto values s1).

Definition count (s : Store) : nat := length (table (db s)).

Definition rowToDelegation (row_cid : string) (s : Store)
  : Result Delegation :=
  let cidString := row_cid in
  match dags s !! carFileKeyer cidString with
  | None =>
      Throw (new_Error ("failed to read car bytes for cid " +:+ cidString))
  | Some carBytes =>
      let delegations := bytesToDelegations carBytes in
      match delegations with
      | [delegation] => Ok delegation
      | _ =>
          Throw (new_Error ("expected 1 delegation in CAR, but got "
                            +:+ decimal (length delegations)))
      end
  end.

(** [for await (const row of rows) { yield this.#rowToDelegation(row) }] *)
Fixpoint yield_rows (rows : list string) (s : Store)
  : Generated Delegation :=
  match rows with
  | [] => Done
  | row :: rows' =>
      match rowToDelegation row s with
      | Ok d => Yield d (yield_rows rows' s)
      | Throw e => Raise e
      end
  end.

Definition find (audience : string) (s : Store) : Generated Delegation :=
  let selection :=
    map row_cid
        (filter (fun r => row_audience r = audience) (table (db s))) in
  yield_rows selection s.

(** [async *[Symbol.asyncIterator]()] *)
Definition asyncIterator (s : Store) : Generated Delegation :=
  if negb (canStream (db s)) then
    Raise (mkError "NotImplementedError"
             "cannot create asyncIterator because the underlying database does not support streaming")
  else yield_rows (map row_cid (table (db s))) s.

End Codec.

End Storage.

(** ** The account store (Accounts) *)

Module Accounts.

(** The key/value namespace. Under an email key it holds the JSON text of
    an array of encoded delegations; [JSON.stringify] and the [json] read
    are inverse on such arrays, so the array itself is the stored value. *)
Abbreviation KVNamespace := (gmap string (list string)).

Section Encoding.

(** [delegationToString] of [@web3-storage/access/encoding]. *)
Context (delegationToString : Delegation -> string).

Definition saveDelegation (email : string) (delegation : Delegation)
           (kv : KVNamespace) : KVNamespace :=
  match kv !! email with
  | Some accs =>
      <[email := accs ++ [delegationToString delegation]]> kv
  | None =>
      <[email := [delegationToString delegation]]> kv
  end.

Definition hasDelegations (email : string) (kv : KVNamespace) : bool :=
  match kv !! email with
  | Some _ => true
  | None => false
  end.

(** [None] is [undefined]. *)
Definition getDelegations (email : string) (kv : KVNamespace)
  : option (list string) :=
  match kv !! email with
  | None => None
  | Some r => Some r
  end.

End Encoding.

End Accounts.

(** ** Meaning of clauses *)

Module Sem.

(** [yields db c b b']: evaluating [c] from [b] succeeds and [b'] is one of
    the resulting bindings. *)
Definition yields (db : list DB.Fact) (c : DB.Clause) (b b' : DB.Binding)
  : Prop :=
  exists bs, DB.eval db c b = Ok bs /\ b' ∈ bs.

(** [safe db c b]: evaluating [c] from [b] does not throw. *)
Definition safe (db : list DB.Fact) (c : DB.Clause) (b : DB.Binding) : Prop :=
  exists bs, DB.eval db c b = Ok bs.

Definition related (rel : Scalar -> Scalar -> bool) (t u : DB.Term)
           (θ : DB.Binding) : Prop :=
  exists x y, DB.resolve t θ = Some x /\ DB.resolve u θ = Some y
              /\ rel x y = true.

(** [holds db θ c]: the assignment [θ] satisfies [c]. *)
Fixpoint holds (db : list DB.Fact) (θ : DB.Binding) (c : DB.Clause) : Prop :=
  match c with
  | DB.Match e a v =>
      exists f, f ∈ db /\ DB.attribute f = a
                /\ DB.resolve e θ = Some (DB.entity f)
                /\ DB.resolve v θ = Some (DB.value f)
  | DB.And cs =>
      (fix all (cs : list DB.Clause) : Prop :=
         match cs with
         | [] => True
         | c :: cs' => holds db θ c /\ all cs'
         end) cs
  | DB.Or cs =>
      (fix any (cs : list DB.Clause) : Prop :=
         match cs with
         | [] => False
         | c :: cs' => holds db θ c \/ any cs'
         end) cs
  | DB.Not c =>
      Forall (fun x => is_Some (θ !! x)) (DB.vars c) /\ ~ holds db θ c
  | DB.Glob t p => related DB.glob_scalars t p θ
  | DB.Is t u => related (fun x y => bool_decide (x = y)) t u θ
  | DB.GreaterOrEqual t u => related DB.scalar_geb t u θ
  end.

(** [known T b]: every term of [T] has a value under [b]. *)
Definition known (T : list DB.Term) (b : DB.Binding) : Prop :=
  Forall (fun t => is_Some (DB.resolve t b)) T.

(** [available T t]: [t] is a constant or one of the terms of [T]. *)
Definition available (T : list DB.Term) (t : DB.Term) : Prop :=
  (exists s, t = DB.Const s) \/ t ∈ T.

(** [ok db T c T']: from a binding that knows [T], evaluating [c] does not
    throw, and every resulting binding knows [T']. *)
Definition ok (db : list DB.Fact) (T : list DB.Term) (c : DB.Clause)
           (T' : list DB.Term) : Prop :=
  forall b, known T b ->
            safe db c b /\ forall b', yields db c b b' -> known T' b'.

End Sem.

(** ** Vocabulary of the properties *)

(** Content addressing: a content identifier names one delegation. *)
Definition cid_unique (ds : list Delegation) : Prop :=
  forall d1 d2, d1 ∈ ds -> d2 ∈ ds -> cid d1 = cid d2 -> d1 = d2.

(** [unexpired time d]: the expiration of [d] is at or after [time]. *)
Definition unexpired (time : Z) (d : Delegation) : bool :=
  match expiration d with
  | Never => true
  | At e => (time <=? e)%Z
  end.

(** The issuer check of the attestation gate. *)
Definition mailto (did : DID) : bool := glob_match "did:mailto:*" did.

(** [d] has a capability of ability [a] on resource [r]. *)
Definition grants (d : Delegation) (a : Ability) (r : string) : Prop :=
  exists cap, cap ∈ capabilities d /\ can cap = a /\ with_ cap = r.

(** [a] is an attestation of the delegation addressed by [p]: it has a
    capability [ucan/attest] whose [nb.proof] is [p]. *)
Definition attests (a : Delegation) (p : CID) : Prop :=
  exists cap, cap ∈ capabilities a /\ can cap = "ucan/attest"
              /\ ("proof", Ref (UcanLink p)) ∈ nb cap.

(** An explicit delegation of ability [a] on subject [s], valid at [time]. *)
Definition explicit_grant (time : Z) (d : Delegation) (a : Ability) (s : DID)
  : Prop :=
  unexpired time d = true /\ grants d a s.

(** An implicit delegation of ability [a] for subject [s], valid at [time]:
    a [ucan:*] capability, issued by the subject or backed by a proof that
    explicitly delegates [a] on [s] to the issuer. *)
Definition implicit_grant (ds : list Delegation) (time : Z) (d : Delegation)
           (a : Ability) (s : DID) : Prop :=
  explicit_grant time d a "ucan:*"
  /\ (issuer d = s
      \/ exists p, p ∈ ds /\ cid p ∈ proofs d /\ audience p = issuer d
                   /\ explicit_grant time p a s).

(** [matches db c]: the clause has at least one answer. *)
Definition matches (db : list DB.Fact) (c : DB.Clause) : Prop :=
  exists b, Sem.yields db c ∅ b.

(** ** The clauses the builders return, with their variables named *)

Module Shape.

Import DB.

(** [explicit]: the capability variable is [m], the expiration variable
    [S m]. *)
Definition explicit (delegation audience issuer subject can time : Term)
           (m : nat) : Clause :=
  And [ And [ Match (Var m) "capability/can" can;
              Match (Var m) "capability/with" subject ];
        And [ Match delegation "ucan/capability" (Var m);
              Match delegation "ucan/audience" audience;
              Match delegation "ucan/issuer" issuer;
              Match delegation "ucan/expiration" (Var (S m));
              GreaterOrEqual (Var (S m)) time ] ].

(** [implicit]: the proof variable is [n]; [Delegation.forwards] uses
    [n + 1] and [n + 2], the explicit match of the proof [n + 3] (its
    issuer), [n + 4] and [n + 5]. *)
Definition implicit (delegation audience issuer subject can time : Term)
           (n : nat) : Clause :=
  And [ explicit delegation audience issuer (Const (Str "ucan:*")) can time
                 (n + 1);
        Or [ Match delegation "ucan/issuer" subject;
             And [ Match delegation "ucan/proof" (Var n);
                   Or [ explicit (Var n) issuer (Var (n + 3)) subject can
                                 time (n + 4) ] ] ] ].

(** [match]: explicit or implicit. *)
Definition match_ (delegation audience issuer subject can time : Term)
           (n : nat) : Clause :=
  Or [ explicit delegation audience issuer subject can time n;
       implicit delegation audience issuer subject can time (n + 2) ].

(** [Attestation.match]: the capability variable is [m], the expiration
    variable [S m]. *)
Definition attestation (attestation proof time audience : Term) (m : nat)
  : Clause :=
  And [ Match attestation "ucan/audience" audience;
        Match attestation "ucan/capability" (Var m);
        Match (Var m) "capability/can" (Const (Str "ucan/attest"));
        Match (Var m) "capability/nb/proof" proof;
        Match attestation "ucan/expiration" (Var (S m));
        GreaterOrEqual (Var (S m)) time ].

(** The attestation gate of a group. *)
Definition gate (g : ProofSelector.t) (audience : Term) (time : Z)
           (m : nat) : Clause :=
  Or [ Not (Glob (ProofSelector.issuer g) (Const (Str "did:mailto:*")));
       attestation (ProofSelector.attestation g) (ProofSelector.proof g)
                   (Const (Int time)) audience m ].

(** The proof clause of a group. *)
Definition proof (g : ProofSelector.t) (subject audience : Term) (time : Z)
           (m : nat) : Clause :=
  match_ (ProofSelector.proof g) audience (ProofSelector.issuer g) subject
         (ProofSelector.can g) (Const (Int time)) m.

(** The ability constraint of a group that names an ability. *)
Definition constrained (g : ProofSelector.t) (c : Clause) : Clause :=
  match ProofSelector.need g with
  | Some need => And [ c; Glob (Const (Str need)) (ProofSelector.can g) ]
  | None => c
  end.

(** The element of [where] of a group. *)
Definition group (g : ProofSelector.t) (subject audience : Term) (time : Z)
           (m : nat) : Clause :=
  And [ constrained g (proof g subject audience time m);
        gate g audience time (m + 8) ].

(** The variable group allocated at [n]. *)
Definition variables (need : option String.string) (n : nat)
  : ProofSelector.t :=
  ProofSelector.mk (Var n) (Var (n + 1)) (Var (n + 2)) (Var (n + 3))
    (match need with
     | Some k => if truthy k then Some k else None
     | None => None
     end).

(** The requested abilities, or the single unconstrained slot. *)
Definition asked (can : option (list String.string))
  : list (option String.string) :=
  let need := default [] can in
  if (0 <? length need)%nat then map Some need else [None].

(** The variable groups of a query whose first variable is [n]. *)
Definition groups (asked : list (option String.string)) (n : nat)
  : list ProofSelector.t :=
  imap (fun j need => variables need (n + 2 + 4 * j)) asked.

(** The group clauses of a query whose first variable is [n]. *)
Definition clauses (gs : list ProofSelector.t) (time : Z) (n : nat)
  : list Clause :=
  imap (fun j g =>
          group g (Var n) (Var (S n)) time (n + 2 + 4 * length gs + 10 * j))
       gs.

(** The text constraints that close [where]. *)
Definition texts (selector : Query.Input) (n : nat) : list Clause :=
  [ Text.match_ (Var n)
      (default (Text.GlobPattern "*") (Query.subject selector));
    Text.match_ (Var (S n)) (Query.audience selector) ].

End Shape.


(** [record_of ds selector now n row r]: [row] is a row of the query and
    [r] the record made of it. *)
Definition record_of (ds : list Delegation) (selector : Query.Input)
           (now : Z) (n : nat) (row : Row.t) (r : Authorization.t) : Prop :=
  exists rows, Authorization.rows ds selector now n = Ok rows
               /\ row ∈ rows /\ Authorization.from ds row = Some r.


(** A direct grant of [a] on [s] to [x], valid at [t]. *)
Definition direct_grant (t : Z) (d : Delegation) (a : Ability) (s x : DID)
  : Prop :=
  audience d = x /\ explicit_grant t d a s.

(** The attestation gate lets [d] through: its issuer is not a mailto
    principal, or the set holds an attestation of [d] for the audience [x]
    that is unexpired at [t]. *)
Definition admissible (ds : list Delegation) (t : Z) (x : DID)
           (d : Delegation) : Prop :=
  mailto (issuer d) = false
  \/ exists a, a ∈ ds /\ attests a (cid d) /\ audience a = x
                /\ unexpired t a = true.

(** [{ audience: x, can: { [a]: [] } }] and [{ audience: x, can: { [a1]: [],
    [a2]: [] } }] *)
Definition ask (x : DID) (abilities : list Ability) : Query.Input :=
  Query.mkInput (Text.Exact x) (Some abilities) None None.

(** The assignment that witnesses a group: the group variables start at
    [x], the variables of its clause at [m]; [d] is the matched delegation,
    [k] the index of the matched capability, [att] the attestation and the
    index of its [ucan/attest] capability, when one is used. *)
Definition cover (x m : nat) (d : Delegation) (k : nat) (cap : Capability)
           (att : option (Delegation * nat)) (θ : DB.Binding) : DB.Binding :=
  let θ1 :=
    <[x := Str (issuer d)]>
      (<[x + 1 := Str (can cap)]>
         (<[x + 2 := Ucan.link d]>
            (<[m := Ref (CapabilityLink (cid d) k)]>
               (<[S m := expiration_scalar (expiration d)]> θ)))) in
  match att with
  | Some (a, j) =>
      <[x + 3 := Ucan.link a]>
        (<[m + 8 := Ref (CapabilityLink (cid a) j)]>
           (<[S (m + 8) := expiration_scalar (expiration a)]> θ1))
  | None => θ1
  end.

(** [covers θ x m d k cap att]: [θ] binds the variables of the group at
    [x] and of its clause at [m] as [cover] does. *)
Definition covers (θ : DB.Binding) (x m : nat) (d : Delegation) (k : nat)
           (cap : Capability) (att : option (Delegation * nat)) : Prop :=
  θ !! x = Some (Str (issuer d))
  /\ θ !! (x + 1) = Some (Str (can cap))
  /\ θ !! (x + 2) = Some (Ucan.link d)
  /\ θ !! m = Some (Ref (CapabilityLink (cid d) k))
  /\ θ !! S m = Some (expiration_scalar (expiration d))
  /\ match att with
     | Some (a, j) =>
         θ !! (x + 3) = Some (Ucan.link a)
         /\ θ !! (m + 8) = Some (Ref (CapabilityLink (cid a) j))
         /\ θ !! S (m + 8) = Some (expiration_scalar (expiration a))
     | None => True
     end.

(** What [cover] needs to know about the attestation it uses. *)
Definition admitted (ds : list Delegation) (t : Z) (d : Delegation)
           (att : option (Delegation * nat)) : Prop :=
  match att with
  | None => mailto (issuer d) = false
  | Some (a, j) =>
      a ∈ ds /\ audience a = audience d /\ unexpired t a = true
      /\ exists cap, capabilities a !! j = Some cap
                     /\ can cap = "ucan/attest"
                     /\ ("proof", Ref (UcanLink (cid d))) ∈ nb cap
  end.

(** ** Fixtures of the witnesses and counterexamples *)

Module Fixture.

Definition alice : DID := "did:key:zAlice".
Definition space : DID := "did:key:zSpace".
Definition account : DID := "did:mailto:web.mail:alice".
Definition w3up : DID := "did:web:web3.storage".

(** A store with one row whose archive decodes to no delegation. *)
Definition stale_store (can_stream : bool) : Storage.Store :=
  Storage.mkStore {[ "bafy.car" := [] ]}
                  (Storage.mkDatabase can_stream
                     [Storage.mkRow "bafy" alice space])
                  [].

(** An account login: [ucan:*] from the account to alice. *)
Definition login : Delegation :=
  mkDelegation "bafy-login" account alice [mkCapability "*" "ucan:*" []]
               Never [].

(** The attestation of [login], issued by the service to alice. *)
Definition attestation : Delegation :=
  mkDelegation "bafy-attest" w3up alice
    [mkCapability "ucan/attest" w3up [("proof", Ref (UcanLink "bafy-login"))]]
    Never [].

(** [{ audience: alice, subject: account, can: { 'store/add': [] },
    time: 50 }] *)
Definition account_query : Query.Input :=
  Query.mkInput (Text.Exact alice) (Some ["store/add"])
                (Some (Text.Exact account)) (Some 50%Z).

Definition account_authorization : Authorization.t :=
  Authorization.mk alice account ["store/add"] [login; attestation].

(** A direct grant of [store/*] and [upload/*] on the space to alice, valid
    until 100. *)
Definition grant : Delegation :=
  mkDelegation "bafy-grant" space alice
    [mkCapability "store/*" space []; mkCapability "upload/*" space []]
    (At 100) [].

(** A recovery delegation: the space hands [*] to the account. *)
Definition recovery : Delegation :=
  mkDelegation "bafy-recovery" space account [mkCapability "*" space []]
               Never [].

(** A login backed by [recovery]. *)
Definition space_login : Delegation :=
  mkDelegation "bafy-space-login" account alice [mkCapability "*" "ucan:*" []]
               Never ["bafy-recovery"].


(** An explicit grant issued by the account itself, without
    attestation. *)
Definition plan_grant : Delegation :=
  mkDelegation "bafy-plan" account alice [mkCapability "plan/get" account []]
               (At 100) [].

(** Two direct grants on the space to alice: [store/*] and [store/add]. *)
Definition wide : Delegation :=
  mkDelegation "bafy-wide" space alice [mkCapability "store/*" space []]
               (At 100) [].

Definition narrow : Delegation :=
  mkDelegation "bafy-narrow" space alice [mkCapability "store/add" space []]
               (At 100) [].

(** The same grant as [grant], expired since 10. *)
Definition expired_grant : Delegation :=
  mkDelegation "bafy-expired" space alice
    [mkCapability "store/*" space []; mkCapability "upload/*" space []]
    (At 10) [].

(** [{ audience: alice, can: { 'store/add': [] }, time }] *)
Definition store_add (time : Z) : Query.Input :=
  Query.mkInput (Text.Exact alice) (Some ["store/add"]) None (Some time).

(** A delegation of [ucan:*] by the space itself to the account, and a
    login whose only proof is that delegation. *)
Definition root : Delegation :=
  mkDelegation "bafy-root" space account [mkCapability "*" "ucan:*" []]
               Never [].

Definition chained_login : Delegation :=
  mkDelegation "bafy-chained" account alice [mkCapability "*" "ucan:*" []]
               Never ["bafy-root"].


End Fixture.

(** ** The stores: endings of a read, invariants, remaining functions *)

(** How a generator ends: [None] when it returns, the error when it
    throws. *)
Fixpoint thrown {A} (g : Generated A) : option Error :=
  match g with
  | Done => None
  | Yield _ rest => thrown rest
  | Raise e => Some e
  end.

#[global] Instance DelegationRow_eq_dec : EqDecision Storage.DelegationRow.
Proof. solve_decision. Defined.

(** [consistent_row bytesToDelegations s r]: the archive of the row [r]
    holds exactly one delegation, and [r] is the row of that delegation. *)
Definition consistent_row (bytesToDelegations : bytes -> list Delegation)
           (s : Storage.Store) (r : Storage.DelegationRow) : bool :=
  match Storage.rowToDelegation bytesToDelegations (Storage.row_cid r) s with
  | Ok d => bool_decide (Storage.createDelegationRowUpdateV3 d = r)
  | Throw _ => false
  end.

(** [consistent bytesToDelegations s]: every row of the table is
    consistent with the bucket. *)
Definition consistent (bytesToDelegations : bytes -> list Delegation)
           (s : Storage.Store) : bool :=
  forallb (consistent_row bytesToDelegations s)
          (Storage.table (Storage.db s)).

(** The codec reads back the archive of each delegation of [ds]. *)
Definition decodable (delegationsToBytes : list Delegation -> bytes)
           (bytesToDelegations : bytes -> list Delegation)
           (ds : list Delegation) : Prop :=
  forall d, d ∈ ds -> bytesToDelegations (delegationsToBytes [d]) = [d].

(** Content addressing between the delegations [ds] and the rows of the
    table: a row that has the identifier of a delegation of [ds] is the row
    of that delegation. *)
Definition addressed (ds : list Delegation) (s : Storage.Store) : Prop :=
  forall d r, d ∈ ds -> r ∈ Storage.table (Storage.db s) ->
              Storage.row_cid r = cid d ->
              r = Storage.createDelegationRowUpdateV3 d.

(** What the [bytes] column of a row may hold: a view on a buffer (a node
    [Buffer], a typed array), an array of integers, or anything else. *)
Inductive SqlValue :=
| View (buffer : bytes) (byteOffset byteLength : nat)
| Array (items : list Z)
| Other.

(** The conversion of an integer to an element of a [Uint8Array]: the
    integer modulo 256. *)
Definition to_uint8 (x : Z) : Byte.byte :=
  default Byte.x00 (Byte.of_N (Z.to_N (x mod 256))).

(** [None] is [undefined]. *)
Definition delegationsTableBytesToArrayBuffer (sqlValue : SqlValue)
  : option bytes :=
  match sqlValue with
  | View buffer byteOffset byteLength =>
      Some (take byteLength (drop byteOffset buffer))
  | Array items => Some (map to_uint8 items)
  | Other => None
  end.

(** ** The account table (Accounts.create, Accounts.get) *)

Module Account.

(** The string without its first [n] characters. *)
Fixpoint skip (n : nat) (s : string) : string :=
  match n, s with
  | S n', String _ s' => skip n' s'
  | _, _ => s
  end.

(** [s.replace(pattern, replacement)] with a string pattern and a
    replacement without [$]: the first occurrence of [pattern] is replaced,
    a string without occurrence is returned as it is. *)
Fixpoint replace (pattern replacement s : string) : string :=
  if String.prefix pattern s
  then replacement +:+ skip (String.length pattern) s
  else match s with
       | EmptyString => EmptyString
       | String c s' => String c (replace pattern replacement s')
       end.

(** The [voucher/redeem] capability: [with], [nb.account],
    [nb.identity]. *)
Record Nb := mkNb { account : string; identity : string }.
Record VoucherRedeem := mkVoucherRedeem { with_ : string; nb : Nb }.

(** A row of the [accounts] table: its columns by name. *)
Abbreviation Columns := (gmap string string).

(** [db.insert({ tableName: 'accounts', data })]: the new row has the
    columns of [data] and, for the others, what the table fills in by
    itself ([filled]). *)
Definition insert (data filled : Columns) (accounts : list Columns)
  : list Columns :=
  accounts ++ [data ∪ filled].

(** [db.fetchOne({ tableName: 'accounts', fields: '*', where: { conditions:
    'did=?1', params: [did] } })]: [results] is a row whose [did] column is
    [did], [None] when there is none. *)
Definition fetchOne (did : string) (accounts : list Columns)
  : option Columns :=
  head (filter (fun row => row !! "did" = Some did) accounts).

(** [create(capability, invocation)], with [issuer] for
    [invocation.issuer.did()]. *)
Definition create (capability : VoucherRedeem) (issuer : string)
           (filled : Columns) (accounts : list Columns) : list Columns :=
  insert (list_to_map
            [ ("did", account (nb capability));
              ("product", with_ capability);
              ("email", replace "mailto:" "" (identity (nb capability)));
              ("agent", issuer) ])
         filled accounts.

(** The object that [get] returns; a field is [None] when the row has no
    such column ([undefined]). *)
Record t := mk {
  did : option string;
  agent : option string;
  email : option string;
  product : option string;
  updated_at : option string;
  inserted_at : option string
}.

Definition get (did : string) (accounts : list Columns) : option t :=
  match fetchOne did accounts with
  | None => None
  | Some results =>
      Some (mk (results !! "did")
               (results !! "agent")
               (results !! "email")
               (results !! "product")
               (results !! "update_at")
               (results !! "inserted_at"))
  end.

End Account.

(** ** A codec and a store for the examples *)

Module Archive.

Definition known : list Delegation :=
  [Fixture.grant; Fixture.login; Fixture.attestation; Fixture.recovery].

(** The archive of delegations: their identifiers, as bytes. *)
Definition delegationsToBytes (ds : list Delegation) : bytes :=
  list_byte_of_string (String.concat "," (map cid ds)).

Definition bytesToDelegations (carBytes : bytes) : list Delegation :=
  filter (fun d => cid d = string_of_list_byte carBytes) known.

Definition empty : Storage.Store :=
  Storage.mkStore ∅ (Storage.mkDatabase true []) [].

(** The store after [putMany(grant, recovery)]: a row for alice, then a
    row for the account. *)
Definition two : Storage.Store :=
  snd (Storage.putMany delegationsToBytes [Fixture.grant; Fixture.recovery]
                       empty).

(** The same store once the archive of [recovery] is gone from the
    bucket. *)
Definition torn : Storage.Store :=
  Storage.mkStore (delete "bafy-recovery.car" (Storage.dags two))
                  (Storage.db two) (Storage.writes two).

End Archive.

(** * Properties *)

(** ** Results and lists *)

Lemma flat_mapR_Ok_inv {A B} (f : A -> Result (list B)) l rs :
  flat_mapR f l = Ok rs ->
  Forall (fun x => exists r, f x = Ok r) l
  /\ forall y, y ∈ rs <-> exists x r, x ∈ l /\ f x = Ok r /\ y ∈ r.
Proof.
  revert rs. induction l as [|x l IH]; intros rs; simpl.
  - intros [= <-]. split; [constructor|].
    intros y. split; [intros H; inversion H|].
    intros (x & r & Hx & _). inversion Hx.
  - destruct (f x) as [r|e] eqn:Hfx; simpl; [|discriminate].
    destruct (flat_mapR f l) as [rs'|e] eqn:Hl; simpl; [|discriminate].
    intros [= <-]. destruct (IH rs' eq_refl) as [Hall Hin]. split.
    + constructor; eauto.
    + intros y. rewrite elem_of_app, Hin. split.
      * intros [Hy | (x' & r' & Hx' & Hf & Hy)].
        -- exists x, r. split; [left|]; auto.
        -- exists x', r'. split; [right|]; auto.
      * intros (x' & r' & Hx' & Hf & Hy).
        apply elem_of_cons in Hx' as [-> | Hx'].
        -- left. congruence.
        -- right. eauto.
Qed.

Lemma flat_mapR_Ok_intro {A B} (f : A -> Result (list B)) l :
  Forall (fun x => exists r, f x = Ok r) l ->
  exists rs, flat_mapR f l = Ok rs.
Proof.
  induction 1 as [|x l [r Hr] _ [rs Hrs]]; simpl; [eauto|].
  rewrite Hr, Hrs. simpl. eauto.
Qed.

(** ** Glob patterns *)

Lemma glob_star_any text : glob_match "*" text = true.
Proof.
  induction text as [|c text IH]; [reflexivity|].
  change (glob_match "*" (String c text))
    with (false || glob_match "*" text). exact IH.
Qed.

Lemma glob_match_star_cons c pattern text :
  glob_match (String "*" pattern) text = true ->
  glob_match (String "*" pattern) (String c text) = true.
Proof.
  intros H.
  change (glob_match (String "*" pattern) (String c text))
    with (glob_match pattern (String c text)
          || glob_match (String "*" pattern) text).
  rewrite H. apply orb_true_r.
Qed.

Lemma glob_match_star_skip pattern text :
  glob_match pattern text = true ->
  glob_match (String "*" pattern) text = true.
Proof.
  intros H. destruct text as [|c text].
  - change (glob_match (String "*" pattern) "")
      with (glob_match pattern "" || false).
    rewrite H. reflexivity.
  - change (glob_match (String "*" pattern) (String c text))
      with (glob_match pattern (String c text)
            || glob_match (String "*" pattern) text).
    rewrite H. reflexivity.
Qed.

(** A pattern matches itself: an ability, read as a pattern, covers the
    ability of the same name. *)
Lemma glob_match_refl pattern : glob_match pattern pattern = true.
Proof.
  induction pattern as [|c pattern IH]; [reflexivity|].
  destruct (Ascii.eqb c "*") eqn:Hc.
  - apply Ascii.eqb_eq in Hc as ->.
    apply glob_match_star_cons, glob_match_star_skip, IH.
  - simpl. rewrite Hc, Ascii.eqb_refl. exact IH.
Qed.

(** ** The clause evaluator *)

Section Evaluator.

Import DB Sem.
Context (db : list Fact).

Lemma Clause_induction (P : Clause -> Prop) :
  (forall e a v, P (Match e a v)) ->
  (forall cs, Forall P cs -> P (And cs)) ->
  (forall cs, Forall P cs -> P (Or cs)) ->
  (forall c, P c -> P (Not c)) ->
  (forall t p, P (Glob t p)) ->
  (forall t u, P (Is t u)) ->
  (forall t u, P (GreaterOrEqual t u)) ->
  forall c, P c.
Proof.
  intros HM HA HO HN HG HI HGe.
  fix go 1. intros [e a v|cs|cs|c|t p|t u|t u].
  - apply HM.
  - apply HA. induction cs as [|c cs IH]; constructor; [apply go|exact IH].
  - apply HO. induction cs as [|c cs IH]; constructor; [apply go|exact IH].
  - apply HN, go.
  - apply HG.
  - apply HI.
  - apply HGe.
Qed.

(** *** Unfolding equations *)

Lemma eval_And_nil b : eval db (And []) b = Ok [b].
Proof. reflexivity. Qed.

Lemma eval_And_cons c cs b :
  eval db (And (c :: cs)) b
  = bindR (eval db c b) (fun bs => flat_mapR (eval db (And cs)) bs).
Proof. reflexivity. Qed.

Lemma eval_Or_nil b : eval db (Or []) b = Ok [].
Proof. reflexivity. Qed.

Lemma eval_Or_cons c cs b :
  eval db (Or (c :: cs)) b
  = bindR (eval db c b)
      (fun r => bindR (eval db (Or cs) b) (fun rs => Ok (r ++ rs))).
Proof. reflexivity. Qed.

Lemma vars_And_cons c cs : vars (And (c :: cs)) = vars c ++ vars (And cs).
Proof. reflexivity. Qed.

Lemma vars_Or_cons c cs : vars (Or (c :: cs)) = vars c ++ vars (Or cs).
Proof. reflexivity. Qed.

Lemma holds_And_cons θ c cs :
  holds db θ (And (c :: cs)) <-> holds db θ c /\ holds db θ (And cs).
Proof. reflexivity. Qed.

Lemma holds_Or_cons θ c cs :
  holds db θ (Or (c :: cs)) <-> holds db θ c \/ holds db θ (Or cs).
Proof. reflexivity. Qed.

(** *** Unification *)

Lemma resolve_weaken t (b b' : Binding) s :
  resolve t b = Some s -> b ⊆ b' -> resolve t b' = Some s.
Proof.
  destruct t as [x|c]; simpl; [|auto].
  intros H Hsub. eapply lookup_weaken; eauto.
Qed.

Lemma unify_Some t s (b b' : Binding) :
  unify t s b = Some b' -> b ⊆ b' /\ resolve t b' = Some s.
Proof.
  destruct t as [x|c]; simpl.
  - destruct (b !! x) as [s'|] eqn:Hx.
    + case_decide; [|discriminate]. intros [= <-]. subst. auto.
    + intros [= <-]. split; [by apply insert_subseteq|].
      apply lookup_insert_eq.
  - case_decide; [|discriminate]. intros [= <-]. subst. auto.
Qed.


Lemma unify_complete t s (b θ : Binding) :
  resolve t θ = Some s -> b ⊆ θ ->
  exists b', unify t s b = Some b' /\ b' ⊆ θ.
Proof.
  destruct t as [x|c]; simpl.
  - intros Hx Hsub. destruct (b !! x) as [s'|] eqn:Hb.
    + assert (θ !! x = Some s') as Hs' by (eapply lookup_weaken; eauto).
      assert (s' = s) as -> by congruence.
      rewrite decide_True by done. eauto.
    + eexists. split; [reflexivity|]. by apply insert_subseteq_l.
  - intros [= ->] Hsub. rewrite decide_True by done. eauto.
Qed.

(** *** Matching one fact *)

Lemma yields_Match e a v b b' :
  yields db (Match e a v) b b' <->
  exists f b1, f ∈ db /\ attribute f = a
               /\ unify e (entity f) b = Some b1
               /\ unify v (value f) b1 = Some b'.
Proof.
  unfold yields. simpl. split.
  - intros (bs & [= <-] & Hin).
    apply list_elem_of_omap in Hin as (f & Hf & Hm).
    unfold match_fact in Hm. case_decide; [|discriminate].
    destruct (unify e (entity f) b) as [b1|] eqn:He; [|discriminate].
    eauto 10.
  - intros (f & b1 & Hf & Ha & He & Hv). eexists. split; [reflexivity|].
    apply list_elem_of_omap. exists f. split; [done|].
    unfold match_fact. rewrite decide_True by done. by rewrite He.
Qed.

Lemma safe_Match e a v b : safe db (Match e a v) b.
Proof. unfold safe. simpl. eauto. Qed.

(** *** Conjunction and disjunction *)

Lemma yields_And_nil b b' : yields db (And []) b b' <-> b' = b.
Proof.
  unfold yields. rewrite eval_And_nil. split.
  - intros (bs & [= <-] & Hin). by apply list_elem_of_singleton in Hin.
  - intros ->. eexists. split; [reflexivity|]. by apply list_elem_of_singleton.
Qed.

Lemma yields_And_cons c cs b b' :
  yields db (And (c :: cs)) b b' ->
  exists b1, yields db c b b1 /\ yields db (And cs) b1 b'.
Proof.
  unfold yields. rewrite eval_And_cons.
  intros (rs & Hev & Hin).
  destruct (eval db c b) as [bs|err] eqn:Hc; cbn [bindR] in Hev; [|discriminate].
  apply flat_mapR_Ok_inv in Hev as [_ Hiff].
  apply Hiff in Hin as (b1 & r & Hb1 & Hr & Hb'). eauto 10.
Qed.

Lemma safe_And_cons_inv c cs b :
  safe db (And (c :: cs)) b ->
  safe db c b /\ forall b1, yields db c b b1 -> safe db (And cs) b1.
Proof.
  unfold safe, yields. rewrite eval_And_cons. intros (rs & Hev).
  destruct (eval db c b) as [bs|err] eqn:Hc; cbn [bindR] in Hev; [|discriminate].
  split; [eauto|]. intros b1 (bs' & [= <-] & Hin).
  apply flat_mapR_Ok_inv in Hev as [Hall _].
  rewrite Forall_forall in Hall. exact (Hall b1 Hin).
Qed.

Lemma safe_And_cons c cs b :
  safe db c b -> (forall b1, yields db c b b1 -> safe db (And cs) b1) ->
  safe db (And (c :: cs)) b.
Proof.
  unfold safe at 1 3. rewrite eval_And_cons. intros [bs Hbs] Hrest.
  rewrite Hbs. cbn [bindR]. apply flat_mapR_Ok_intro, Forall_forall.
  intros b1 Hb1. apply Hrest. exists bs. auto.
Qed.

Lemma safe_And_nil b : safe db (And []) b.
Proof. unfold safe. rewrite eval_And_nil. eauto. Qed.

Lemma yields_And_cons_intro c cs b b1 b' :
  safe db (And (c :: cs)) b ->
  yields db c b b1 -> yields db (And cs) b1 b' ->
  yields db (And (c :: cs)) b b'.
Proof.
  unfold safe, yields. rewrite eval_And_cons.
  intros (rs & Hev) (bs & Hbs & Hb1) (r & Hr & Hb').
  rewrite Hbs in *. cbn [bindR] in *. exists rs. split; [done|].
  apply flat_mapR_Ok_inv in Hev as [_ Hiff]. apply Hiff. eauto.
Qed.

Lemma yields_Or cs b b' :
  yields db (Or cs) b b' -> exists c, c ∈ cs /\ yields db c b b'.
Proof.
  unfold yields. induction cs as [|c cs IH] in b' |- *.
  - rewrite eval_Or_nil. intros (bs & [= <-] & Hin). inversion Hin.
  - rewrite eval_Or_cons. intros (bs & Hev & Hin).
    destruct (eval db c b) as [r|err] eqn:Hc; cbn [bindR] in Hev; [|discriminate].
    destruct (eval db (Or cs) b) as [rs|err] eqn:Hcs; cbn [bindR] in Hev;
      [|discriminate].
    injection Hev as <-. apply elem_of_app in Hin as [Hin|Hin].
    + exists c. split; [left|]; eauto.
    + destruct (IH b') as (c' & Hc' & Hy); [eauto|].
      exists c'. split; [by right|done].
Qed.

Lemma safe_Or cs b :
  safe db (Or cs) b <-> Forall (fun c => safe db c b) cs.
Proof.
  unfold safe. induction cs as [|c cs IH].
  - rewrite eval_Or_nil. split; [constructor|eauto].
  - rewrite eval_Or_cons, Forall_cons, <- IH. split.
    + intros (bs & Hev).
      destruct (eval db c b) as [r|err]; cbn [bindR] in Hev; [|discriminate].
      destruct (eval db (Or cs) b) as [rs|err]; cbn [bindR] in Hev; [|discriminate].
      eauto.
    + intros [[r ->] [rs ->]]. cbn [bindR]. eauto.
Qed.

Lemma yields_Or_intro cs c b b' :
  safe db (Or cs) b -> c ∈ cs -> yields db c b b' -> yields db (Or cs) b b'.
Proof.
  unfold safe, yields. induction cs as [|c0 cs IH]; [inversion 2|].
  rewrite eval_Or_cons. intros (bs & Hev) Hin (r' & Hr' & Hb').
  destruct (eval db c0 b) as [r|err] eqn:Hc; cbn [bindR] in Hev; [|discriminate].
  destruct (eval db (Or cs) b) as [rs|err] eqn:Hcs; cbn [bindR] in Hev;
    [|discriminate].
  simpl. eexists. split; [reflexivity|]. apply elem_of_app.
  apply elem_of_cons in Hin as [-> | Hin].
  - left. congruence.
  - right. destruct IH as (rs' & [= <-] & ?); eauto.
Qed.

(** *** Negation and constraints *)

Lemma bound_all b xs :
  forallb (bound b) xs = true <-> Forall (fun x => is_Some (b !! x)) xs.
Proof.
  rewrite forallb_forall, Forall_forall. unfold bound.
  split; intros H x Hx.
  - apply list_elem_of_In in Hx. specialize (H x Hx).
    destruct (b !! x); [eauto|discriminate].
  - apply list_elem_of_In in Hx. specialize (H x Hx).
    destruct H as [s ->]. reflexivity.
Qed.

Lemma yields_Not c b b' :
  yields db (Not c) b b' <->
  b' = b /\ Forall (fun x => is_Some (b !! x)) (vars c)
  /\ eval db c b = Ok [].
Proof.
  unfold yields. cbn [eval]. rewrite <- bound_all. split.
  - intros (bs & Hev & Hin).
    destruct (forallb (bound b) (vars c)); [|discriminate].
    destruct (eval db c b) as [[|b1 r]|err]; cbn [bindR] in Hev;
      try discriminate; injection Hev as <-.
    + by apply list_elem_of_singleton in Hin.
    + inversion Hin.
  - intros (-> & -> & ->). cbn [bindR]. eexists. split; [reflexivity|].
    by apply list_elem_of_singleton.
Qed.

Lemma safe_Not c b :
  safe db (Not c) b <->
  Forall (fun x => is_Some (b !! x)) (vars c) /\ safe db c b.
Proof.
  unfold safe. cbn [eval]. rewrite <- bound_all. split.
  - intros (bs & Hev).
    destruct (forallb (bound b) (vars c)); [|discriminate].
    destruct (eval db c b) as [r|err]; cbn [bindR] in Hev; [|discriminate].
    eauto.
  - intros [-> [r ->]]. cbn [bindR]. eauto.
Qed.

Lemma constraint_elem rel t u b bs b' :
  constraint t u b rel = Ok bs ->
  b' ∈ bs <-> b' = b /\ related rel t u b.
Proof.
  unfold constraint, related.
  destruct (resolve t b) as [x|]; [|discriminate].
  destruct (resolve u b) as [y|]; [|discriminate].
  destruct (rel x y) eqn:Hrel; intros [= <-]; split.
  - intros ->%list_elem_of_singleton. eauto 10.
  - intros [-> _]. by apply list_elem_of_singleton.
  - inversion 1.
  - intros (_ & x' & y' & [= <-] & [= <-] & Hxy). congruence.
Qed.

Lemma constraint_safe rel t u b :
  (exists bs, constraint t u b rel = Ok bs) <->
  is_Some (resolve t b) /\ is_Some (resolve u b).
Proof.
  unfold constraint. split.
  - intros [bs H]. destruct (resolve t b); [|discriminate].
    destruct (resolve u b); [|discriminate]. eauto.
  - intros [[x ->] [y ->]]. eauto.
Qed.

Lemma related_weaken rel t u (b b' : Binding) :
  related rel t u b -> b ⊆ b' -> related rel t u b'.
Proof.
  intros (x & y & Hx & Hy & Hrel) Hsub.
  exists x, y. eauto using resolve_weaken.
Qed.

Lemma resolve_agree t (θ1 θ2 : Binding) :
  (forall x, x ∈ term_vars t -> θ1 !! x = θ2 !! x) ->
  resolve t θ1 = resolve t θ2.
Proof.
  destruct t as [x|c]; simpl; [|done]. intros H. apply H. by left.
Qed.

Lemma related_agree rel t u (θ1 θ2 : Binding) :
  (forall x, x ∈ term_vars t ++ term_vars u -> θ1 !! x = θ2 !! x) ->
  related rel t u θ1 <-> related rel t u θ2.
Proof.
  intros H. unfold related.
  rewrite (resolve_agree t θ1 θ2), (resolve_agree u θ1 θ2); [done| |];
    intros x Hx; apply H, elem_of_app; auto.
Qed.

(** *** Bindings only grow, and only on the variables of the clause *)

Lemma yields_extends c : forall b b', yields db c b b' -> b ⊆ b'.
Proof.
  induction c as [e a v|cs IH|cs IH|c IH|t p|t u|t u]
    using Clause_induction; intros b b'.
  - intros (f & b1 & _ & _ & He & Hv)%yields_Match.
    apply unify_Some in He as [? _]. apply unify_Some in Hv as [? _].
    by etrans.
  - revert b. induction IH as [|c cs Hc _ IHcs]; intros b.
    + by intros ->%yields_And_nil.
    + intros (b1 & H1 & H2)%yields_And_cons.
      transitivity b1; [exact (Hc _ _ H1)|exact (IHcs _ H2)].
  - intros (c & Hin & Hy)%yields_Or.
    rewrite Forall_forall in IH. eauto.
  - by intros (-> & _)%yields_Not.
  - intros (bs & Hev & Hin). by apply (constraint_elem _ _ _ _ _ _ Hev) in Hin as [-> _].
  - intros (bs & Hev & Hin). by apply (constraint_elem _ _ _ _ _ _ Hev) in Hin as [-> _].
  - intros (bs & Hev & Hin). by apply (constraint_elem _ _ _ _ _ _ Hev) in Hin as [-> _].
Qed.



(** *** Satisfaction depends on the variables of the clause only *)

Lemma holds_agree c :
  forall θ1 θ2 : Binding,
    (forall x, x ∈ vars c -> θ1 !! x = θ2 !! x) ->
    holds db θ1 c <-> holds db θ2 c.
Proof.
  induction c as [e a v|cs IH|cs IH|c IH|t p|t u|t u]
    using Clause_induction; intros θ1 θ2 Hag.
  - simpl in *.
    rewrite (resolve_agree e θ1 θ2), (resolve_agree v θ1 θ2); [done| |];
      intros x Hx; apply Hag, elem_of_app; auto.
  - induction IH as [|c cs Hc _ IHcs]; [done|].
    rewrite vars_And_cons in Hag. rewrite !holds_And_cons.
    rewrite (Hc θ1 θ2), IHcs; [done| |];
      intros x Hx; apply Hag, elem_of_app; auto.
  - induction IH as [|c cs Hc _ IHcs]; [done|].
    rewrite vars_Or_cons in Hag. rewrite !holds_Or_cons.
    rewrite (Hc θ1 θ2), IHcs; [done| |];
      intros x Hx; apply Hag, elem_of_app; auto.
  - cbn [holds]. rewrite (IH θ1 θ2 Hag).
    rewrite !Forall_forall. split; intros [Hb Hn]; split; auto;
      intros x Hx; specialize (Hb x Hx);
      [rewrite <- Hag|rewrite Hag]; auto.
  - by apply related_agree.
  - by apply related_agree.
  - by apply related_agree.
Qed.

Lemma holds_weaken c :
  forall θ θ' : Binding, holds db θ c -> θ ⊆ θ' -> holds db θ' c.
Proof.
  induction c as [e a v|cs IH|cs IH|c IH|t p|t u|t u]
    using Clause_induction; intros θ θ' H Hsub.
  - destruct H as (f & Hf & Ha & He & Hv).
    exists f. eauto 10 using resolve_weaken.
  - induction IH as [|c cs Hc _ IHcs]; [done|].
    apply holds_And_cons in H as [H1 H2]. apply holds_And_cons. eauto.
  - induction IH as [|c cs Hc _ IHcs]; [done|].
    apply holds_Or_cons in H as [H1|H2]; apply holds_Or_cons; eauto.
  - destruct H as [Hb Hn]. rewrite Forall_forall in Hb.
    assert (forall x, x ∈ vars c -> θ' !! x = θ !! x) as Hag.
    { intros x Hx. destruct (Hb x Hx) as [s Hs]. rewrite Hs.
      eapply lookup_weaken; eauto. }
    split.
    + apply Forall_forall. intros x Hx. rewrite (Hag x Hx). auto.
    + by rewrite (holds_agree c θ' θ Hag).
  - exact (related_weaken _ _ _ _ _ H Hsub).
  - exact (related_weaken _ _ _ _ _ H Hsub).
  - exact (related_weaken _ _ _ _ _ H Hsub).
Qed.

(** *** The evaluator is sound and complete for [holds] *)

Lemma constraint_sound rel t u b b' :
  (exists bs, constraint t u b rel = Ok bs /\ b' ∈ bs) ->
  related rel t u b'.
Proof.
  intros (bs & Hev & Hin).
  by apply (constraint_elem _ _ _ _ _ _ Hev) in Hin as [-> ?].
Qed.

Lemma constraint_complete rel t u (b θ : Binding) :
  related rel t u θ -> b ⊆ θ ->
  (exists bs, constraint t u b rel = Ok bs) ->
  exists b', (exists bs, constraint t u b rel = Ok bs /\ b' ∈ bs) /\ b' ⊆ θ.
Proof.
  intros (x & y & Hx & Hy & Hrel) Hsub [bs Hev].
  exists b. split; [|done]. exists bs. split; [done|].
  apply (constraint_elem _ _ _ _ _ _ Hev). split; [done|].
  destruct (proj1 (constraint_safe rel t u b) (ex_intro _ bs Hev))
    as [[x' Hx'] [y' Hy']].
  exists x', y'. split; [done|]. split; [done|].
  rewrite (resolve_weaken _ _ _ _ Hx' Hsub) in Hx.
  rewrite (resolve_weaken _ _ _ _ Hy' Hsub) in Hy. congruence.
Qed.

Lemma eval_sound_complete c :
  (forall b b', yields db c b b' -> holds db b' c)
  /\ (forall b θ, holds db θ c -> b ⊆ θ -> safe db c b ->
                  exists b', yields db c b b' /\ b' ⊆ θ).
Proof.
  induction c as [e a v|cs IH|cs IH|c IH|t p|t u|t u]
    using Clause_induction.
  - split.
    + intros b b' (f & b1 & Hf & Ha & He & Hv)%yields_Match.
      apply unify_Some in He as [_ He]. apply unify_Some in Hv as [Hsub Hv].
      exists f. eauto 10 using resolve_weaken.
    + intros b θ (f & Hf & Ha & He & Hv) Hsub _.
      destruct (unify_complete _ _ _ _ He Hsub) as (b1 & He1 & Hsub1).
      destruct (unify_complete _ _ _ _ Hv Hsub1) as (b' & Hv' & Hsub').
      exists b'. split; [|done]. apply yields_Match. eauto 10.
  - induction IH as [|c cs [Hs Hc] _ [IHs IHc]].
    + split.
      * by intros b b' ->%yields_And_nil.
      * intros b θ _ Hsub _. exists b. split; [|done].
        by apply yields_And_nil.
    + split.
      * intros b b' (b1 & H1 & H2)%yields_And_cons. apply holds_And_cons.
        split; [|eauto].
        eapply holds_weaken; [eauto|]. eapply yields_extends; eauto.
      * intros b θ [H1 H2]%holds_And_cons Hsub Hsafe.
        pose proof Hsafe as [Hsafe1 Hsafe2]%safe_And_cons_inv.
        destruct (Hc b θ H1 Hsub Hsafe1) as (b1 & Hy1 & Hsub1).
        destruct (IHc b1 θ H2 Hsub1 (Hsafe2 b1 Hy1)) as (b' & Hy' & Hsub').
        exists b'. split; [|done]. eapply yields_And_cons_intro; eauto.
  - split.
    + intros b b' (c & Hin & Hy)%yields_Or.
      rewrite Forall_forall in IH. destruct (IH c Hin) as [Hs _].
      specialize (Hs b b' Hy). clear -Hin Hs.
      induction cs as [|c0 cs IHcs]; [inversion Hin|].
      apply holds_Or_cons.
      apply elem_of_cons in Hin as [-> | Hin]; auto.
    + intros b θ H Hsub Hsafe.
      assert (exists c, c ∈ cs /\ holds db θ c) as (c & Hin & Hc).
      { clear -H. induction cs as [|c0 cs IHcs]; [destruct H|].
        apply holds_Or_cons in H as [H|H].
        - exists c0. split; [left|done].
        - destruct (IHcs H) as (c & ? & ?). exists c. split; [by right|done]. }
      rewrite Forall_forall in IH. destruct (IH c Hin) as [_ Hcomp].
      pose proof Hsafe as Hall%safe_Or. rewrite Forall_forall in Hall.
      destruct (Hcomp b θ Hc Hsub (Hall c Hin)) as (b' & Hy & Hsub').
      exists b'. split; [|done]. eapply yields_Or_intro; eauto.
  - destruct IH as [Hs Hc]. split.
    + intros b b' (-> & Hb & Hev)%yields_Not. split; [done|].
      intros H.
      destruct (Hc b b H (reflexivity b)) as (b' & (bs & Hbs & Hin) & _).
      { by exists []. }
      rewrite Hev in Hbs. injection Hbs as <-. inversion Hin.
    + intros b θ [Hb Hn] Hsub Hsafe.
      pose proof Hsafe as [Hbb [r Hr]]%safe_Not.
      exists b. split; [|done]. apply yields_Not.
      split; [done|]. split; [done|].
      destruct r as [|b1 r]; [done|]. exfalso. apply Hn.
      assert (yields db c b b1) as Hy by (exists (b1 :: r); split; [done|left]).
      pose proof (yields_extends c b b1 Hy) as Hsub1.
      apply (holds_agree c b1 θ); [|eauto].
      rewrite Forall_forall in Hbb. intros x Hx.
      destruct (Hbb x Hx) as [s Hbx].
      rewrite (lookup_weaken _ _ _ _ Hbx Hsub1).
      by rewrite (lookup_weaken _ _ _ _ Hbx Hsub).
  - split; [intros b b'; apply constraint_sound|].
    intros b θ. apply constraint_complete.
  - split; [intros b b'; apply constraint_sound|].
    intros b θ. apply constraint_complete.
  - split; [intros b b'; apply constraint_sound|].
    intros b θ. apply constraint_complete.
Qed.

Lemma eval_sound c b b' : yields db c b b' -> holds db b' c.
Proof. apply eval_sound_complete. Qed.

Lemma eval_complete c b θ :
  holds db θ c -> b ⊆ θ -> safe db c b ->
  exists b', yields db c b b' /\ b' ⊆ θ.
Proof. apply eval_sound_complete. Qed.

End Evaluator.

(** ** The facts of a delegation set *)

Section Facts.

Import DB.

Lemma elem_of_capability_facts c i cap f :
  f ∈ capability_facts c i cap <->
  f = mkFact (Ref (CapabilityLink c i)) "capability/can" (Str (can cap))
  \/ f = mkFact (Ref (CapabilityLink c i)) "capability/with"
                (Str (with_ cap))
  \/ (exists fld v, (fld, v) ∈ nb cap
                    /\ f = mkFact (Ref (CapabilityLink c i))
                                  ("capability/nb/" +:+ fld) v)
  \/ f = mkFact (Ref (UcanLink c)) "ucan/capability"
                (Ref (CapabilityLink c i)).
Proof.
  unfold capability_facts.
  rewrite !elem_of_app, !elem_of_cons, list_elem_of_fmap.
  split.
  - intros [[?|[?|H]]|[((fld & v) & -> & Hin)|[?|H]]]; eauto 10;
      inversion H.
  - intros [?|[?|[(fld & v & Hin & ->)|?]]]; eauto 10.
    right. left. by exists (fld, v).
Qed.

Lemma elem_of_concat {A} (x : A) (ls : list (list A)) :
  x ∈ concat ls <-> exists l, l ∈ ls /\ x ∈ l.
Proof.
  rewrite list_elem_of_In, in_concat.
  by setoid_rewrite list_elem_of_In.
Qed.

Lemma elem_of_delegation_facts d f :
  f ∈ delegation_facts d <->
  f = mkFact (Ucan.link d) "ucan/issuer" (Str (issuer d))
  \/ f = mkFact (Ucan.link d) "ucan/audience" (Str (audience d))
  \/ f = mkFact (Ucan.link d) "ucan/expiration"
                (expiration_scalar (expiration d))
  \/ (exists i cap, capabilities d !! i = Some cap
                    /\ f ∈ capability_facts (cid d) i cap)
  \/ (exists p, p ∈ proofs d
                /\ f = mkFact (Ucan.link d) "ucan/proof" (Ref (UcanLink p))).
Proof.
  unfold delegation_facts.
  rewrite !elem_of_app, !elem_of_cons, list_elem_of_fmap, elem_of_concat.
  split.
  - intros [[?|[?|[?|H]]]|[(l & Hl & Hf)|(p & -> & Hp)]]; eauto 10.
    + inversion H.
    + apply list_elem_of_lookup in Hl as (i & Hi).
      apply list_lookup_imap_Some in Hi as (cap & Hcap & ->). eauto 10.
  - intros [?|[?|[?|[(i & cap & Hcap & Hf)|(p & Hp & ->)]]]]; eauto 10.
    right. left. exists (capability_facts (cid d) i cap). split; [|done].
    apply list_elem_of_lookup. exists i.
    apply list_lookup_imap_Some. eauto.
Qed.

Lemma elem_of_facts ds f :
  f ∈ facts ds <-> exists d, d ∈ ds /\ f ∈ delegation_facts d.
Proof.
  unfold facts. rewrite list_elem_of_In, in_flat_map.
  setoid_rewrite list_elem_of_In. reflexivity.
Qed.


(** Case analysis on a fact of a given attribute. *)
Ltac fact_cases Hf Ha :=
  apply elem_of_facts in Hf as (? & ? & Hf);
  apply elem_of_delegation_facts in Hf
    as [->|[->|[->|[(? & ? & ? & Hf)|(? & ? & ->)]]]];
  [ | | |
    apply elem_of_capability_facts in Hf
      as [->|[->|[(? & ? & ? & ->)| ->]]] | ];
  cbn in Ha; try discriminate Ha.

Section Attributes.

Context (ds : list Delegation) (f : Fact) (Hf : f ∈ facts ds).

Lemma fact_issuer :
  attribute f = "ucan/issuer" ->
  exists d, d ∈ ds /\ entity f = Ucan.link d /\ value f = Str (issuer d).
Proof using Hf. intros Ha. fact_cases Hf Ha. eauto. Qed.

Lemma fact_audience :
  attribute f = "ucan/audience" ->
  exists d, d ∈ ds /\ entity f = Ucan.link d
            /\ value f = Str (audience d).
Proof using Hf. intros Ha. fact_cases Hf Ha. eauto. Qed.

Lemma fact_expiration :
  attribute f = "ucan/expiration" ->
  exists d, d ∈ ds /\ entity f = Ucan.link d
            /\ value f = expiration_scalar (expiration d).
Proof using Hf. intros Ha. fact_cases Hf Ha. eauto. Qed.

Lemma fact_proof :
  attribute f = "ucan/proof" ->
  exists d p, d ∈ ds /\ p ∈ proofs d /\ entity f = Ucan.link d
              /\ value f = Ref (UcanLink p).
Proof using Hf. intros Ha. fact_cases Hf Ha. eauto 10. Qed.

Lemma fact_capability :
  attribute f = "ucan/capability" ->
  exists d i cap, d ∈ ds /\ capabilities d !! i = Some cap
                  /\ entity f = Ucan.link d
                  /\ value f = Ref (CapabilityLink (cid d) i).
Proof using Hf. intros Ha. fact_cases Hf Ha. eauto 10. Qed.

Lemma fact_can :
  attribute f = "capability/can" ->
  exists d i cap, d ∈ ds /\ capabilities d !! i = Some cap
                  /\ entity f = Ref (CapabilityLink (cid d) i)
                  /\ value f = Str (can cap).
Proof using Hf. intros Ha. fact_cases Hf Ha. eauto 10. Qed.

Lemma fact_with :
  attribute f = "capability/with" ->
  exists d i cap, d ∈ ds /\ capabilities d !! i = Some cap
                  /\ entity f = Ref (CapabilityLink (cid d) i)
                  /\ value f = Str (with_ cap).
Proof using Hf. intros Ha. fact_cases Hf Ha. eauto 10. Qed.

Lemma fact_nb_proof :
  attribute f = "capability/nb/proof" ->
  exists d i cap, d ∈ ds /\ capabilities d !! i = Some cap
                  /\ entity f = Ref (CapabilityLink (cid d) i)
                  /\ ("proof", value f) ∈ nb cap.
Proof using Hf.
  intros Ha. fact_cases Hf Ha.
  match type of Ha with
  | _ +:+ ?x = _ => injection Ha as Ha; change (x = "proof") in Ha; subst x
  end.
  eauto 10.
Qed.

End Attributes.

Section Members.

Context (ds : list Delegation) (d : Delegation) (Hd : d ∈ ds).

Lemma issuer_fact :
  mkFact (Ucan.link d) "ucan/issuer" (Str (issuer d)) ∈ facts ds.
Proof using Hd.
  apply elem_of_facts. exists d. split; [done|].
  apply elem_of_delegation_facts. auto.
Qed.

Lemma audience_fact :
  mkFact (Ucan.link d) "ucan/audience" (Str (audience d)) ∈ facts ds.
Proof using Hd.
  apply elem_of_facts. exists d. split; [done|].
  apply elem_of_delegation_facts. auto.
Qed.

Lemma expiration_fact :
  mkFact (Ucan.link d) "ucan/expiration"
         (expiration_scalar (expiration d)) ∈ facts ds.
Proof using Hd.
  apply elem_of_facts. exists d. split; [done|].
  apply elem_of_delegation_facts. auto.
Qed.

Lemma proof_fact p :
  p ∈ proofs d ->
  mkFact (Ucan.link d) "ucan/proof" (Ref (UcanLink p)) ∈ facts ds.
Proof using Hd.
  intros Hp. apply elem_of_facts. exists d. split; [done|].
  apply elem_of_delegation_facts. eauto 10.
Qed.

Context (i : nat) (cap : Capability)
        (Hcap : capabilities d !! i = Some cap).

Lemma capability_fact :
  mkFact (Ucan.link d) "ucan/capability" (Ref (CapabilityLink (cid d) i))
    ∈ facts ds.
Proof using Hd Hcap.
  apply elem_of_facts. exists d. split; [done|].
  apply elem_of_delegation_facts. do 3 right. left. exists i, cap.
  split; [done|]. apply elem_of_capability_facts. auto.
Qed.

Lemma can_fact :
  mkFact (Ref (CapabilityLink (cid d) i)) "capability/can" (Str (can cap))
    ∈ facts ds.
Proof using Hd Hcap.
  apply elem_of_facts. exists d. split; [done|].
  apply elem_of_delegation_facts. do 3 right. left. exists i, cap.
  split; [done|]. apply elem_of_capability_facts. auto.
Qed.

Lemma with_fact :
  mkFact (Ref (CapabilityLink (cid d) i)) "capability/with"
         (Str (with_ cap)) ∈ facts ds.
Proof using Hd Hcap.
  apply elem_of_facts. exists d. split; [done|].
  apply elem_of_delegation_facts. do 3 right. left. exists i, cap.
  split; [done|]. apply elem_of_capability_facts. auto.
Qed.

Lemma nb_proof_fact v :
  ("proof", v) ∈ nb cap ->
  mkFact (Ref (CapabilityLink (cid d) i)) "capability/nb/proof" v
    ∈ facts ds.
Proof using Hd Hcap.
  intros Hv. apply elem_of_facts. exists d. split; [done|].
  apply elem_of_delegation_facts. do 3 right. left. exists i, cap.
  split; [done|]. apply elem_of_capability_facts.
  right. right. left. exists "proof", v. auto.
Qed.

End Members.

End Facts.

(** ** The shape of the clauses of query.js *)

Section Shapes.

Import DB.

Lemma explicit_shape delegation audience issuer subject can time n :
  Query.explicit delegation
    (Options.mk (Some audience) (Some issuer) (Some subject) (Some can)
                (Some time)) n
  = (Shape.explicit delegation audience issuer subject can time n, n + 2).
Proof. unfold Shape.explicit. cbn. do 2 f_equal. lia. Qed.

Lemma forwards_shape delegation issuer audience can time n :
  Delegation.forwards delegation issuer audience can time n
  = (Shape.explicit delegation audience issuer (Const (Str "ucan:*")) can
                    time n, n + 2).
Proof. unfold Shape.explicit. cbn. do 2 f_equal. lia. Qed.

Lemma implicit_shape delegation audience issuer subject can time n :
  Query.implicit delegation
    (Options.mk (Some audience) (Some issuer) (Some subject) (Some can)
                (Some time)) n
  = (Shape.implicit delegation audience issuer subject can time n, n + 6).
Proof.
  unfold Shape.implicit, Shape.explicit. cbn.
  replace (n + 1) with (S n) by lia.
  replace (n + 3) with (S (S (S n))) by lia.
  replace (n + 4) with (S (S (S (S n)))) by lia.
  replace (n + 6) with (S (S (S (S (S (S n)))))) by lia.
  reflexivity.
Qed.

Lemma match_shape delegation audience issuer subject can time n :
  Query.match_ delegation
    (Options.mk (Some audience) (Some issuer) (Some subject) (Some can)
                (Some time)) n
  = (Shape.match_ delegation audience issuer subject can time n, n + 8).
Proof.
  unfold Query.match_, Shape.match_. cbn [Options.audience Options.issuer
    Options.subject Options.can Options.time default_to bind ret].
  unfold bind. rewrite explicit_shape, implicit_shape.
  unfold ret, or. f_equal. lia.
Qed.

Lemma attestation_shape attestation proof time audience n :
  Attestation.match_ attestation proof time audience n
  = (Shape.attestation attestation proof time audience n, n + 2).
Proof. unfold Shape.attestation. cbn. do 2 f_equal. lia. Qed.

Lemma group_shape need n :
  Query.group need n = (Shape.variables need n, n + 4).
Proof.
  unfold Shape.variables. cbn.
  replace (n + 1) with (S n) by lia.
  replace (n + 2) with (S (S n)) by lia.
  replace (n + 3) with (S (S (S n))) by lia.
  replace (n + 4) with (S (S (S (S n)))) by lia.
  reflexivity.
Qed.

Lemma group_clause_shape subject audience time g m :
  Query.group_clause subject audience time g m
  = (Shape.group g subject audience time m, m + 10).
Proof.
  unfold Query.group_clause, Shape.group, Shape.constrained, Shape.gate,
    Shape.proof. unfold bind.
  rewrite match_shape, attestation_shape. unfold ret.
  destruct (ProofSelector.need g); f_equal; lia.
Qed.

(** [mapM] over builders that allocate a fixed number of variables. *)
Lemma mapM_step {A B} (f : A -> Fresh B) (g : A -> nat -> B) (k : nat) :
  (forall a n, f a n = (g a n, n + k)) ->
  forall l n,
    mapM f l n = (imap (fun j a => g a (n + k * j)) l, n + k * length l).
Proof.
  intros Hf l. induction l as [|a l IH]; intros n.
  - cbn. do 2 f_equal. lia.
  - cbn [mapM]. unfold bind. rewrite Hf, IH. unfold ret.
    cbn [imap length]. f_equal.
    + f_equal; [f_equal; lia|]. apply imap_ext. intros j x _. cbn.
      f_equal. lia.
    + lia.
Qed.

End Shapes.

(** ** What the matchers mean on the facts of a delegation set *)

Section Matchers.

Import DB Sem.

Context (ds : list Delegation) (Hu : cid_unique ds).

Lemma unexpired_geb time d :
  scalar_geb (expiration_scalar (expiration d)) (Int time)
  = unexpired time d.
Proof. unfold unexpired. by destruct (expiration d). Qed.

Lemma same_delegation d1 d2 :
  d1 ∈ ds -> d2 ∈ ds -> Ucan.link d1 = Ucan.link d2 -> d1 = d2.
Proof using Hu. intros H1 H2 [= Hc]. by apply Hu. Qed.

Lemma same_capability d1 d2 i1 i2 cap1 cap2 :
  d1 ∈ ds -> d2 ∈ ds ->
  capabilities d1 !! i1 = Some cap1 -> capabilities d2 !! i2 = Some cap2 ->
  Ref (CapabilityLink (cid d1) i1) = Ref (CapabilityLink (cid d2) i2) ->
  d1 = d2 /\ i1 = i2 /\ cap1 = cap2.
Proof using Hu.
  intros H1 H2 Hc1 Hc2 [= Hc ->]. assert (d1 = d2) as -> by by apply Hu.
  split; [done|]. split; [done|]. congruence.
Qed.

(** The meaning of an explicit match. *)
Lemma holds_explicit θ delegation audience issuer subject can time m :
  holds (facts ds) θ
        (Shape.explicit delegation audience issuer subject can time m) ->
  exists d k cap,
    d ∈ ds /\ capabilities d !! k = Some cap
    /\ resolve delegation θ = Some (Ucan.link d)
    /\ resolve audience θ = Some (Str (Ucan.audience d))
    /\ resolve issuer θ = Some (Str (Ucan.issuer d))
    /\ resolve subject θ = Some (Str (with_ cap))
    /\ resolve can θ = Some (Str (Ucan.can cap))
    /\ θ !! m = Some (Ref (CapabilityLink (cid d) k))
    /\ θ !! S m = Some (expiration_scalar (expiration d))
    /\ exists e, resolve time θ = Some e
                 /\ scalar_geb (expiration_scalar (expiration d)) e = true.
Proof using Hu.
  unfold Shape.explicit. cbn [holds].
  intros [[(f1 & Hf1 & Ha1 & He1 & Hv1) [(f2 & Hf2 & Ha2 & He2 & Hv2) _]]
          [[(f3 & Hf3 & Ha3 & He3 & Hv3)
              [(f4 & Hf4 & Ha4 & He4 & Hv4)
                 [(f5 & Hf5 & Ha5 & He5 & Hv5)
                    [(f6 & Hf6 & Ha6 & He6 & Hv6)
                       [(x & e & Hx & He & Hge) _]]]]] _]].
  destruct (fact_can _ _ Hf1 Ha1) as (d1 & k1 & cap1 & Hd1 & Hk1 & E1 & V1).
  destruct (fact_with _ _ Hf2 Ha2) as (d2 & k2 & cap2 & Hd2 & Hk2 & E2 & V2).
  destruct (fact_capability _ _ Hf3 Ha3)
    as (d3 & k3 & cap3 & Hd3 & Hk3 & E3 & V3).
  destruct (fact_audience _ _ Hf4 Ha4) as (d4 & Hd4 & E4 & V4).
  destruct (fact_issuer _ _ Hf5 Ha5) as (d5 & Hd5 & E5 & V5).
  destruct (fact_expiration _ _ Hf6 Ha6) as (d6 & Hd6 & E6 & V6).
  rewrite E1 in He1. rewrite E2 in He2. rewrite E3 in He3.
  rewrite E4 in He4. rewrite E5 in He5. rewrite E6 in He6.
  rewrite V1 in Hv1. rewrite V2 in Hv2. rewrite V3 in Hv3.
  rewrite V4 in Hv4. rewrite V5 in Hv5. rewrite V6 in Hv6.
  cbn [resolve] in He1, He2, Hv3, Hv6, Hx.
  assert (d4 = d3) as -> by (apply same_delegation; congruence).
  assert (d5 = d3) as -> by (apply same_delegation; congruence).
  assert (d6 = d3) as -> by (apply same_delegation; congruence).
  destruct (same_capability d1 d3 k1 k3 cap1 cap3) as (-> & -> & ->);
    [done|done|done|done|congruence|].
  destruct (same_capability d2 d3 k2 k3 cap2 cap3) as (-> & _ & ->);
    [done|done|done|done|congruence|].
  exists d3, k3, cap3. do 9 (split; [done|]).
  exists e. split; [done|]. congruence.
Qed.

Lemma explicit_holds (θ : Binding) delegation audience issuer subject can
      time m d k cap e :
  d ∈ ds -> capabilities d !! k = Some cap ->
  resolve delegation θ = Some (Ucan.link d) ->
  resolve audience θ = Some (Str (Ucan.audience d)) ->
  resolve issuer θ = Some (Str (Ucan.issuer d)) ->
  resolve subject θ = Some (Str (with_ cap)) ->
  resolve can θ = Some (Str (Ucan.can cap)) ->
  θ !! m = Some (Ref (CapabilityLink (cid d) k)) ->
  θ !! S m = Some (expiration_scalar (expiration d)) ->
  resolve time θ = Some e ->
  scalar_geb (expiration_scalar (expiration d)) e = true ->
  holds (facts ds) θ
        (Shape.explicit delegation audience issuer subject can time m).
Proof.
  intros Hd Hk Hdl Ha Hi Hs Hc Hm Hsm Ht Hge.
  unfold Shape.explicit. cbn [holds resolve].
  repeat split.
  - eexists. split; [by eapply can_fact|]. by cbn.
  - eexists. split; [by eapply with_fact|]. by cbn.
  - eexists. split; [by eapply capability_fact|]. by cbn.
  - eexists. split; [by eapply audience_fact|]. by cbn.
  - eexists. split; [by eapply issuer_fact|]. by cbn.
  - eexists. split; [by eapply expiration_fact|]. by cbn.
  - exists (expiration_scalar (expiration d)), e. by cbn.
Qed.


(** An explicit match at a constant time finds an explicit grant. *)
Lemma holds_explicit_grant θ delegation audience issuer subject can t m :
  holds (facts ds) θ
        (Shape.explicit delegation audience issuer subject can
                        (Const (Int t)) m) ->
  exists d a s,
    d ∈ ds /\ resolve delegation θ = Some (Ucan.link d)
    /\ resolve audience θ = Some (Str (Ucan.audience d))
    /\ resolve issuer θ = Some (Str (Ucan.issuer d))
    /\ resolve subject θ = Some (Str s)
    /\ resolve can θ = Some (Str a)
    /\ explicit_grant t d a s.
Proof using Hu.
  intros (d & k & cap & Hd & Hk & Hdl & Ha & Hi & Hs & Hc & _ & _
          & e & [= <-] & Hge)%holds_explicit.
  exists d, (Ucan.can cap), (with_ cap). do 6 (split; [done|]).
  split; [by rewrite <- unexpired_geb|].
  exists cap. split; [|done]. apply list_elem_of_lookup. eauto.
Qed.

(** The meaning of an attestation match. *)
Lemma holds_attestation θ attestation proof audience t m p :
  holds (facts ds) θ
        (Shape.attestation attestation proof (Const (Int t)) audience m) ->
  resolve proof θ = Some (Ref (UcanLink p)) ->
  exists a,
    a ∈ ds /\ resolve attestation θ = Some (Ucan.link a)
    /\ resolve audience θ = Some (Str (Ucan.audience a))
    /\ attests a p
    /\ unexpired t a = true.
Proof using Hu.
  unfold Shape.attestation. cbn [holds].
  intros [(f1 & Hf1 & Ha1 & He1 & Hv1)
            [(f2 & Hf2 & Ha2 & He2 & Hv2)
               [(f3 & Hf3 & Ha3 & He3 & Hv3)
                  [(f4 & Hf4 & Ha4 & He4 & Hv4)
                     [(f5 & Hf5 & Ha5 & He5 & Hv5)
                        [(x & e & Hx & [= <-] & Hge) _]]]]]] Hp.
  destruct (fact_audience _ _ Hf1 Ha1) as (d1 & Hd1 & E1 & V1).
  destruct (fact_capability _ _ Hf2 Ha2)
    as (d2 & k2 & cap2 & Hd2 & Hk2 & E2 & V2).
  destruct (fact_can _ _ Hf3 Ha3) as (d3 & k3 & cap3 & Hd3 & Hk3 & E3 & V3).
  destruct (fact_nb_proof _ _ Hf4 Ha4)
    as (d4 & k4 & cap4 & Hd4 & Hk4 & E4 & V4).
  destruct (fact_expiration _ _ Hf5 Ha5) as (d5 & Hd5 & E5 & V5).
  rewrite E1 in He1. rewrite E2 in He2. rewrite E3 in He3.
  rewrite E4 in He4. rewrite E5 in He5.
  rewrite V1 in Hv1. rewrite V2 in Hv2. rewrite V3 in Hv3.
  rewrite V5 in Hv5.
  cbn [resolve] in Hv2, He3, Hv3, He4, Hv5, Hx.
  assert (d1 = d2) as -> by (apply same_delegation; congruence).
  assert (d5 = d2) as -> by (apply same_delegation; congruence).
  destruct (same_capability d3 d2 k3 k2 cap3 cap2) as (-> & -> & ->);
    [done|done|done|done|congruence|].
  destruct (same_capability d4 d2 k4 k2 cap4 cap2) as (-> & _ & ->);
    [done|done|done|done|congruence|].
  exists d2. do 3 (split; [done|]). split.
  - exists cap2. split; [apply list_elem_of_lookup; eauto|].
    split; [congruence|]. congruence.
  - rewrite <- unexpired_geb. congruence.
Qed.

Lemma attestation_holds (θ : Binding) attestation proof audience t m a k
      cap p :
  a ∈ ds -> capabilities a !! k = Some cap ->
  Ucan.can cap = "ucan/attest" ->
  ("proof", Ref (UcanLink p)) ∈ nb cap ->
  unexpired t a = true ->
  resolve attestation θ = Some (Ucan.link a) ->
  resolve audience θ = Some (Str (Ucan.audience a)) ->
  resolve proof θ = Some (Ref (UcanLink p)) ->
  θ !! m = Some (Ref (CapabilityLink (cid a) k)) ->
  θ !! S m = Some (expiration_scalar (expiration a)) ->
  holds (facts ds) θ
        (Shape.attestation attestation proof (Const (Int t)) audience m).
Proof.
  intros Ha Hk Hcan Hnb Hun Hat Haud Hp Hm Hsm.
  unfold Shape.attestation. cbn [holds resolve].
  repeat split.
  - eexists. split; [by eapply audience_fact|]. by cbn.
  - eexists. split; [by eapply capability_fact|]. by cbn.
  - eexists. split; [by eapply can_fact|]. cbn. by rewrite Hcan.
  - eexists. split; [by eapply nb_proof_fact|]. by cbn.
  - eexists. split; [by eapply expiration_fact|]. by cbn.
  - exists (expiration_scalar (expiration a)), (Int t).
    by rewrite unexpired_geb.
Qed.

(** An implicit match at a constant time finds an implicit grant. *)
Lemma holds_implicit_grant θ delegation audience issuer subject can t n :
  holds (facts ds) θ
        (Shape.implicit delegation audience issuer subject can
                        (Const (Int t)) n) ->
  exists d a s,
    d ∈ ds /\ resolve delegation θ = Some (Ucan.link d)
    /\ resolve audience θ = Some (Str (Ucan.audience d))
    /\ resolve issuer θ = Some (Str (Ucan.issuer d))
    /\ resolve subject θ = Some (Str s)
    /\ resolve can θ = Some (Str a)
    /\ implicit_grant ds t d a s.
Proof using Hu.
  unfold Shape.implicit. rewrite holds_And_cons.
  intros [(d & a & s & Hd & Hdl & Ha & Hi & [= <-] & Hc & Hg)
            %holds_explicit_grant [Hor _]].
  cbn [holds] in Hor. destruct Hor as [Hby | [[Hprf [[He|[]] _]] | []]].
  - destruct Hby as (f & Hf & Hat & He & Hv).
    destruct (fact_issuer _ _ Hf Hat) as (d' & Hd' & E & V).
    rewrite E in He. rewrite V in Hv.
    assert (d' = d) as -> by (apply same_delegation; congruence).
    exists d, a, (Ucan.issuer d). do 6 (split; [done|]).
    split; [done|]. by left.
  - destruct Hprf as (f & Hf & Hat & He' & Hv).
    destruct (fact_proof _ _ Hf Hat) as (d' & p & Hd' & Hp & E & V).
    rewrite E in He'. rewrite V in Hv. cbn [resolve] in Hv.
    assert (d' = d) as -> by (apply same_delegation; congruence).
    apply holds_explicit_grant in He
      as (pd & a' & s & Hpd & Hpl & Hpa & _ & Hs & Hc' & Hpg).
    cbn [resolve] in Hpl.
    assert (a' = a) as -> by congruence.
    exists d, a, s. do 6 (split; [done|]).
    split; [done|]. right. exists pd. split; [done|].
    split; [unfold Ucan.link in Hpl; congruence|].
    split; [congruence|done].
Qed.

(** A match finds an explicit or an implicit grant. *)
Lemma holds_match θ delegation audience issuer subject can t n :
  holds (facts ds) θ
        (Shape.match_ delegation audience issuer subject can
                      (Const (Int t)) n) ->
  exists d a s,
    d ∈ ds /\ resolve delegation θ = Some (Ucan.link d)
    /\ resolve audience θ = Some (Str (Ucan.audience d))
    /\ resolve issuer θ = Some (Str (Ucan.issuer d))
    /\ resolve subject θ = Some (Str s)
    /\ resolve can θ = Some (Str a)
    /\ (explicit_grant t d a s \/ implicit_grant ds t d a s).
Proof using Hu.
  unfold Shape.match_. cbn [holds].
  intros [(d & a & s & H)%holds_explicit_grant
         |[(d & a & s & H)%holds_implicit_grant|[]]];
    exists d, a, s; intuition.
Qed.

End Matchers.

(** ** Evaluation does not throw on well-scoped clauses *)

Section Scoping.

Import DB Sem.
Context (db : list Fact).

Lemma known_weaken T (b b' : Binding) : known T b -> b ⊆ b' -> known T b'.
Proof.
  unfold known. rewrite !Forall_forall. intros H Hsub t Ht.
  destruct (H t Ht) as [s Hs]. exists s. eauto using resolve_weaken.
Qed.

Lemma known_sub T T' b : known T b -> T' ⊆ T -> known T' b.
Proof.
  unfold known. rewrite !Forall_forall. intros H Hsub t Ht. apply H, Hsub, Ht.
Qed.

Lemma known_available T t b :
  known T b -> available T t -> is_Some (resolve t b).
Proof.
  intros H [[s ->]|Ht]; [by eexists|].
  unfold known in H. rewrite Forall_forall in H. auto.
Qed.

Lemma ok_sub T c T1 T2 : ok db T c T1 -> T2 ⊆ T1 -> ok db T c T2.
Proof.
  intros H Hsub b Hb. destruct (H b Hb) as [Hsafe Hpost].
  split; [done|]. intros b' Hy. eapply known_sub; eauto.
Qed.

Lemma ok_Match T e a v : ok db T (Match e a v) (e :: v :: T).
Proof.
  intros b Hb. split; [apply safe_Match|].
  intros b' Hy. pose proof (yields_extends db _ _ _ Hy) as Hsub.
  apply yields_Match in Hy as (f & b1 & _ & _ & He & Hv).
  apply unify_Some in He as [_ He]. apply unify_Some in Hv as [Hsub1 Hv].
  repeat constructor.
  - exists (entity f). eauto using resolve_weaken.
  - eauto.
  - eapply known_weaken; eauto.
Qed.

Lemma ok_And_nil T : ok db T (And []) T.
Proof.
  intros b Hb. split; [apply safe_And_nil|].
  by intros b' ->%yields_And_nil.
Qed.

Lemma ok_And_cons T T1 T2 c cs :
  ok db T c T1 -> ok db T1 (And cs) T2 -> ok db T (And (c :: cs)) T2.
Proof.
  intros Hc Hcs b Hb. destruct (Hc b Hb) as [Hsafe Hpost]. split.
  - apply safe_And_cons; [done|]. intros b1 Hy. by apply Hcs, Hpost.
  - intros b' (b1 & Hy1 & Hy2)%yields_And_cons.
    by apply (Hcs b1 (Hpost b1 Hy1)).
Qed.

Lemma safe_And_app_inv cs cs' b :
  safe db (And (cs ++ cs')) b -> safe db (And cs) b.
Proof.
  revert b. induction cs as [|c cs IH]; intros b; [intros _; apply safe_And_nil|].
  cbn [app]. intros [H1 H2]%safe_And_cons_inv.
  apply safe_And_cons; [done|]. intros b1 Hy. by apply IH, H2.
Qed.

Lemma safe_And_app cs cs' b :
  safe db (And cs) b ->
  (forall b1, yields db (And cs) b b1 -> safe db (And cs') b1) ->
  safe db (And (cs ++ cs')) b.
Proof.
  revert b. induction cs as [|c cs IH]; intros b Hs Hrest.
  - apply Hrest. by apply yields_And_nil.
  - cbn [app]. pose proof Hs as [H1 H2]%safe_And_cons_inv.
    apply safe_And_cons; [done|]. intros b1 Hy1.
    apply IH; [by apply H2|]. intros b2 Hy2. apply Hrest.
    eapply yields_And_cons_intro; eauto.
Qed.

Lemma yields_And_app cs cs' b b' :
  yields db (And (cs ++ cs')) b b' ->
  exists b1, yields db (And cs) b b1 /\ yields db (And cs') b1 b'.
Proof.
  revert b. induction cs as [|c cs IH]; intros b.
  - intros Hy. exists b. split; [by apply yields_And_nil|done].
  - cbn [app]. intros Hy.
    assert (safe db (And (c :: cs)) b) as Hs.
    { apply (safe_And_app_inv (c :: cs) cs'). destruct Hy as (bs & ? & _).
      by exists bs. }
    apply yields_And_cons in Hy as (b1 & Hy1 & Hy2).
    destruct (IH b1 Hy2) as (b2 & Hy3 & Hy4).
    exists b2. split; [|done]. eapply yields_And_cons_intro; eauto.
Qed.

Lemma ok_And_app T T1 T2 cs cs' :
  ok db T (And cs) T1 -> ok db T1 (And cs') T2 ->
  ok db T (And (cs ++ cs')) T2.
Proof.
  intros Hcs Hcs' b Hb. destruct (Hcs b Hb) as [Hsafe Hpost]. split.
  - apply safe_And_app; [done|]. intros b1 Hy. by apply Hcs', Hpost.
  - intros b' (b1 & Hy1 & Hy2)%yields_And_app.
    by apply (Hcs' b1 (Hpost b1 Hy1)).
Qed.

Lemma ok_And_keep T cs :
  Forall (fun c => ok db T c T) cs -> ok db T (And cs) T.
Proof.
  induction 1 as [|c cs Hc _ IH]; [apply ok_And_nil|].
  by eapply ok_And_cons.
Qed.

Lemma ok_Or T T' cs :
  Forall (fun c => ok db T c T') cs -> ok db T (Or cs) T'.
Proof.
  rewrite Forall_forall. intros H b Hb. split.
  - apply safe_Or, Forall_forall. intros c Hc. by apply (H c Hc).
  - intros b' (c & Hc & Hy)%yields_Or. by apply (H c Hc b Hb).
Qed.

Lemma ok_Or1 T T' c : ok db T c T' -> ok db T (Or [c]) T'.
Proof. intros. apply ok_Or. by repeat apply Forall_cons_2. Qed.

Lemma ok_Or2 T T' c1 c2 :
  ok db T c1 T' -> ok db T c2 T' -> ok db T (Or [c1; c2]) T'.
Proof. intros. apply ok_Or. by repeat apply Forall_cons_2. Qed.

Lemma ok_constraint T c :
  (exists t u rel, available T t /\ available T u
     /\ forall b, eval db c b = constraint t u b rel) ->
  ok db T c T.
Proof.
  intros (t & u & rel & Ht & Hut & Heq) b Hb. unfold safe, yields.
  rewrite Heq. split.
  - apply constraint_safe. split; eapply known_available; eauto.
  - intros b' (bs & Hev & Hin).
    by apply (constraint_elem _ _ _ _ _ _ Hev) in Hin as [-> _].
Qed.

Lemma ok_Glob T t u :
  available T t -> available T u -> ok db T (Glob t u) T.
Proof. intros. apply ok_constraint. eauto 10. Qed.

Lemma ok_Is T t u :
  available T t -> available T u -> ok db T (Is t u) T.
Proof. intros. apply ok_constraint. eauto 10. Qed.

Lemma ok_GreaterOrEqual T t u :
  available T t -> available T u -> ok db T (GreaterOrEqual t u) T.
Proof. intros. apply ok_constraint. eauto 10. Qed.

Lemma ok_Not_Glob T t u :
  available T t -> available T u -> ok db T (Not (Glob t u)) T.
Proof.
  intros Ht Hut b Hb. split.
  - apply safe_Not. split; [|by apply (ok_Glob T t u Ht Hut b Hb)].
    cbn [vars]. apply Forall_app. split.
    + pose proof (known_available _ _ _ Hb Ht) as Hs.
      destruct t; cbn in *; [by repeat constructor|constructor].
    + pose proof (known_available _ _ _ Hb Hut) as Hs.
      destruct u; cbn in *; [by repeat constructor|constructor].
  - by intros b' (-> & _)%yields_Not.
Qed.


(** *** The clauses of query.js are well scoped *)

Lemma available_here T t : available (t :: T) t.
Proof. right. by left. Qed.

Lemma available_later T t u : available T t -> available (u :: T) t.
Proof. intros [?|?]; [by left|]. right. by right. Qed.

Lemma available_Const T s : available T (Const s).
Proof. left. eauto. Qed.

Ltac available :=
  first [ apply available_Const
        | apply available_here
        | apply available_later; available
        | assumption ].

Ltac scope :=
  repeat first
    [ apply ok_And_nil
    | apply ok_Match
    | apply ok_GreaterOrEqual; [available|available]
    | apply ok_Glob; [available|available]
    | apply ok_Is; [available|available]
    | apply ok_Not_Glob; [available|available]
    | eapply ok_And_cons ].

Ltac included := intros ?; rewrite !elem_of_cons; tauto.

Lemma ok_explicit T delegation audience issuer subject can time m :
  available T time ->
  ok db T (Shape.explicit delegation audience issuer subject can time m)
     (delegation :: audience :: issuer :: subject :: can :: T).
Proof.
  intros Ht. eapply ok_sub; [unfold Shape.explicit; scope|]. included.
Qed.

Lemma ok_attestation T attestation proof time audience m :
  available T time ->
  ok db T (Shape.attestation attestation proof time audience m) T.
Proof.
  intros Ht. eapply ok_sub; [unfold Shape.attestation; scope|]. included.
Qed.

Lemma ok_implicit T delegation audience issuer subject can time n :
  available T time ->
  ok db T (Shape.implicit delegation audience issuer subject can time n)
     (delegation :: audience :: issuer :: subject :: can :: T).
Proof.
  intros Ht. unfold Shape.implicit.
  eapply ok_And_cons; [by apply ok_explicit|].
  eapply ok_And_cons; [|apply ok_And_nil].
  apply ok_Or2.
  - eapply ok_sub; [apply ok_Match|]. included.
  - eapply ok_sub.
    + eapply ok_And_cons; [apply ok_Match|].
      eapply ok_And_cons; [|apply ok_And_nil].
      apply ok_Or1.
      apply ok_explicit. do 7 apply available_later. exact Ht.
    + included.
Qed.

Lemma ok_match T delegation audience issuer subject can time n :
  available T time ->
  ok db T (Shape.match_ delegation audience issuer subject can time n)
     (delegation :: audience :: issuer :: subject :: can :: T).
Proof.
  intros Ht. unfold Shape.match_. apply ok_Or2.
  - by apply ok_explicit.
  - by apply ok_implicit.
Qed.

(** The clause of a variable group is well scoped and binds the subject
    and the audience. *)
Lemma ok_group T g subject audience time m :
  ok db T (Shape.group g subject audience time m) (subject :: audience :: T).
Proof.
  unfold Shape.group, Shape.constrained, Shape.proof, Shape.gate.
  eapply ok_sub.
  - eapply ok_And_cons;
      [|eapply ok_And_cons;
         [|apply ok_And_nil]].
    + destruct (ProofSelector.need g) as [need|].
      * eapply ok_And_cons; [apply ok_match; available|]. scope.
      * apply ok_match. available.
    + apply ok_Or2.
      * apply ok_Not_Glob; available.
      * apply ok_attestation. available.
  - included.
Qed.

End Scoping.

(** ** The query that [query] builds *)

Section QueryShape.

Import DB Sem.

Lemma query_shape selector now n :
  let gs := Shape.groups (Shape.asked (Query.can selector)) n in
  fst (Query.query selector now n)
  = Query.mk (Selector.mk gs (Var n) (Var (S n)))
             (Shape.clauses gs (default now (Query.time selector)) n
              ++ Shape.texts selector n).
Proof.
  intros gs. unfold Query.query, bind, DB.string, variable.
  rewrite (mapM_step Query.group Shape.variables 4 group_shape).
  rewrite (mapM_step _ (fun g m => Shape.group g (Var n) (Var (S n))
                                     (default now (Query.time selector)) m)
             10 (group_clause_shape _ _ _)).
  unfold ret. cbn [fst]. unfold Shape.asked, Shape.clauses, Shape.texts.
  subst gs. unfold Shape.groups, Shape.asked.
  set (asked := if (0 <? _)%nat then _ else _).
  assert (imap (fun j a => Shape.variables a (S (S n) + 4 * j)) asked
          = imap (fun j a => Shape.variables a (n + 2 + 4 * j)) asked) as ->.
  { apply imap_ext. intros j a _. cbn beta. f_equal. lia. }
  f_equal. f_equal. apply imap_ext. intros j g _. cbn beta. f_equal.
  rewrite !length_imap. lia.
Qed.

Lemma asked_nonempty can : Shape.asked can <> [].
Proof.
  unfold Shape.asked. destruct (default [] can) as [|a l]; cbn; discriminate.
Qed.

Context (db : list Fact).

(** The query never throws: every constraint is evaluated after the
    clause that binds its variables. *)
Lemma query_ok selector now n :
  ok db [] (And (Query.where_ (fst (Query.query selector now n))))
     [Var n; Var (S n)].
Proof.
  rewrite query_shape. cbn [Query.where_].
  generalize (default now (Query.time selector)). intros time.
  set (gs := Shape.groups _ _).
  assert (gs <> []) as Hne.
  { subst gs. unfold Shape.groups.
    pose proof (asked_nonempty (Query.can selector)) as Ha.
    destruct (Shape.asked (Query.can selector)); [done|discriminate]. }
  unfold Shape.clauses. generalize (n + 2 + 4 * length gs). intros m0.
  destruct gs as [|g gs]; [done|]. cbn [imap app].
  eapply ok_And_cons; [apply ok_group|].
  eapply ok_And_app.
  - apply ok_And_keep, Forall_forall. intros c Hc.
    apply list_elem_of_lookup in Hc as (j & Hj).
    apply list_lookup_imap_Some in Hj as (g' & _ & ->).
    eapply ok_sub; [apply ok_group|]. intros ?. rewrite !elem_of_cons. tauto.
  - unfold Shape.texts, Text.match_.
    eapply ok_And_cons; [|eapply ok_And_cons; [|apply ok_And_nil]].
    + destruct (default (Text.GlobPattern "*") (Query.subject selector));
        [apply ok_Is|apply ok_Glob];
        first [apply available_Const | apply available_here].
    + destruct (Query.audience selector); [apply ok_Is|apply ok_Glob];
        first [apply available_Const
              | apply available_later, available_here ].
Qed.

Lemma query_safe selector now n :
  safe db (And (Query.where_ (fst (Query.query selector now n)))) ∅.
Proof. apply (query_ok selector now n). constructor. Qed.

End QueryShape.

(** ** Soundness of the query *)

Section QuerySound.

Import DB Sem.

Lemma holds_And_Forall db θ cs :
  holds db θ (And cs) <-> Forall (holds db θ) cs.
Proof.
  induction cs as [|c cs IH]; [by split; [constructor|]|].
  by rewrite holds_And_cons, Forall_cons, IH.
Qed.


Context (ds : list Delegation) (Hu : cid_unique ds).

(** What a satisfied group clause says about the delegation set. *)
Lemma group_sound θ g subject audience t m :
  holds (facts ds) θ (Shape.group g subject audience t m) ->
  exists d ab sb,
    d ∈ ds
    /\ resolve (ProofSelector.proof g) θ = Some (Ucan.link d)
    /\ resolve audience θ = Some (Str (Ucan.audience d))
    /\ resolve (ProofSelector.issuer g) θ = Some (Str (Ucan.issuer d))
    /\ resolve subject θ = Some (Str sb)
    /\ resolve (ProofSelector.can g) θ = Some (Str ab)
    /\ (explicit_grant t d ab sb \/ implicit_grant ds t d ab sb)
    /\ (forall need, ProofSelector.need g = Some need ->
                     glob_match ab need = true)
    /\ (mailto (Ucan.issuer d) = true ->
        exists a, a ∈ ds
                  /\ resolve (ProofSelector.attestation g) θ
                     = Some (Ucan.link a)
                  /\ Ucan.audience a = Ucan.audience d
                  /\ attests a (cid d)
                  /\ unexpired t a = true).
Proof using Hu.
  unfold Shape.group. intros [H1 [H2 _]]%holds_And_cons.
  assert (holds (facts ds) θ (Shape.proof g subject audience t m)
          /\ forall need, ProofSelector.need g = Some need ->
                related glob_scalars (Const (Str need))
                        (ProofSelector.can g) θ) as [Hm Hneed].
  { unfold Shape.constrained in H1.
    destruct (ProofSelector.need g) as [need|].
    - destruct H1 as [Hm [Hg _]]. split; [done|]. by intros ? [= <-].
    - split; [done|]. discriminate. }
  apply (holds_match ds Hu) in Hm
    as (d & ab & sb & Hd & Hp & Ha & Hi & Hs & Hc & Hg).
  exists d, ab, sb. do 7 (split; [done|]). split.
  - intros need Hn. destruct (Hneed need Hn) as (x & y & [= <-] & Hy & Hgl).
    rewrite Hc in Hy. by injection Hy as <-.
  - intros Hmail. unfold Shape.gate in H2. cbn [holds] in H2.
    destruct H2 as [[_ Hnot]|[Hat|[]]].
    + exfalso. apply Hnot. exists (Str (Ucan.issuer d)), (Str "did:mailto:*").
      split; [done|]. split; [done|]. exact Hmail.
    + destruct (holds_attestation ds Hu _ _ _ _ _ _ (cid d) Hat Hp)
        as (a & Ha' & Hal & Haa & Hatt & Hun).
      exists a. split; [done|]. split; [done|].
      split; [congruence|]. done.
Qed.


(** *** The variables of a group clause *)





(** *** The variables of the query *)



Lemma clauses_lookup_Some gs t n j g :
  gs !! j = Some g ->
  Shape.clauses gs t n !! j
  = Some (Shape.group g (Var n) (Var (S n)) t
                      (n + 2 + 4 * length gs + 10 * j)).
Proof.
  intros H. unfold Shape.clauses. apply list_lookup_imap_Some. eauto.
Qed.




(** *** The attestation variable is bound by its own clause only *)



(** *** From bindings to records *)

Lemma get_Some c d :
  Authorization.get ds c = Some d -> d ∈ ds /\ cid d = c.
Proof.
  unfold Authorization.get. intros [Hin Hc]%find_some.
  apply bool_decide_eq_true in Hc. by apply list_elem_of_In in Hin.
Qed.

Lemma get_cid d : d ∈ ds -> Authorization.get ds (cid d) = Some d.
Proof using Hu.
  intros Hd. unfold Authorization.get.
  destruct (find _ ds) as [d'|] eqn:Hf.
  - apply find_some in Hf as [Hin Hc]. apply bool_decide_eq_true in Hc.
    apply list_elem_of_In in Hin. f_equal. by apply Hu.
  - apply list_elem_of_In in Hd.
    pose proof (find_none _ _ Hf d Hd) as Hn. cbn in Hn.
    by rewrite bool_decide_eq_false in Hn.
Qed.

Lemma elem_of_ucan_cid c s :
  c ∈ Authorization.ucan_cid s <-> s = Some (Ref (UcanLink c)).
Proof.
  unfold Authorization.ucan_cid.
  destruct s as [[?|?| |[c'|? ?]]|]; try (split; [inversion 1|discriminate]).
  rewrite list_elem_of_singleton. split; congruence.
Qed.

Lemma elem_of_record_proofs row r d :
  Authorization.from ds row = Some r ->
  d ∈ Authorization.proofs r <->
  exists g, g ∈ Row.proofs row /\ Authorization.get ds (cid d) = Some d
            /\ (ProofRow.proof g = Some (Ucan.link d)
                \/ ProofRow.attestation g = Some (Ucan.link d)).
Proof.
  unfold Authorization.from.
  destruct (Row.audience row) as [[a| | |]|]; try discriminate.
  destruct (Row.subject row) as [[s| | |]|]; try discriminate.
  intros [= <-]. cbn [Authorization.proofs].
  rewrite list_elem_of_omap. setoid_rewrite elem_of_remove_dups.
  setoid_rewrite list_elem_of_In. setoid_rewrite in_flat_map.
  setoid_rewrite <- list_elem_of_In. unfold Authorization.cited.
  setoid_rewrite elem_of_app. setoid_rewrite elem_of_ucan_cid.
  split.
  - intros (c & (g & Hg & Hc) & Hget).
    destruct (get_Some _ _ Hget) as [_ <-]. eauto.
  - intros (g & Hg & Hget & Hc). exists (cid d). eauto.
Qed.

Lemma from_fields row r :
  Authorization.from ds row = Some r ->
  Row.audience row = Some (Str (Authorization.authority r))
  /\ Row.subject row = Some (Str (Authorization.subject r)).
Proof.
  unfold Authorization.from.
  destruct (Row.audience row) as [[a| | |]|]; try discriminate.
  destruct (Row.subject row) as [[s| | |]|]; try discriminate.
  by intros [= <-].
Qed.

Lemma find_inv selector now n rs r :
  Authorization.find ds selector now n = Ok rs -> r ∈ rs ->
  exists b,
    yields (facts ds)
           (And (Query.where_ (fst (Query.query selector now n)))) ∅ b
    /\ record_of ds selector now n
         (Authorization.select
            (Query.select (fst (Query.query selector now n))) b) r.
Proof.
  unfold Authorization.find, record_of.
  destruct (Authorization.rows ds selector now n) as [rows|e] eqn:Hrows;
    [|discriminate].
  cbn [bindR]. intros [= <-] (row & Hrow & Hfrom)%list_elem_of_omap.
  unfold Authorization.rows, DB.query in Hrows.
  destruct (eval _ _ _) as [bs|e] eqn:Hev; [|discriminate].
  cbn [bindR] in Hrows. injection Hrows as <-.
  apply list_elem_of_fmap in Hrow as (b & -> & Hb).
  exists b. split; [by exists bs|]. eexists.
  split; [reflexivity|]. split; [|done]. apply list_elem_of_fmap. eauto.
Qed.




End QuerySound.

(** * The stores, the query and the matchers *)

(** ** The delegation store and the account store *)

Section Stores.

Import Storage.

Context (delegationsToBytes : list Delegation -> bytes)
        (bytesToDelegations : bytes -> list Delegation)
        (delegationToString : Delegation -> string).

(** Whatever the stored bytes decode to, if it is not exactly one
    delegation the read fails with [new Error(...)], whose name is
    [Error]. *)
Lemma rowToDelegation_count_error row s carBytes :
  dags s !! carFileKeyer row = Some carBytes ->
  length (bytesToDelegations carBytes) <> 1%nat ->
  rowToDelegation bytesToDelegations row s
  = Throw (new_Error ("expected 1 delegation in CAR, but got "
                      +:+ decimal (length (bytesToDelegations carBytes)))).
Proof.
  intros Hget Hlen. unfold rowToDelegation. rewrite Hget.
  destruct (bytesToDelegations carBytes) as [|d [|d' l]]; [done| |done].
  by destruct Hlen.
Qed.

(** A read that succeeds returns the only delegation of the archive. *)
Lemma rowToDelegation_Ok row s d :
  rowToDelegation bytesToDelegations row s = Ok d ->
  exists carBytes, dags s !! carFileKeyer row = Some carBytes
                   /\ bytesToDelegations carBytes = [d].
Proof.
  unfold rowToDelegation.
  destruct (dags s !! carFileKeyer row) as [carBytes|]; [|discriminate].
  destruct (bytesToDelegations carBytes) as [|d0 [|d1 l]] eqn:Hb;
    try discriminate.
  intros [= <-]. eauto.
Qed.

(** C8: when the database cannot stream, the async iterator of the
    delegation store throws an error named [NotImplementedError] before it
    yields anything; it does not fall back to a scan of the table. *)
Theorem asyncIterator_not_implemented s :
  canStream (db s) = false ->
  exists e, asyncIterator bytesToDelegations s = Raise e
            /\ name e = "NotImplementedError"
            /\ yielded (asyncIterator bytesToDelegations s) = [].
Proof.
  intros Hs. unfold asyncIterator. rewrite Hs. cbn. eauto.
Qed.

(** C9: [putMany] of no delegation returns without error and leaves the
    bucket, the table and the record of performed writes as they were. *)
Theorem putMany_empty s :
  putMany delegationsToBytes [] s = (Ok tt, s)
  /\ writes (snd (putMany delegationsToBytes [] s)) = writes s
  /\ dags (snd (putMany delegationsToBytes [] s)) = dags s
  /\ db (snd (putMany delegationsToBytes [] s)) = db s.
Proof. by cbn. Qed.

(** C10: [saveDelegation] appends: afterwards [getDelegations] returns the
    sequence stored before (empty when the key was absent) followed by the
    encoding of the delegation, so nothing saved earlier is dropped. *)
Theorem saveDelegation_appends email d (kv : gmap string (list string)) :
  Accounts.getDelegations email
    (Accounts.saveDelegation delegationToString email d kv)
  = Some (default [] (kv !! email) ++ [delegationToString d])
  /\ forall old x,
       Accounts.getDelegations email kv = Some old -> x ∈ old ->
       exists new,
         Accounts.getDelegations email
           (Accounts.saveDelegation delegationToString email d kv)
         = Some new /\ x ∈ new.
Proof.
  unfold Accounts.getDelegations, Accounts.saveDelegation.
  destruct (kv !! email) as [accs|] eqn:Hk; rewrite lookup_insert_eq.
  - split; [done|]. intros old x [= <-] Hx. eexists. split; [done|].
    apply elem_of_app. by left.
  - split; [done|]. discriminate.
Qed.

End Stores.

Lemma asyncIterator_not_implemented_witness :
  exists e, Storage.asyncIterator (fun _ => []) (Fixture.stale_store false) = Raise e
            /\ name e = "NotImplementedError"
            /\ yielded (Storage.asyncIterator (fun _ => []) (Fixture.stale_store false))
               = [].
Proof. apply (asyncIterator_not_implemented (fun _ => [])). reflexivity. Defined.

(** C7: on an archive that decodes to no delegation, [#rowToDelegation]
    throws a plain [Error], not an [UnexpectedDelegation]; iteration stops
    there without yielding. *)
Theorem rowToDelegation_plain_error :
  Storage.rowToDelegation (fun _ => []) "bafy" (Fixture.stale_store true)
  = Throw (mkError "Error" "expected 1 delegation in CAR, but got 0")
  /\ Storage.find (fun _ => []) "did:key:zAlice" (Fixture.stale_store true)
     = Raise (mkError "Error" "expected 1 delegation in CAR, but got 0")
  /\ Storage.asyncIterator (fun _ => []) (Fixture.stale_store true)
     = Raise (mkError "Error" "expected 1 delegation in CAR, but got 0")
  /\ name (mkError "Error" "expected 1 delegation in CAR, but got 0")
     <> name (Storage.UnexpectedDelegation
                "expected 1 delegation in CAR, but got 0").
Proof. repeat split; [vm_compute; reflexivity..|discriminate]. Qed.

(** ** Soundness of [query] *)

Lemma cid_unique_NoDup ds : NoDup (map cid ds) -> cid_unique ds.
Proof.
  intros Hnd d1 d2 H1 H2 Hc.
  apply list_elem_of_lookup in H1 as (i & Hi).
  apply list_elem_of_lookup in H2 as (j & Hj).
  assert (i = j) as ->; [|congruence].
  eapply NoDup_lookup; [exact Hnd| |];
    rewrite list_lookup_fmap; [by rewrite Hi|by rewrite Hj, Hc].
Qed.

Section Cited.

Import DB Sem.

Context (ds : list Delegation) (Hu : cid_unique ds).


End Cited.




(** ** Matching one delegation *)

Section Matching.

Import DB Sem.

Lemma matches_intro db θ c T' :
  holds db θ c -> ok db [] c T' -> matches db c.
Proof.
  intros Hh Hok. destruct (Hok ∅) as [Hsafe _]; [constructor|].
  destruct (eval_complete db c ∅ θ Hh (map_empty_subseteq θ) Hsafe)
    as (b & Hy & _).
  by exists b.
Qed.

Lemma matches_holds db c : matches db c -> exists b, holds db b c.
Proof. intros [b Hy]. exists b. by eapply eval_sound. Qed.


Context (ds : list Delegation) (Hu : cid_unique ds).


End Matching.

(** ** The expiration boundary *)



(** ** The implicit matcher *)

Section Implicit.

Import DB Sem.

Context (ds : list Delegation) (Hu : cid_unique ds).

Ltac lookups :=
  cbn [resolve];
  repeat first [ rewrite lookup_insert_eq
               | rewrite lookup_insert_ne by lia ];
  try reflexivity.

Lemma implicit_accepts d X I S A t n :
  d ∈ ds ->
  matches (facts ds)
          (fst (Query.implicit (Const (Ucan.link d))
                  (Options.mk (Some (Const (Str X))) (Some (Const (Str I)))
                              (Some (Const (Str S))) (Some (Const (Str A)))
                              (Some (Const (Int t)))) n))
  <-> audience d = X /\ issuer d = I /\ implicit_grant ds t d A S.
Proof using Hu.
  intros Hd. rewrite implicit_shape. cbn [fst]. split.
  - intros (b & Hh)%matches_holds.
    apply (holds_implicit_grant ds Hu) in Hh
      as (d' & a & s & Hd' & [= Hl] & [= ->] & [= ->] & [= ->] & [= ->] & Hg).
    by assert (d = d') as -> by (by apply Hu).
  - intros (<- & <- & [Hun (cap & [k Hk]%list_elem_of_lookup & <- & Hw)] & Hor).
    destruct Hor as [<-|(p & Hp & Hpd & Hpa
                          & Hpun & (cap' & [k' Hk']%list_elem_of_lookup
                                    & Hcan & <-))].
    + set (θ := <[n + 1 := Ref (CapabilityLink (cid d) k)]>
                (<[S (n + 1) := expiration_scalar (expiration d)]>
                 (∅ : Binding))).
      eapply (matches_intro _ θ); [|apply ok_implicit, available_Const].
      unfold Shape.implicit. apply holds_And_cons. split.
      * apply (explicit_holds ds θ _ _ _ _ _ _ _ d k cap (Int t));
          try done; subst θ; lookups.
        -- by rewrite Hw.
        -- by rewrite unexpired_geb.
      * split; [|done]. left. eexists. split; [by apply issuer_fact|]. by cbn.
    + set (θ := <[n := Ucan.link p]>
                (<[n + 1 := Ref (CapabilityLink (cid d) k)]>
                 (<[S (n + 1) := expiration_scalar (expiration d)]>
                  (<[n + 3 := Str (issuer p)]>
                   (<[n + 4 := Ref (CapabilityLink (cid p) k')]>
                    (<[S (n + 4) := expiration_scalar (expiration p)]>
                     (∅ : Binding))))))).
      eapply (matches_intro _ θ); [|apply ok_implicit, available_Const].
      unfold Shape.implicit. apply holds_And_cons. split.
      * apply (explicit_holds ds θ _ _ _ _ _ _ _ d k cap (Int t));
          try done; subst θ; lookups.
        -- by rewrite Hw.
        -- by rewrite unexpired_geb.
      * split; [|done]. right. left. split.
        -- eexists. split; [by apply (proof_fact ds d Hd (cid p))|].
           cbn. split; [done|]. split; [done|]. subst θ. lookups.
        -- split; [|done]. left.
           apply (explicit_holds ds θ _ _ _ _ _ _ _ p k' cap' (Int t));
             try done; subst θ; lookups.
           ++ by rewrite Hpa.
           ++ by rewrite Hcan.
           ++ by rewrite unexpired_geb.
Qed.

End Implicit.



(** ** The groups of a query *)

Section Groups.

Import DB.




End Groups.




(** ** Completeness of the query on direct grants *)

Section Completeness.

Import DB Sem.

Context (ds : list Delegation) (Hu : cid_unique ds).

Ltac cover_lookup :=
  unfold cover;
  try match goal with
      | att : option (Delegation * nat) |- _ => destruct att as [[? ?]|]
      end;
  cbv zeta;
  repeat first [ rewrite lookup_insert_eq
               | rewrite lookup_insert_ne by lia ];
  try reflexivity.

Lemma cover_covers x m d k cap att θ :
  x + 4 <= m -> covers (cover x m d k cap att θ) x m d k cap att.
Proof.
  intros. unfold covers. destruct att as [[a j]|]; repeat split; cover_lookup.
Qed.

Lemma cover_other x m d k cap att θ y :
  ~ (x <= y < x + 4) -> y <> m -> y <> S m -> y <> m + 8 -> y <> S (m + 8) ->
  cover x m d k cap att θ !! y = θ !! y.
Proof. intros. cover_lookup. Qed.

(** A cover is kept by a cover of other variables. *)
Lemma covers_cover θ x m d k cap att x' m' d' k' cap' att' :
  covers θ x m d k cap att ->
  x + 4 <= x' -> x' + 4 <= m -> m + 10 <= m' ->
  covers (cover x' m' d' k' cap' att' θ) x m d k cap att.
Proof.
  intros (H1 & H2 & H3 & H4 & H5 & H6) ? ? ?. unfold covers.
  rewrite !cover_other by lia. do 5 (split; [done|]).
  by destruct att as [[a j]|].
Qed.

(** A group clause holds under an assignment that covers a direct grant
    that the attestation gate lets through. *)
Lemma group_holds (θ : Binding) need x m n t d k cap att :
  d ∈ ds -> capabilities d !! k = Some cap -> unexpired t d = true ->
  admitted ds t d att ->
  (forall nd, need = Some nd -> glob_match (can cap) nd = true) ->
  θ !! n = Some (Str (with_ cap)) ->
  θ !! S n = Some (Str (audience d)) ->
  covers θ x m d k cap att ->
  holds (facts ds) θ
        (Shape.group (Shape.variables need x) (Var n) (Var (S n)) t m).
Proof.
  intros Hd Hk Hun Hadm Hneed Hs Ha (H1 & H2 & H3 & H4 & H5 & H6).
  unfold Shape.group. apply holds_And_cons. split; [|split; [|done]].
  - assert (holds (facts ds) θ
              (Shape.proof (Shape.variables need x) (Var n) (Var (S n)) t m))
      as Hproof.
    { unfold Shape.proof, Shape.match_. left.
      cbn [Shape.variables ProofSelector.proof ProofSelector.issuer
             ProofSelector.can].
      apply (explicit_holds ds θ _ _ _ _ _ _ _ d k cap (Int t));
        try done. by rewrite unexpired_geb. }
    unfold Shape.constrained. cbn [Shape.variables ProofSelector.need].
    destruct need as [nd|]; [|done].
    destruct (truthy nd) eqn:Htr; [|done].
    split; [done|]. split; [|done].
    exists (Str nd), (Str (can cap)). split; [done|]. split; [done|].
    cbn. by apply Hneed.
  - unfold Shape.gate.
    cbn [Shape.variables ProofSelector.proof ProofSelector.issuer
           ProofSelector.can ProofSelector.attestation].
    destruct att as [[a j]|].
    + right. left. destruct Hadm as (Ha' & Haud & Huna & capa & Hj & Hcan & Hnb).
      destruct H6 as (H6 & H7 & H8).
      apply (attestation_holds ds θ _ _ _ _ _ a j capa (cid d)); try done.
      cbn [resolve]. congruence.
    + left. split.
      * cbn [vars term_vars app]. repeat constructor. eauto.
      * intros (y & p & Hy & [= <-] & Hglob). cbn [resolve] in Hy.
        rewrite H1 in Hy. injection Hy as <-.
        change (mailto (issuer d) = true) in Hglob.
        unfold admitted in Hadm. congruence.
Qed.

(** The gate lets a grant through with some attestation, or with none. *)
Lemma admissible_admitted t d :
  admissible ds t (audience d) d -> exists att, admitted ds t d att.
Proof.
  intros [Hm|(a & Ha & (cap & [j Hj]%list_elem_of_lookup & Hcan & Hnb)
              & Haud & Hun)].
  - by exists None.
  - exists (Some (a, j)). cbn. eauto 10.
Qed.

(** An assignment that satisfies [where] is found: the query returns a
    record made of a binding that the assignment extends. *)
Lemma find_complete selector now n (θ : Binding) :
  holds (facts ds) θ (And (Query.where_ (fst (Query.query selector now n)))) ->
  exists rs r b,
    Authorization.find ds selector now n = Ok rs /\ r ∈ rs
    /\ b ⊆ θ
    /\ θ !! S n = Some (Str (Authorization.authority r))
    /\ θ !! n = Some (Str (Authorization.subject r))
    /\ (forall g d,
          g ∈ Selector.proofs (Query.select (fst (Query.query selector now n))) ->
          d ∈ ds -> resolve (ProofSelector.proof g) θ = Some (Ucan.link d) ->
          d ∈ Authorization.proofs r)
    /\ (forall g,
          g ∈ Selector.proofs (Query.select (fst (Query.query selector now n))) ->
          is_Some (resolve (ProofSelector.can g) b))
    /\ Authorization.can r
       = remove_dups
           (omap Authorization.ability
              (map (Authorization.select_proof b)
                 (Selector.proofs
                    (Query.select (fst (Query.query selector now n)))))).
Proof using Hu.
  intros Hθ.
  destruct (eval_complete _ _ ∅ θ Hθ (map_empty_subseteq θ)
              (query_safe (facts ds) selector now n)) as (b & Hy & Hsub).
  pose proof (eval_sound _ _ _ _ Hy) as Hb.
  pose proof Hy as (bs & Hev & Hin).
  rewrite query_shape in Hb. cbn [Query.where_] in Hb.
  apply holds_And_Forall, Forall_app in Hb as [Hb _].
  rewrite Forall_forall in Hb.
  set (q := fst (Query.query selector now n)) in *.
  set (gs := Shape.groups (Shape.asked (Query.can selector)) n) in *.
  assert (Selector.proofs (Query.select q) = gs) as Hgs
    by (subst q; by rewrite query_shape).
  assert (Query.select q = Selector.mk gs (Var n) (Var (S n))) as Hsel
    by (subst q; by rewrite query_shape).
  (* every group binds its proof, the audience and the subject *)
  assert (forall g, g ∈ gs ->
            exists d (s : DID),
              d ∈ ds /\ resolve (ProofSelector.proof g) b = Some (Ucan.link d)
              /\ is_Some (resolve (ProofSelector.can g) b)
              /\ b !! S n = Some (Str (audience d))
              /\ b !! n = Some (Str s)) as Hgroups.
  { intros g (j & Hg)%list_elem_of_lookup.
    pose proof (clauses_lookup_Some gs (default now (Query.time selector))
                  n j g Hg) as Hc.
    apply list_elem_of_lookup_2, Hb, (group_sound ds Hu) in Hc
      as (d & a & s & Hd & Hp & Ha & _ & Hs & Hc & _).
    eauto 10. }
  assert (exists g0, g0 ∈ gs) as [g0 Hg0].
  { pose proof (asked_nonempty (Query.can selector)) as Hne.
    subst gs. unfold Shape.groups.
    destruct (Shape.asked (Query.can selector)); [done|].
    eexists. cbn [imap]. left. }
  destruct (Hgroups g0 Hg0) as (d0 & s0 & _ & _ & _ & Ha0 & Hs0).
  set (row := Authorization.select (Query.select q) b).
  assert (Row.audience row = Some (Str (audience d0))
          /\ Row.subject row = Some (Str s0)) as [Hra Hrs].
  { subst row. rewrite Hsel. by cbn. }
  destruct (Authorization.from ds row) as [r|] eqn:Hfrom;
    [|unfold Authorization.from in Hfrom; by rewrite Hra, Hrs in Hfrom].
  exists (omap (Authorization.from ds)
               (map (Authorization.select (Query.select q)) bs)), r, b.
  split.
  { unfold Authorization.find, Authorization.rows, DB.query. fold q.
    by rewrite Hev. }
  split.
  { apply list_elem_of_omap. exists row. split; [|done].
    by apply list_elem_of_fmap_2. }
  split; [done|].
  pose proof (from_fields ds row r Hfrom) as [Hauth Hsubj].
  rewrite Hra in Hauth. rewrite Hrs in Hsubj.
  injection Hauth as Hauth. injection Hsubj as Hsubj.
  split; [rewrite <- Hauth; by eapply lookup_weaken|].
  split; [rewrite <- Hsubj; by eapply lookup_weaken|].
  split.
  - intros g d Hg Hd Hp. rewrite Hgs in Hg.
    destruct (Hgroups g Hg) as (d' & _ & Hd' & Hp' & _).
    pose proof (resolve_weaken _ _ _ _ Hp' Hsub) as Hp''.
    assert (d' = d) as -> by (apply (same_delegation ds Hu); congruence).
    apply (elem_of_record_proofs ds row r d Hfrom).
    exists (Authorization.select_proof b g). split.
    + subst row. rewrite Hsel. cbn. by apply list_elem_of_fmap_2.
    + split; [by apply get_cid|]. by left.
  - split.
    + intros g Hg. rewrite Hgs in Hg.
      by destruct (Hgroups g Hg) as (_ & _ & _ & _ & Hc & _).
    + unfold Authorization.from in Hfrom. rewrite Hra, Hrs in Hfrom.
      injection Hfrom as <-. subst row. by rewrite Hsel.
Qed.

(** The ability that a record lists for a group that the assignment
    covers. *)
Lemma covered_ability (θ b : Binding) a x :
  b ⊆ θ -> θ !! (x + 1) = Some (Str a) ->
  is_Some (resolve (ProofSelector.can (Shape.variables (Some a) x)) b) ->
  Authorization.ability
    (Authorization.select_proof b (Shape.variables (Some a) x)) = Some a.
Proof.
  intros Hsub Hθ [v Hv]. unfold Authorization.ability.
  cbn [Authorization.select_proof ProofRow.need ProofRow.can Shape.variables
         ProofSelector.need ProofSelector.can] in *.
  destruct (truthy a); [done|]. rewrite Hv.
  cbn [resolve] in Hv. pose proof (lookup_weaken _ _ _ _ Hv Hsub) as Hv'.
  rewrite Hθ in Hv'. by injection Hv' as <-.
Qed.

Lemma ask_one x a now n :
  fst (Query.query (ask x [a]) now n)
  = Query.mk
      (Selector.mk [Shape.variables (Some a) (n + 2)] (Var n) (Var (S n)))
      ([Shape.group (Shape.variables (Some a) (n + 2)) (Var n) (Var (S n))
                    now (n + 6)]
       ++ Shape.texts (ask x [a]) n).
Proof.
  rewrite query_shape.
  change (Shape.asked (Query.can (ask x [a]))) with [Some a].
  change (Shape.groups [Some a] n)
    with [Shape.variables (Some a) (n + 2 + 4 * 0)].
  change (Shape.clauses [Shape.variables (Some a) (n + 2 + 4 * 0)]
                        (default now (Query.time (ask x [a]))) n)
    with [Shape.group (Shape.variables (Some a) (n + 2 + 4 * 0)) (Var n)
                      (Var (S n)) now (n + 2 + 4 * 1 + 10 * 0)].
  replace (n + 2 + 4 * 0) with (n + 2) by lia.
  replace (n + 2 + 4 * 1 + 10 * 0) with (n + 6) by lia.
  reflexivity.
Qed.

Lemma ask_two x a1 a2 now n :
  fst (Query.query (ask x [a1; a2]) now n)
  = Query.mk
      (Selector.mk [Shape.variables (Some a1) (n + 2);
                    Shape.variables (Some a2) (n + 6)] (Var n) (Var (S n)))
      ([Shape.group (Shape.variables (Some a1) (n + 2)) (Var n) (Var (S n))
                    now (n + 10);
        Shape.group (Shape.variables (Some a2) (n + 6)) (Var n) (Var (S n))
                    now (n + 20)]
       ++ Shape.texts (ask x [a1; a2]) n).
Proof.
  rewrite query_shape.
  change (Shape.asked (Query.can (ask x [a1; a2]))) with [Some a1; Some a2].
  change (Shape.groups [Some a1; Some a2] n)
    with [Shape.variables (Some a1) (n + 2 + 4 * 0);
          Shape.variables (Some a2) (n + 2 + 4 * 1)].
  change (Shape.clauses [Shape.variables (Some a1) (n + 2 + 4 * 0);
                         Shape.variables (Some a2) (n + 2 + 4 * 1)]
                        (default now (Query.time (ask x [a1; a2]))) n)
    with [Shape.group (Shape.variables (Some a1) (n + 2 + 4 * 0)) (Var n)
                      (Var (S n)) now (n + 2 + 4 * 2 + 10 * 0);
          Shape.group (Shape.variables (Some a2) (n + 2 + 4 * 1)) (Var n)
                      (Var (S n)) now (n + 2 + 4 * 2 + 10 * 1)].
  replace (n + 2 + 4 * 0) with (n + 2) by lia.
  replace (n + 2 + 4 * 1) with (n + 6) by lia.
  replace (n + 2 + 4 * 2 + 10 * 0) with (n + 10) by lia.
  replace (n + 2 + 4 * 2 + 10 * 1) with (n + 20) by lia.
  reflexivity.
Qed.

Lemma texts_hold (θ : Binding) x abilities n s :
  θ !! n = Some (Str s) -> θ !! S n = Some (Str x) ->
  holds (facts ds) θ (And (Shape.texts (ask x abilities) n)).
Proof.
  intros Hs Hx. unfold Shape.texts, ask. cbn. split; [|split; [|done]].
  - exists (Str s), (Str "*"). split; [done|]. split; [done|].
    apply glob_star_any.
  - exists (Str x), (Str x). split; [done|]. split; [done|].
    by apply bool_decide_eq_true.
Qed.

(** A direct grant that the gate lets through is found by the query for
    its ability. *)
Lemma direct_grant_complete d a x s now n :
  d ∈ ds -> direct_grant now d a s x -> admissible ds now x d ->
  exists rs r,
    Authorization.find ds (ask x [a]) now n = Ok rs /\ r ∈ rs
    /\ Authorization.authority r = x /\ Authorization.subject r = s
    /\ a ∈ Authorization.can r
    /\ d ∈ Authorization.proofs r.
Proof using Hu.
  intros Hd [<- [Hun (cap & [k Hk]%list_elem_of_lookup & <- & <-)]] Hadm.
  apply admissible_admitted in Hadm as [att Hatt].
  set (θ := cover (n + 2) (n + 6) d k cap att
              (<[n := Str (with_ cap)]> (<[S n := Str (audience d)]> ∅))).
  assert (θ !! n = Some (Str (with_ cap))) as Hn.
  { subst θ. rewrite cover_other by lia. by rewrite lookup_insert_eq. }
  assert (θ !! S n = Some (Str (audience d))) as HSn.
  { subst θ. rewrite cover_other by lia.
    rewrite lookup_insert_ne by lia. by rewrite lookup_insert_eq. }
  destruct (find_complete (ask (audience d) [can cap]) now n θ)
    as (rs & r & b & Hfind & Hr & Hsub & Hauth & Hsubj & Hproofs & Hcans
        & Hcan).
  { rewrite ask_one. cbn [Query.where_].
    apply holds_And_Forall, Forall_app. split.
    - apply Forall_cons. split; [|constructor].
      eapply (group_holds θ _ _ _ _ _ d k cap att); try done.
      + intros nd [= <-]. apply glob_match_refl.
      + subst θ. apply cover_covers. lia.
    - apply holds_And_Forall. by eapply texts_hold. }
  exists rs, r. split; [done|]. split; [done|].
  split; [congruence|]. split; [congruence|]. split.
  - rewrite Hcan. rewrite ask_one in Hcans |- *.
    cbn [Query.select Selector.proofs map] in Hcans |- *.
    apply elem_of_remove_dups, list_elem_of_omap.
    eexists. split; [left|].
    apply (covered_ability θ); [done| |apply Hcans; left].
    subst θ. by apply cover_covers; lia.
  - apply (Hproofs (Shape.variables (Some (can cap)) (n + 2)) d);
      [rewrite ask_one; left|done|].
    cbn [Shape.variables ProofSelector.proof resolve].
    subst θ.
    destruct (cover_covers (n + 2) (n + 6) d k cap att
                (<[n := Str (with_ cap)]> (<[S n := Str (audience d)]> ∅)))
      as (_ & _ & H3 & _); [lia|]. done.
Qed.

(** Two direct grants that the gate lets through are found together by
    the query for their two abilities. *)
Lemma two_grants_complete d1 d2 a1 a2 x s now n :
  d1 ∈ ds -> d2 ∈ ds ->
  direct_grant now d1 a1 s x -> direct_grant now d2 a2 s x ->
  admissible ds now x d1 -> admissible ds now x d2 ->
  exists rs r,
    Authorization.find ds (ask x [a1; a2]) now n = Ok rs /\ r ∈ rs
    /\ Authorization.authority r = x /\ Authorization.subject r = s
    /\ a1 ∈ Authorization.can r /\ a2 ∈ Authorization.can r
    /\ d1 ∈ Authorization.proofs r /\ d2 ∈ Authorization.proofs r.
Proof using Hu.
  intros Hd1 Hd2
    [<- [Hun1 (cap1 & [k1 Hk1]%list_elem_of_lookup & <- & <-)]]
    [Haud [Hun2 (cap2 & [k2 Hk2]%list_elem_of_lookup & <- & Hw)]]
    Hadm1 Hadm2.
  apply admissible_admitted in Hadm1 as [att1 Hatt1].
  rewrite <- Haud in Hadm2.
  apply admissible_admitted in Hadm2 as [att2 Hatt2].
  set (base := <[n := Str (with_ cap1)]>
               (<[S n := Str (audience d1)]> (∅ : Binding))).
  set (θ1 := cover (n + 2) (n + 10) d1 k1 cap1 att1 base).
  set (θ := cover (n + 6) (n + 20) d2 k2 cap2 att2 θ1).
  assert (covers θ (n + 2) (n + 10) d1 k1 cap1 att1) as Hc1.
  { subst θ θ1. apply covers_cover; [apply cover_covers|..]; lia. }
  assert (covers θ (n + 6) (n + 20) d2 k2 cap2 att2) as Hc2.
  { subst θ. apply cover_covers. lia. }
  assert (θ !! n = Some (Str (with_ cap1))) as Hn.
  { subst θ θ1 base. rewrite !cover_other by lia. by rewrite lookup_insert_eq. }
  assert (θ !! S n = Some (Str (audience d1))) as HSn.
  { subst θ θ1 base. rewrite !cover_other by lia.
    rewrite lookup_insert_ne by lia. by rewrite lookup_insert_eq. }
  destruct (find_complete (ask (audience d1) [can cap1; can cap2]) now n θ)
    as (rs & r & b & Hfind & Hr & Hsub & Hauth & Hsubj & Hproofs & Hcans
        & Hcan).
  { rewrite ask_two. cbn [Query.where_].
    apply holds_And_Forall, Forall_app. split.
    - apply Forall_cons. split; [|apply Forall_cons; split; [|constructor]].
      + eapply (group_holds θ _ _ _ _ _ d1 k1 cap1 att1); try done.
        intros nd [= <-]. apply glob_match_refl.
      + eapply (group_holds θ _ _ _ _ _ d2 k2 cap2 att2); try done.
        * intros nd [= <-]. apply glob_match_refl.
        * by rewrite Hw.
        * by rewrite Haud.
    - apply holds_And_Forall. by eapply texts_hold. }
  exists rs, r. split; [done|]. split; [done|].
  split; [congruence|]. split; [congruence|].
  rewrite ask_two in Hcans, Hproofs, Hcan.
  cbn [Query.select Selector.proofs map] in Hcans, Hproofs, Hcan.
  split; [|split; [|split]].
  - rewrite Hcan. apply elem_of_remove_dups, list_elem_of_omap.
    eexists. split; [left|].
    apply (covered_ability θ); [done|apply Hc1|apply Hcans; left].
  - rewrite Hcan. apply elem_of_remove_dups, list_elem_of_omap.
    eexists. split; [right; left|].
    apply (covered_ability θ); [done|apply Hc2|apply Hcans; right; left].
  - apply (Hproofs (Shape.variables (Some (can cap1)) (n + 2)) d1);
      [left|done|apply Hc1].
  - apply (Hproofs (Shape.variables (Some (can cap2)) (n + 6)) d2);
      [right; left|done|apply Hc2].
Qed.

Lemma named_ability (b : Binding) a x :
  truthy a = true ->
  Authorization.ability
    (Authorization.select_proof b (Shape.variables (Some a) x)) = Some a.
Proof.
  intros Ha. unfold Authorization.ability.
  cbn [Authorization.select_proof ProofRow.need Shape.variables
         ProofSelector.need].
  by rewrite Ha.
Qed.

(** Every record of a query for two abilities lists both. *)
Lemma two_abilities_listed x a1 a2 now n rs r :
  a1 <> a2 -> truthy a1 = true -> truthy a2 = true ->
  Authorization.find ds (ask x [a1; a2]) now n = Ok rs -> r ∈ rs ->
  Authorization.can r = [a1; a2].
Proof.
  intros Hne H1 H2 Hfind Hr.
  destruct (find_inv ds _ _ _ _ _ Hfind Hr) as (b & _ & _ & _ & _ & Hfrom).
  rewrite ask_two in Hfrom. unfold Authorization.from in Hfrom.
  destruct (Row.audience _) as [[?| | |]|]; try discriminate.
  destruct (Row.subject _) as [[?| | |]|]; try discriminate.
  injection Hfrom as <-.
  cbn [Authorization.can Authorization.select Row.proofs Query.select
         Selector.proofs map].
  change (omap Authorization.ability
            [Authorization.select_proof b (Shape.variables (Some a1) (n + 2));
             Authorization.select_proof b (Shape.variables (Some a2) (n + 6))])
    with (match Authorization.ability
                  (Authorization.select_proof b
                     (Shape.variables (Some a1) (n + 2))) with
          | Some y =>
              y :: match Authorization.ability
                           (Authorization.select_proof b
                              (Shape.variables (Some a2) (n + 6))) with
                   | Some y' => [y']
                   | None => []
                   end
          | None =>
              match Authorization.ability
                      (Authorization.select_proof b
                         (Shape.variables (Some a2) (n + 6))) with
              | Some y' => [y']
              | None => []
              end
          end).
  rewrite !named_ability by done. cbn [remove_dups].
  repeat match goal with
         | |- context [decide_rel ?R ?y ?l] =>
             destruct (decide_rel R y l) as [Hin|_]
         end;
    first [ reflexivity
          | by apply list_elem_of_singleton in Hin
          | inversion Hin ].
Qed.

End Completeness.

(** ** Completeness on direct grants *)

(** C3, as stated, fails: a direct grant whose issuer is a mailto principal
    and that has no attestation is not returned. *)
Lemma direct_grant_unattested :
  ~ (forall ds d a x s now n,
       cid_unique ds -> d ∈ ds -> direct_grant now d a s x ->
       exists rs r,
         Authorization.find ds (ask x [a]) now n = Ok rs /\ r ∈ rs
         /\ Authorization.subject r = s /\ d ∈ Authorization.proofs r).
Proof.
  intros H.
  destruct (H [Fixture.plan_grant] Fixture.plan_grant "plan/get"
              Fixture.alice Fixture.account 50%Z 0)
    as (rs & r & Hfind & Hr & _).
  - apply cid_unique_NoDup, (bool_decide_eq_true_1 (NoDup _)).
    vm_compute. reflexivity.
  - left.
  - split; [reflexivity|]. split; [reflexivity|].
    eexists. split; [left|]. split; reflexivity.
  - vm_compute in Hfind. injection Hfind as <-. inversion Hr.
Qed.

(** C3, amended: a direct grant of ability [a] to [x] on subject [s],
    unexpired at the query time, whose issuer is not a mailto principal or
    which has in the set an attestation for [x] unexpired at the query time,
    is returned by the query [{ audience: x, can: { [a]: [] } }] in a record
    whose subject is [s] and whose proofs include the grant. *)
Theorem direct_grant_found ds d a x s now n :
  cid_unique ds -> d ∈ ds ->
  direct_grant now d a s x ->
  admissible ds now x d ->
  exists rs r,
    Authorization.find ds (ask x [a]) now n = Ok rs /\ r ∈ rs
    /\ Authorization.authority r = x /\ Authorization.subject r = s
    /\ a ∈ Authorization.can r
    /\ d ∈ Authorization.proofs r.
Proof. intros Hu. by apply direct_grant_complete. Qed.

Lemma direct_grant_found_witness :
  cid_unique [Fixture.grant] /\ Fixture.grant ∈ [Fixture.grant]
  /\ direct_grant 50 Fixture.grant "store/*" Fixture.space Fixture.alice
  /\ admissible [Fixture.grant] 50 Fixture.alice Fixture.grant
  /\ exists rs r,
       Authorization.find [Fixture.grant] (ask Fixture.alice ["store/*"]) 50 0
       = Ok rs /\ r ∈ rs
       /\ Authorization.authority r = Fixture.alice
       /\ Authorization.subject r = Fixture.space
       /\ "store/*" ∈ Authorization.can r
       /\ Fixture.grant ∈ Authorization.proofs r.
Proof.
  assert (cid_unique [Fixture.grant]) as Hu.
  { apply cid_unique_NoDup, (bool_decide_eq_true_1 (NoDup _)).
    vm_compute. reflexivity. }
  assert (Fixture.grant ∈ [Fixture.grant]) as Hin by left.
  assert (direct_grant 50 Fixture.grant "store/*" Fixture.space Fixture.alice)
    as Hgrant.
  { split; [reflexivity|]. split; [reflexivity|].
    eexists. split; [left|]. split; reflexivity. }
  assert (admissible [Fixture.grant] 50 Fixture.alice Fixture.grant) as Hadm.
  { left. vm_compute. reflexivity. }
  split; [exact Hu|]. split; [exact Hin|]. split; [exact Hgrant|].
  split; [exact Hadm|].
  exact (direct_grant_found [Fixture.grant] Fixture.grant "store/*"
           Fixture.alice Fixture.space 50 0 Hu Hin Hgrant Hadm).
Defined.

(** ** Grouping *)

(** C4, as stated, fails: with a grant of [store/*] and a grant of
    [store/add] on the same subject to the same audience, the query for both
    abilities returns two records for that pair, one per combination of
    matching proofs. *)
Lemma two_records_for_one_pair :
  ~ (forall ds d1 d2 a1 a2 x s now n,
       cid_unique ds -> d1 ∈ ds -> d2 ∈ ds -> d1 <> d2 -> a1 <> a2 ->
       direct_grant now d1 a1 s x -> direct_grant now d2 a2 s x ->
       exists rs r,
         Authorization.find ds (ask x [a1; a2]) now n = Ok rs /\ r ∈ rs
         /\ Authorization.authority r = x /\ Authorization.subject r = s
         /\ a1 ∈ Authorization.can r /\ a2 ∈ Authorization.can r
         /\ d1 ∈ Authorization.proofs r /\ d2 ∈ Authorization.proofs r
         /\ forall r', r' ∈ rs -> Authorization.authority r' = x ->
                       Authorization.subject r' = s -> r' = r).
Proof.
  intros H.
  destruct (H [Fixture.wide; Fixture.narrow] Fixture.wide Fixture.narrow
              "store/*" "store/add" Fixture.alice Fixture.space 50%Z 0)
    as (rs & r & Hfind & _ & _ & _ & _ & _ & _ & _ & Hone).
  - apply cid_unique_NoDup, (bool_decide_eq_true_1 (NoDup _)).
    vm_compute. reflexivity.
  - left.
  - right. left.
  - discriminate.
  - discriminate.
  - split; [reflexivity|]. split; [reflexivity|].
    eexists. split; [left|]. split; reflexivity.
  - split; [reflexivity|]. split; [reflexivity|].
    eexists. split; [left|]. split; reflexivity.
  - vm_compute in Hfind. injection Hfind as <-.
    assert (Authorization.mk Fixture.alice Fixture.space
              ["store/*"; "store/add"] [Fixture.wide] = r) as H1.
    { apply Hone; [left|reflexivity|reflexivity]. }
    assert (Authorization.mk Fixture.alice Fixture.space
              ["store/*"; "store/add"] [Fixture.wide; Fixture.narrow] = r)
      as H2.
    { apply Hone; [right; left|reflexivity|reflexivity]. }
    rewrite <- H2 in H1. discriminate H1.
Qed.

(** C4, amended: two distinct direct grants of different abilities [a1] and
    [a2] to the same audience on the same subject, both unexpired at the
    query time and both let through by the attestation gate, are returned
    together by the query for both abilities: one record for that audience
    and subject lists both abilities and both proofs, and every record of
    that query lists both abilities. (The pair may have further records.) *)
Theorem grants_merged ds d1 d2 a1 a2 x s now n :
  cid_unique ds -> d1 ∈ ds -> d2 ∈ ds -> d1 <> d2 -> a1 <> a2 ->
  direct_grant now d1 a1 s x -> direct_grant now d2 a2 s x ->
  admissible ds now x d1 -> admissible ds now x d2 ->
  exists rs r,
    Authorization.find ds (ask x [a1; a2]) now n = Ok rs /\ r ∈ rs
    /\ Authorization.authority r = x /\ Authorization.subject r = s
    /\ a1 ∈ Authorization.can r /\ a2 ∈ Authorization.can r
    /\ d1 ∈ Authorization.proofs r /\ d2 ∈ Authorization.proofs r
    /\ (truthy a1 = true -> truthy a2 = true ->
        forall r', r' ∈ rs -> Authorization.can r' = [a1; a2]).
Proof.
  intros Hu Hd1 Hd2 _ Hne Hg1 Hg2 Hadm1 Hadm2.
  destruct (two_grants_complete ds Hu d1 d2 a1 a2 x s now n Hd1 Hd2 Hg1 Hg2
              Hadm1 Hadm2)
    as (rs & r & Hfind & Hr & Hauth & Hsubj & Ha1 & Ha2 & Hp1 & Hp2).
  exists rs, r. do 8 (split; [done|]).
  intros Ht1 Ht2 r' Hr'. by eapply two_abilities_listed.
Qed.

Lemma grants_merged_witness :
  cid_unique [Fixture.wide; Fixture.narrow]
  /\ Fixture.wide <> Fixture.narrow
  /\ direct_grant 50 Fixture.wide "store/*" Fixture.space Fixture.alice
  /\ direct_grant 50 Fixture.narrow "store/add" Fixture.space Fixture.alice
  /\ exists rs r,
       Authorization.find [Fixture.wide; Fixture.narrow]
                          (ask Fixture.alice ["store/*"; "store/add"]) 50 0
       = Ok rs /\ r ∈ rs
       /\ Authorization.authority r = Fixture.alice
       /\ Authorization.subject r = Fixture.space
       /\ "store/*" ∈ Authorization.can r /\ "store/add" ∈ Authorization.can r
       /\ Fixture.wide ∈ Authorization.proofs r
       /\ Fixture.narrow ∈ Authorization.proofs r
       /\ (truthy "store/*" = true -> truthy "store/add" = true ->
           forall r', r' ∈ rs ->
                      Authorization.can r' = ["store/*"; "store/add"]).
Proof.
  assert (cid_unique [Fixture.wide; Fixture.narrow]) as Hu.
  { apply cid_unique_NoDup, (bool_decide_eq_true_1 (NoDup _)).
    vm_compute. reflexivity. }
  assert (Fixture.wide <> Fixture.narrow) as Hne by discriminate.
  assert (direct_grant 50 Fixture.wide "store/*" Fixture.space Fixture.alice)
    as Hg1.
  { split; [reflexivity|]. split; [reflexivity|].
    eexists. split; [left|]. split; reflexivity. }
  assert (direct_grant 50 Fixture.narrow "store/add" Fixture.space
                       Fixture.alice) as Hg2.
  { split; [reflexivity|]. split; [reflexivity|].
    eexists. split; [left|]. split; reflexivity. }
  split; [exact Hu|]. split; [exact Hne|]. split; [exact Hg1|].
  split; [exact Hg2|].
  apply (grants_merged [Fixture.wide; Fixture.narrow] Fixture.wide
           Fixture.narrow "store/*" "store/add" Fixture.alice Fixture.space
           50 0 Hu); try done.
  - left.
  - right. left.
  - left. vm_compute. reflexivity.
  - left. vm_compute. reflexivity.
Defined.

(** ** The scenarios of the repository's tests *)

(** The query never throws. *)
Lemma find_total ds selector now n :
  exists rs, Authorization.find ds selector now n = Ok rs.
Proof.
  destruct (query_safe (DB.facts ds) selector now n) as [bs Hbs].
  unfold Authorization.find, Authorization.rows, DB.query.
  rewrite Hbs. cbn [bindR]. eauto.
Qed.

(** "account authority from authorization": without the attestation the
    login is not found, with it the record cites both. *)
Example login_needs_attestation :
  Authorization.find [Fixture.login] Fixture.account_query 0 0 = Ok []
  /\ Authorization.find [Fixture.login; Fixture.attestation]
                        Fixture.account_query 0 0
     = Ok [Fixture.account_authorization].
Proof. split; vm_compute; reflexivity. Qed.

(** "does not match expired ucans": at a time after the expiration of one
    of two grants only the other is found; before it, both are, in two
    records for the same authority and subject. *)
Example expired_grant_skipped :
  Authorization.find [Fixture.grant; Fixture.expired_grant]
                     (Fixture.store_add 50) 0 0
  = Ok [Authorization.mk Fixture.alice Fixture.space ["store/add"]
                         [Fixture.grant]]
  /\ Authorization.find [Fixture.grant; Fixture.expired_grant]
                        (Fixture.store_add 5) 0 0
     = Ok [Authorization.mk Fixture.alice Fixture.space ["store/add"]
                            [Fixture.grant];
           Authorization.mk Fixture.alice Fixture.space ["store/add"]
                            [Fixture.expired_grant]].
Proof. split; vm_compute; reflexivity. Qed.

(** "find whatever capabilities match": without requested ability there is
    one record per capability of the grant. *)
Example whatever_capabilities_match :
  Authorization.find [Fixture.grant]
    (Query.mkInput (Text.Exact Fixture.alice) None None (Some 50%Z)) 0 0
  = Ok [Authorization.mk Fixture.alice Fixture.space ["store/*"]
                         [Fixture.grant];
        Authorization.mk Fixture.alice Fixture.space ["upload/*"]
                         [Fixture.grant]].
Proof. vm_compute. reflexivity. Qed.

(** A login whose proof is itself an implicit delegation only: the proof is
    matched for the space, the login is not. *)
Example implicit_chain_not_followed :
  matches (DB.facts [Fixture.root; Fixture.chained_login])
    (fst (Query.implicit (DB.Const (Ucan.link Fixture.root))
            (Options.mk (Some (DB.Const (Str Fixture.account)))
                        (Some (DB.Const (Str Fixture.space)))
                        (Some (DB.Const (Str Fixture.space)))
                        (Some (DB.Const (Str "*")))
                        (Some (DB.Const (Int 50)))) 0))
  /\ ~ matches (DB.facts [Fixture.root; Fixture.chained_login])
        (fst (Query.implicit (DB.Const (Ucan.link Fixture.chained_login))
                (Options.mk (Some (DB.Const (Str Fixture.alice)))
                            (Some (DB.Const (Str Fixture.account)))
                            (Some (DB.Const (Str Fixture.space)))
                            (Some (DB.Const (Str "*")))
                            (Some (DB.Const (Int 50)))) 0)).
Proof.
  assert (cid_unique [Fixture.root; Fixture.chained_login]) as Hu.
  { apply cid_unique_NoDup, (bool_decide_eq_true_1 (NoDup _)).
    vm_compute. reflexivity. }
  split.
  - apply (implicit_accepts _ Hu); [left|].
    split; [reflexivity|]. split; [reflexivity|]. split.
    + split; [reflexivity|]. eexists. split; [left|]. split; reflexivity.
    + by left.
  - intros (_ & _ & _ & [Hi|(p & Hp & Hpd & _ & _ & cap & Hcap & _ & Hw)])
             %(implicit_accepts _ Hu); [discriminate Hi| |right; left].
    apply elem_of_cons in Hp as [->|Hp].
    + apply list_elem_of_singleton in Hcap as ->. discriminate Hw.
    + apply list_elem_of_singleton in Hp as ->.
      apply list_elem_of_singleton in Hpd. discriminate Hpd.
Qed.

(** * Further properties of the stores *)

(** ** Strings and keys *)

Lemma append_length (s t : string) :
  String.length (s +:+ t) = (String.length s + String.length t)%nat.
Proof. induction s as [|c s IH]; simpl; [done|]. by f_equal. Qed.

Lemma append_inj_l (s1 s2 t : string) : s1 +:+ t = s2 +:+ t -> s1 = s2.
Proof.
  revert s2. induction s1 as [|c s1 IH]; intros [|c' s2] H; simpl in H.
  - done.
  - apply (f_equal String.length) in H.
    rewrite ?append_length in H. simpl in H.
    rewrite ?append_length in H. lia.
  - apply (f_equal String.length) in H.
    rewrite ?append_length in H. simpl in H.
    rewrite ?append_length in H. lia.
  - change (String c (s1 +:+ t) = String c' (s2 +:+ t)) in H.
    injection H as -> H. f_equal. by apply IH.
Qed.

Lemma carFileKeyer_inj c c' :
  Storage.carFileKeyer c = Storage.carFileKeyer c' -> c = c'.
Proof. apply append_inj_l. Qed.

Section StoreLaws.

Import Storage.

Context (delegationsToBytes : list Delegation -> bytes)
        (bytesToDelegations : bytes -> list Delegation).

(** ** The bucket after [writeEntries] *)

Lemma writeEntries_db entries s : db (writeEntries entries s) = db s.
Proof.
  revert s. induction entries as [|e es IH]; intros s; [done|].
  cbn. unfold writeEntries in IH. by rewrite IH.
Qed.

Lemma writeEntries_writes entries s :
  writes (writeEntries entries s)
  = writes s ++ map (fun kv => BucketPut (fst kv) (snd kv)) entries.
Proof.
  revert s. induction entries as [|e es IH]; intros s.
  - cbn. by rewrite app_nil_r.
  - cbn. unfold writeEntries in IH. rewrite IH. cbn.
    by rewrite <- app_assoc.
Qed.

Lemma writeEntries_dags entries s :
  dags (writeEntries entries s)
  = (list_to_map (reverse entries) : gmap string bytes) ∪ dags s.
Proof.
  revert s. induction entries as [|[k v] es IH]; intros s.
  - cbn. by rewrite (left_id ∅ (∪)).
  - change (writeEntries ((k, v) :: es) s)
      with (writeEntries es (bucket_put k v s)).
    rewrite IH, reverse_cons, list_to_map_app.
    rewrite <- (assoc_L (∪)). f_equal. cbn.
    by rewrite <- insert_union_l, (left_id ∅ (∪)).
Qed.

(** The last value written under a key is the one read. *)
Lemma writeEntries_lookup entries s k v :
  (k, v) ∈ entries -> (forall v', (k, v') ∈ entries -> v = v') ->
  dags (writeEntries entries s) !! k = Some v.
Proof.
  intros Hin Hv. rewrite writeEntries_dags.
  apply lookup_union_Some_l, elem_of_list_to_map_1'.
  - intros y Hy. apply Hv. by rewrite elem_of_reverse in Hy.
  - by rewrite elem_of_reverse.
Qed.

Lemma writeEntries_lookup_other entries s k :
  k ∉ map fst entries ->
  dags (writeEntries entries s) !! k = dags s !! k.
Proof.
  intros Hk. rewrite writeEntries_dags. apply lookup_union_r.
  apply not_elem_of_list_to_map_1. rewrite fmap_reverse.
  by rewrite elem_of_reverse.
Qed.

(** ** The table after [insertInto] *)

Lemma insert_row_cases t r :
  ((row_cid r ∈ map row_cid t) /\ insert_row t r = t)
  \/ ((row_cid r ∉ map row_cid t) /\ insert_row t r = t ++ [r]).
Proof.
  unfold insert_row.
  destruct (existsb _ t) eqn:He.
  - left. split; [|done]. apply existsb_exists in He as (r' & Hr' & Heq).
    apply bool_decide_eq_true in Heq. rewrite <- Heq.
    apply list_elem_of_fmap. exists r'. split; [done|].
    by apply list_elem_of_In.
  - right. split; [|done]. intros (r' & Heq & Hr')%list_elem_of_fmap.
    assert (existsb (fun r'0 => bool_decide (row_cid r'0 = row_cid r)) t
            = true) as Ht; [|congruence].
    apply existsb_exists. exists r'. split; [by apply list_elem_of_In|].
    by apply bool_decide_eq_true.
Qed.

Lemma insert_rows_prefix values t :
  t `prefix_of` fold_left insert_row values t.
Proof.
  revert t. induction values as [|r vs IH]; intros t; [done|].
  cbn. etransitivity; [|apply IH].
  destruct (insert_row_cases t r) as [[_ ->]|[_ ->]]; [done|].
  by apply prefix_app_r.
Qed.

Lemma insert_rows_elem values t r :
  r ∈ fold_left insert_row values t -> r ∈ t \/ r ∈ values.
Proof.
  revert t. induction values as [|r' vs IH]; intros t; [by left|].
  cbn. intros [H|H]%IH.
  - destruct (insert_row_cases t r') as [[_ Heq]|[_ Heq]];
      rewrite Heq in H; [by left|].
    apply elem_of_app in H as [H|H]; [by left|].
    apply list_elem_of_singleton in H as ->. right. left.
  - right. by right.
Qed.

Lemma insert_rows_cids values t c :
  c ∈ map row_cid (fold_left insert_row values t)
  <-> c ∈ map row_cid t \/ c ∈ map row_cid values.
Proof.
  revert t. induction values as [|r vs IH]; intros t.
  - cbn. split; [by left|]. intros [H|H]; [done|]. by apply elem_of_nil in H.
  - cbn [fold_left]. rewrite IH. cbn [map]. rewrite elem_of_cons.
    destruct (insert_row_cases t r) as [[Hin ->]|[Hnot ->]].
    + split; [tauto|]. intros [H|[->|H]]; tauto.
    + rewrite map_app, elem_of_app. cbn. rewrite list_elem_of_singleton.
      tauto.
Qed.

Lemma insert_rows_NoDup values t :
  NoDup (map row_cid t) -> NoDup (map row_cid (fold_left insert_row values t)).
Proof.
  revert t. induction values as [|r vs IH]; intros t Ht; [done|].
  cbn. apply IH.
  destruct (insert_row_cases t r) as [[_ ->]|[Hnot ->]]; [done|].
  rewrite map_app. apply NoDup_app. split; [done|]. split.
  - intros c Hc Hc'. cbn in Hc'. apply list_elem_of_singleton in Hc' as ->.
    done.
  - cbn. apply NoDup_singleton.
Qed.

Lemma insert_rows_present values t :
  (forall r, r ∈ values -> row_cid r ∈ map row_cid t) ->
  fold_left insert_row values t = t.
Proof.
  induction values as [|r vs IH]; intros H; [done|].
  cbn. destruct (insert_row_cases t r) as [[_ ->]|[Hnot _]].
  - apply IH. intros r' Hr'. apply H. by right.
  - destruct Hnot. apply H. left.
Qed.

Lemma insert_rows_fresh values t :
  NoDup (map row_cid values) ->
  (forall r, r ∈ values -> row_cid r ∉ map row_cid t) ->
  fold_left insert_row values t = t ++ values.
Proof.
  revert t. induction values as [|r vs IH]; intros t Hnd Hfresh.
  - by rewrite app_nil_r.
  - cbn. cbn in Hnd. apply NoDup_cons in Hnd as [Hr Hnd].
    destruct (insert_row_cases t r) as [[Hin _]|[_ ->]].
    + destruct (Hfresh r); [left|done].
    + rewrite IH; [by rewrite <- app_assoc|done|].
      intros r' Hr'. rewrite map_app, elem_of_app. cbn.
      rewrite list_elem_of_singleton. intros [H|H].
      * by apply (Hfresh r'); [right|].
      * apply Hr. rewrite <- H. apply list_elem_of_fmap. eauto.
Qed.

Lemma insert_rows_length values t :
  (length t <= length (fold_left insert_row values t)
   <= length t + length values)%nat.
Proof.
  revert t. induction values as [|r vs IH]; intros t; [cbn; lia|].
  cbn [fold_left length]. specialize (IH (insert_row t r)).
  destruct (insert_row_cases t r) as [[_ Heq]|[_ Heq]]; rewrite Heq in *.
  - lia.
  - rewrite length_app in IH. cbn in IH. lia.
Qed.


(** ** [putMany] *)

Lemma putMany_dags ds s :
  dags (snd (putMany delegationsToBytes ds s))
  = dags (writeDelegations delegationsToBytes ds carFileKeyer s).
Proof. by destruct ds. Qed.

Lemma putMany_db ds s :
  db (snd (putMany delegationsToBytes ds s))
  = mkDatabase (canStream (db s))
      (fold_left insert_row (map createDelegationRowUpdateV3 ds)
                 (table (db s))).
Proof.
  destruct ds as [|d ds]; [by destruct s as [? []]|].
  cbn [putMany length Nat.eqb snd insertInto db].
  unfold writeDelegations. by rewrite writeEntries_db.
Qed.

Lemma putMany_table ds s :
  table (db (snd (putMany delegationsToBytes ds s)))
  = fold_left insert_row (map createDelegationRowUpdateV3 ds) (table (db s)).
Proof. by rewrite putMany_db. Qed.

Lemma archive_keys ds :
  map fst (map (fun delegation : Delegation =>
                  (carFileKeyer (cid delegation),
                   delegationsToBytes [delegation])) ds)
  = map carFileKeyer (map cid ds).
Proof. rewrite !map_map. by apply map_ext. Qed.

(** The archive written for a delegation is the one found under its
    key. *)
Lemma putMany_archive ds s d :
  cid_unique ds -> d ∈ ds ->
  dags (snd (putMany delegationsToBytes ds s)) !! carFileKeyer (cid d)
  = Some (delegationsToBytes [d]).
Proof.
  intros Hu Hd. rewrite putMany_dags. unfold writeDelegations.
  apply writeEntries_lookup.
  - apply list_elem_of_fmap. by exists d.
  - intros v' (d' & [= Hk ->] & Hd')%list_elem_of_fmap.
    apply carFileKeyer_inj in Hk. by rewrite (Hu d d' Hd Hd' Hk).
Qed.

Lemma putMany_archive_other ds s c :
  c ∉ map cid ds ->
  dags (snd (putMany delegationsToBytes ds s)) !! carFileKeyer c
  = dags s !! carFileKeyer c.
Proof.
  intros Hc. rewrite putMany_dags. unfold writeDelegations.
  apply writeEntries_lookup_other. rewrite archive_keys.
  intros (c' & Hk & Hc')%list_elem_of_fmap.
  apply carFileKeyer_inj in Hk. by subst c'.
Qed.

Lemma putMany_read ds s d :
  cid_unique ds -> d ∈ ds ->
  bytesToDelegations (delegationsToBytes [d]) = [d] ->
  rowToDelegation bytesToDelegations (cid d)
                  (snd (putMany delegationsToBytes ds s)) = Ok d.
Proof.
  intros Hu Hd Hdec. unfold rowToDelegation.
  by rewrite (putMany_archive ds s d Hu Hd), Hdec.
Qed.

(** X1: after [putMany] of delegations with distinct identifiers, the
    archive of each of them is in the bucket under [<cid>.car], and reading
    the row of its identifier gives the delegation back, provided the codec
    decodes what it encoded. *)
Theorem putMany_then_read ds s d :
  cid_unique ds -> d ∈ ds ->
  bytesToDelegations (delegationsToBytes [d]) = [d] ->
  dags (snd (putMany delegationsToBytes ds s)) !! (cid d +:+ ".car")
  = Some (delegationsToBytes [d])
  /\ rowToDelegation bytesToDelegations (cid d)
                     (snd (putMany delegationsToBytes ds s)) = Ok d.
Proof.
  intros Hu Hd Hdec. split.
  - by apply putMany_archive.
  - by apply putMany_read.
Qed.

(** X2: [putMany] removes nothing: the rows of the table stay where they
    were, with at most one new row per delegation behind them; every key of
    the bucket stays, and the archives of identifiers that are not put are
    not touched. *)
Theorem putMany_keeps ds s :
  table (db s) `prefix_of` table (db (snd (putMany delegationsToBytes ds s)))
  /\ (count s <= count (snd (putMany delegationsToBytes ds s))
      <= count s + length ds)%nat
  /\ (forall k, is_Some (dags s !! k) ->
                is_Some (dags (snd (putMany delegationsToBytes ds s)) !! k))
  /\ (forall c, c ∉ map cid ds ->
                dags (snd (putMany delegationsToBytes ds s))
                  !! carFileKeyer c
                = dags s !! carFileKeyer c).
Proof.
  split; [|split; [|split]].
  - rewrite putMany_table. apply insert_rows_prefix.
  - unfold count. rewrite putMany_table.
    pose proof (insert_rows_length (map createDelegationRowUpdateV3 ds)
                                   (table (db s))) as H.
    by rewrite length_map in H.
  - intros k Hk. rewrite putMany_dags. unfold writeDelegations.
    rewrite writeEntries_dags. apply lookup_union_is_Some. by right.
  - apply putMany_archive_other.
Qed.

(** X3: when the delegations put have distinct identifiers, none of them
    in the table yet, [putMany] appends their rows in order and [count]
    grows by their number. *)
Theorem putMany_fresh ds s :
  NoDup (map cid ds) ->
  (forall d, d ∈ ds -> cid d ∉ map row_cid (table (db s))) ->
  table (db (snd (putMany delegationsToBytes ds s)))
  = table (db s) ++ map createDelegationRowUpdateV3 ds
  /\ count (snd (putMany delegationsToBytes ds s))
     = (count s + length ds)%nat.
Proof.
  intros Hnd Hfresh.
  assert (table (db (snd (putMany delegationsToBytes ds s)))
          = table (db s) ++ map createDelegationRowUpdateV3 ds) as Ht.
  { rewrite putMany_table. apply insert_rows_fresh.
    - by rewrite map_map.
    - intros r (d & -> & Hd)%list_elem_of_fmap. by apply Hfresh. }
  split; [done|]. unfold count. by rewrite Ht, length_app, length_map.
Qed.

(** X4: [putMany] is idempotent on the stores: putting the same
    delegations again leaves the bucket and the table as the first call
    left them (the conflicting rows are skipped, the archives rewritten
    with the same bytes). *)
Theorem putMany_idempotent ds s :
  dags (snd (putMany delegationsToBytes ds
               (snd (putMany delegationsToBytes ds s))))
  = dags (snd (putMany delegationsToBytes ds s))
  /\ db (snd (putMany delegationsToBytes ds
                (snd (putMany delegationsToBytes ds s))))
     = db (snd (putMany delegationsToBytes ds s))
  /\ count (snd (putMany delegationsToBytes ds
                   (snd (putMany delegationsToBytes ds s))))
     = count (snd (putMany delegationsToBytes ds s)).
Proof.
  assert (db (snd (putMany delegationsToBytes ds
                     (snd (putMany delegationsToBytes ds s))))
          = db (snd (putMany delegationsToBytes ds s))) as Hdb.
  { rewrite (putMany_db ds (snd _)). rewrite insert_rows_present.
    - by destruct (db (snd (putMany delegationsToBytes ds s))).
    - intros r Hr. rewrite putMany_table. apply insert_rows_cids. right.
      by apply list_elem_of_fmap_2. }
  split; [|split; [done|]].
  - rewrite (putMany_dags ds (snd _)). unfold writeDelegations.
    rewrite writeEntries_dags, putMany_dags. unfold writeDelegations.
    rewrite writeEntries_dags.
    by rewrite (assoc_L (∪)), (idemp_L (∪)).
  - unfold count. by rewrite Hdb.
Qed.

(** X5: [putMany] keeps the [cid] column free of duplicates. *)
Theorem putMany_unique_cids ds s :
  NoDup (map row_cid (table (db s))) ->
  NoDup (map row_cid (table (db (snd (putMany delegationsToBytes ds s))))).
Proof. intros H. rewrite putMany_table. by apply insert_rows_NoDup. Qed.

(** X6: a [putMany] of at least one delegation writes one archive per
    delegation to the bucket, in the order given, and only then issues its
    single insert of all the rows. *)
Theorem putMany_writes ds s :
  ds <> [] ->
  writes (snd (putMany delegationsToBytes ds s))
  = writes s
    ++ map (fun d => BucketPut (cid d +:+ ".car") (delegationsToBytes [d])) ds
    ++ [TableInsert (map createDelegationRowUpdateV3 ds)].
Proof.
  intros Hds. destruct ds as [|d ds]; [done|].
  cbn [putMany length Nat.eqb snd insertInto writes].
  unfold writeDelegations. rewrite writeEntries_writes, map_map.
  by rewrite <- app_assoc.
Qed.

End StoreLaws.

(** ** Reading the rows *)

Section Reads.

Import Storage.

Context (delegationsToBytes : list Delegation -> bytes)
        (bytesToDelegations : bytes -> list Delegation).

(** A read of rows of which one cannot be read ends by throwing the error
    of that row, wherever the row stands; what is yielded before was read
    from the rows. *)
Lemma yield_rows_fail s cs c e :
  c ∈ cs ->
  rowToDelegation bytesToDelegations c s = Throw e ->
  (forall c', c' ∈ cs -> c' <> c ->
              exists d, rowToDelegation bytesToDelegations c' s = Ok d) ->
  thrown (yield_rows bytesToDelegations cs s) = Some e
  /\ forall d, d ∈ yielded (yield_rows bytesToDelegations cs s) ->
               exists c', c' ∈ cs
                          /\ rowToDelegation bytesToDelegations c' s = Ok d.
Proof.
  intros Hc He. induction cs as [|c0 cs IH]; intros Hothers.
  - by apply elem_of_nil in Hc.
  - cbn [yield_rows]. destruct (decide (c0 = c)) as [->|Hne].
    + rewrite He. cbn. split; [done|]. intros d Hd.
      by apply elem_of_nil in Hd.
    + destruct (Hothers c0) as [d0 Hd0]; [left|done|].
      rewrite Hd0. cbn [thrown yielded].
      apply elem_of_cons in Hc as [Hc|Hc]; [by destruct Hne|].
      destruct (IH Hc) as [Hthrown Hyielded].
      { intros c' Hc' Hne'. apply Hothers; [by right|done]. }
      split; [done|]. intros d [->|Hd]%elem_of_cons.
      * exists c0. split; [left|done].
      * destruct (Hyielded d Hd) as (c' & Hc' & Hd'). exists c'.
        split; [by right|done].
Qed.

(** X7: when the archive of a row is missing from the bucket and the other
    rows can be read, a read that reaches the row fails, in whatever order
    the database returns the rows: the iterator (when the database
    streams) and [find] for the audience of that row end by throwing the
    plain [Error] [failed to read car bytes for cid <cid>]. They do not
    complete, and every delegation yielded before the throw was read from a
    row of the table (of the queried audience, for [find]). *)
Theorem read_fails_on_missing_archive s r :
  r ∈ table (db s) ->
  dags s !! (row_cid r +:+ ".car") = None ->
  (forall r', r' ∈ table (db s) -> row_cid r' <> row_cid r ->
              exists d,
                rowToDelegation bytesToDelegations (row_cid r') s = Ok d) ->
  (canStream (db s) = true ->
   thrown (asyncIterator bytesToDelegations s)
   = Some (mkError "Error"
             ("failed to read car bytes for cid " +:+ row_cid r))
   /\ forall d,
        d ∈ yielded (asyncIterator bytesToDelegations s) ->
        exists r', r' ∈ table (db s)
                   /\ rowToDelegation bytesToDelegations (row_cid r') s
                      = Ok d)
  /\ thrown (find bytesToDelegations (row_audience r) s)
     = Some (mkError "Error"
               ("failed to read car bytes for cid " +:+ row_cid r))
  /\ forall d,
       d ∈ yielded (find bytesToDelegations (row_audience r) s) ->
       exists r', r' ∈ table (db s)
                  /\ row_audience r' = row_audience r
                  /\ rowToDelegation bytesToDelegations (row_cid r') s
                     = Ok d.
Proof.
  intros Hr Hmiss Hothers.
  assert (rowToDelegation bytesToDelegations (row_cid r) s
          = Throw (mkError "Error"
                     ("failed to read car bytes for cid " +:+ row_cid r)))
    as Hfail.
  { unfold rowToDelegation, carFileKeyer. by rewrite Hmiss. }
  split.
  - intros Hs. unfold asyncIterator. rewrite Hs. cbn [negb].
    destruct (yield_rows_fail s (map row_cid (table (db s))) (row_cid r)
                (mkError "Error"
                   ("failed to read car bytes for cid " +:+ row_cid r)))
      as [Hthrown Hyielded]; [by apply list_elem_of_fmap_2|exact Hfail| |].
    { intros c' (r' & -> & Hr')%list_elem_of_fmap Hne. by apply Hothers. }
    split; [done|]. intros d Hd.
    destruct (Hyielded d Hd) as (c' & (r' & -> & Hr')%list_elem_of_fmap & Hd').
    eauto.
  - unfold find.
    destruct (yield_rows_fail s
                (map row_cid
                     (filter (fun r' => row_audience r' = row_audience r)
                             (table (db s))))
                (row_cid r)
                (mkError "Error"
                   ("failed to read car bytes for cid " +:+ row_cid r)))
      as [Hthrown Hyielded]; [|exact Hfail| |].
    { apply list_elem_of_fmap_2. by apply list_elem_of_filter. }
    { intros c' (r' & -> & [_ Hr']%list_elem_of_filter)%list_elem_of_fmap Hne.
      by apply Hothers. }
    split; [done|]. intros d Hd.
    destruct (Hyielded d Hd)
      as (c' & (r' & -> & [Ha Hr']%list_elem_of_filter)%list_elem_of_fmap
          & Hd').
    eauto.
Qed.

(** ** Consistent stores *)

Lemma consistent_row_inv s r :
  consistent_row bytesToDelegations s r = true ->
  exists d, rowToDelegation bytesToDelegations (row_cid r) s = Ok d
            /\ createDelegationRowUpdateV3 d = r.
Proof.
  unfold consistent_row.
  destruct (rowToDelegation _ _ _) as [d|e]; [|discriminate].
  intros H%bool_decide_eq_true. eauto.
Qed.

Lemma consistent_row_intro s r d :
  rowToDelegation bytesToDelegations (row_cid r) s = Ok d ->
  createDelegationRowUpdateV3 d = r ->
  consistent_row bytesToDelegations s r = true.
Proof.
  intros H1 H2. unfold consistent_row. rewrite H1.
  by apply bool_decide_eq_true.
Qed.

Lemma consistent_elim s r :
  consistent bytesToDelegations s = true -> r ∈ table (db s) ->
  consistent_row bytesToDelegations s r = true.
Proof.
  unfold consistent. rewrite forallb_forall. intros H Hr.
  by apply H, list_elem_of_In.
Qed.

Lemma consistent_intro s :
  (forall r, r ∈ table (db s) ->
             consistent_row bytesToDelegations s r = true) ->
  consistent bytesToDelegations s = true.
Proof.
  unfold consistent. rewrite forallb_forall. intros H r Hr.
  by apply H, list_elem_of_In.
Qed.

(** The rows of a consistent store are read without error, each as the
    delegation it is the row of. *)
Lemma consistent_reads s rows :
  (forall r, r ∈ rows -> consistent_row bytesToDelegations s r = true) ->
  exists ds,
    Forall2 (fun r d =>
               rowToDelegation bytesToDelegations (row_cid r) s = Ok d
               /\ createDelegationRowUpdateV3 d = r) rows ds
    /\ yielded (yield_rows bytesToDelegations (map row_cid rows) s) = ds
    /\ thrown (yield_rows bytesToDelegations (map row_cid rows) s) = None.
Proof.
  induction rows as [|r rows IH]; intros H.
  - exists []. by repeat split; [constructor|..].
  - destruct IH as (ds & HF & Hy & Ht).
    { intros r' Hr'. apply H. by right. }
    destruct (consistent_row_inv s r) as (d & Hd & Hr); [apply H; left|].
    exists (d :: ds). split; [by constructor|].
    cbn. rewrite Hd. cbn. by rewrite Hy, Ht.
Qed.

Lemma Forall2_rows rows ds s :
  Forall2 (fun r d =>
             rowToDelegation bytesToDelegations (row_cid r) s = Ok d
             /\ createDelegationRowUpdateV3 d = r) rows ds ->
  map createDelegationRowUpdateV3 ds = rows.
Proof. induction 1 as [|r d rows ds [_ Hr] _ IH]; [done|]. cbn. by f_equal. Qed.

Lemma consistent_find s audience :
  (forall r, r ∈ table (db s) -> row_audience r = audience ->
             consistent_row bytesToDelegations s r = true) ->
  exists ds,
    Forall2 (fun r d =>
               rowToDelegation bytesToDelegations (row_cid r) s = Ok d
               /\ createDelegationRowUpdateV3 d = r)
            (filter (fun r => row_audience r = audience) (table (db s))) ds
    /\ yielded (find bytesToDelegations audience s) = ds
    /\ thrown (find bytesToDelegations audience s) = None.
Proof.
  intros Hc. unfold find. apply consistent_reads.
  intros r [Ha Hr]%list_elem_of_filter. by apply Hc.
Qed.

(** X8: [find] reads the rows of the queried audience only. When each of
    them is consistent with the bucket, whatever the state of the other
    rows, [find] does not throw; it yields, in the order of the table,
    exactly one delegation per row of the queried audience, namely the
    delegation of that row, so every delegation it yields is addressed to
    the queried audience. *)
Theorem find_consistent s audience :
  (forall r, r ∈ table (db s) -> row_audience r = audience ->
             consistent_row bytesToDelegations s r = true) ->
  thrown (find bytesToDelegations audience s) = None
  /\ map createDelegationRowUpdateV3
         (yielded (find bytesToDelegations audience s))
     = filter (fun r => row_audience r = audience) (table (db s))
  /\ Forall (fun d => Ucan.audience d = audience)
            (yielded (find bytesToDelegations audience s)).
Proof.
  intros Hc. destruct (consistent_find s audience Hc) as (ds & HF & -> & Ht).
  split; [done|]. split; [by eapply Forall2_rows|].
  apply Forall_forall. intros d Hd.
  apply list_elem_of_lookup in Hd as [i Hi].
  destruct (Forall2_lookup_r _ _ _ _ _ HF Hi) as (r & Hr & _ & Hrow).
  apply list_elem_of_lookup_2, list_elem_of_filter in Hr as [Ha _].
  by rewrite <- Hrow in Ha.
Qed.

Lemma filter_yielded s audience rows ds :
  Forall2 (fun r d =>
             rowToDelegation bytesToDelegations (row_cid r) s = Ok d
             /\ createDelegationRowUpdateV3 d = r) rows ds ->
  yielded (yield_rows bytesToDelegations
             (map row_cid (filter (fun r => row_audience r = audience) rows))
             s)
  = filter (fun d => Ucan.audience d = audience) ds.
Proof.
  induction 1 as [|r d rows ds [Hd Hr] _ IH]; [done|].
  rewrite !filter_cons. subst r.
  change (row_audience (createDelegationRowUpdateV3 d)) with (Ucan.audience d).
  destruct (decide (Ucan.audience d = audience)) as [Ha|Ha].
  - rewrite decide_True by done.
    cbn [map yield_rows]. rewrite Hd. cbn. by rewrite IH.
  - rewrite decide_False by done. exact IH.
Qed.

(** X9: on a consistent store whose database streams, the iterator does
    not throw and yields the delegation of every row: the rows of what it
    yields are the rows of the table, so it yields as many delegations as
    [count] says; and [find] yields those of them that are addressed to the
    queried audience. Both are stated up to the order in which the database
    returns the rows. *)
Theorem asyncIterator_consistent s :
  consistent bytesToDelegations s = true -> canStream (db s) = true ->
  thrown (asyncIterator bytesToDelegations s) = None
  /\ Permutation
       (map createDelegationRowUpdateV3
            (yielded (asyncIterator bytesToDelegations s)))
       (table (db s))
  /\ length (yielded (asyncIterator bytesToDelegations s)) = count s
  /\ forall audience,
       Permutation
         (yielded (find bytesToDelegations audience s))
         (filter (fun d => Ucan.audience d = audience)
                 (yielded (asyncIterator bytesToDelegations s))).
Proof.
  intros Hc Hs. unfold asyncIterator. rewrite Hs. cbn [negb].
  destruct (consistent_reads s (table (db s))) as (ds & HF & -> & ->).
  { intros r Hr. by apply consistent_elim. }
  split; [done|]. split; [by erewrite Forall2_rows|]. split.
  - unfold count. symmetry. by eapply Forall2_length.
  - intros audience. unfold find. by erewrite filter_yielded.
Qed.

Lemma rowToDelegation_same_archive row s s' :
  dags s' !! carFileKeyer row = dags s !! carFileKeyer row ->
  rowToDelegation bytesToDelegations row s'
  = rowToDelegation bytesToDelegations row s.
Proof. intros H. unfold rowToDelegation. by rewrite H. Qed.

Lemma put_rows_consistent ds s r :
  consistent bytesToDelegations s = true ->
  decodable delegationsToBytes bytesToDelegations ds ->
  cid_unique ds -> addressed ds s ->
  r ∈ table (db (snd (putMany delegationsToBytes ds s))) ->
  consistent_row bytesToDelegations (snd (putMany delegationsToBytes ds s)) r
  = true
  /\ forall d, d ∈ ds -> row_cid r = cid d ->
               r = createDelegationRowUpdateV3 d.
Proof.
  intros Hc Hdec Hu Hadd Hr. rewrite putMany_table in Hr.
  assert (forall d, d ∈ ds -> row_cid r = cid d ->
                    r = createDelegationRowUpdateV3 d) as Hrow.
  { intros d Hd Hcid. apply insert_rows_elem in Hr as [Hr|Hr].
    - by apply Hadd.
    - apply list_elem_of_fmap in Hr as (d' & -> & Hd').
      by rewrite (Hu d' d Hd' Hd Hcid). }
  split; [|done].
  destruct (decide (row_cid r ∈ map cid ds)) as [Hin|Hout].
  - apply list_elem_of_fmap in Hin as (d & Hcid & Hd).
    apply (consistent_row_intro _ _ d).
    + rewrite Hcid. apply putMany_read; [done|done|by apply Hdec].
    + symmetry. by apply Hrow.
  - apply insert_rows_elem in Hr as [Hr|Hr].
    + pose proof (consistent_elim s r Hc Hr) as Hcr.
      apply consistent_row_inv in Hcr as (d & Hd & Hrd).
      apply (consistent_row_intro _ _ d); [|done]. rewrite <- Hd.
      apply rowToDelegation_same_archive.
      by apply putMany_archive_other.
    + apply list_elem_of_fmap in Hr as (d' & -> & Hd'). destruct Hout.
      change (cid d' ∈ map cid ds). by apply list_elem_of_fmap_2.
Qed.

(** X10: [putMany] keeps a consistent store consistent, when the codec
    decodes the archives it writes and identifiers are content addresses
    (among the delegations put, and between them and the rows of the
    table). *)
Theorem putMany_consistent ds s :
  consistent bytesToDelegations s = true ->
  decodable delegationsToBytes bytesToDelegations ds ->
  cid_unique ds -> addressed ds s ->
  consistent bytesToDelegations (snd (putMany delegationsToBytes ds s)) = true.
Proof.
  intros Hc Hdec Hu Hadd. apply consistent_intro. intros r Hr.
  by apply put_rows_consistent.
Qed.

(** X11: what [putMany] stores, [find] returns: on a consistent store,
    with a codec that decodes the archives it writes and identifiers that
    are content addresses, [find] for the audience of a delegation just put
    does not throw and yields that delegation. *)
Theorem putMany_then_find ds s d :
  consistent bytesToDelegations s = true ->
  decodable delegationsToBytes bytesToDelegations ds ->
  cid_unique ds -> addressed ds s -> d ∈ ds ->
  thrown (find bytesToDelegations (Ucan.audience d)
               (snd (putMany delegationsToBytes ds s))) = None
  /\ d ∈ yielded (find bytesToDelegations (Ucan.audience d)
                       (snd (putMany delegationsToBytes ds s))).
Proof.
  intros Hc Hdec Hu Hadd Hd.
  assert (consistent bytesToDelegations
            (snd (putMany delegationsToBytes ds s)) = true) as Hc'.
  { apply consistent_intro. intros r Hr. by apply put_rows_consistent. }
  destruct (consistent_find _ (Ucan.audience d)
              (fun r Hr _ => consistent_elim _ r Hc' Hr))
    as (ds' & HF & -> & ->).
  split; [done|].
  assert (cid d ∈ map row_cid
            (table (db (snd (putMany delegationsToBytes ds s))))) as Hin.
  { rewrite putMany_table. apply insert_rows_cids. right. rewrite map_map.
    by apply (list_elem_of_fmap_2 (fun d => cid d)). }
  apply list_elem_of_fmap in Hin as (r & Hcid & Hr).
  destruct (put_rows_consistent ds s r Hc Hdec Hu Hadd Hr) as [_ Hrow].
  specialize (Hrow d Hd (eq_sym Hcid)).
  assert (r ∈ filter (fun r => row_audience r = Ucan.audience d)
                     (table (db (snd (putMany delegationsToBytes ds s)))))
    as Hf.
  { apply list_elem_of_filter. split; [by rewrite Hrow|done]. }
  apply list_elem_of_lookup in Hf as [i Hi].
  destruct (Forall2_lookup_l _ _ _ _ _ HF Hi) as (d' & Hd' & Hread & _).
  rewrite Hrow in Hread. cbn [createDelegationRowUpdateV3 row_cid] in Hread.
  rewrite putMany_read in Hread; [|done|done|by apply Hdec].
  injection Hread as <-. by eapply list_elem_of_lookup_2.
Qed.

End Reads.

(** ** The laws on the example store *)

Lemma putMany_then_read_witness :
  Storage.dags
    (snd (Storage.putMany Archive.delegationsToBytes
            [Fixture.grant; Fixture.recovery] Archive.empty))
    !! (cid Fixture.grant +:+ ".car")
  = Some (Archive.delegationsToBytes [Fixture.grant])
  /\ Storage.rowToDelegation Archive.bytesToDelegations (cid Fixture.grant)
       (snd (Storage.putMany Archive.delegationsToBytes
               [Fixture.grant; Fixture.recovery] Archive.empty))
     = Ok Fixture.grant.
Proof.
  apply (putMany_then_read Archive.delegationsToBytes
           Archive.bytesToDelegations).
  - apply cid_unique_NoDup, (bool_decide_eq_true_1 (NoDup _)).
    vm_compute. reflexivity.
  - left.
  - vm_compute. reflexivity.
Defined.

Lemma putMany_fresh_witness :
  Storage.table (Storage.db
    (snd (Storage.putMany Archive.delegationsToBytes
            [Fixture.grant; Fixture.recovery] Archive.empty)))
  = Storage.table (Storage.db Archive.empty)
    ++ map Storage.createDelegationRowUpdateV3 [Fixture.grant; Fixture.recovery]
  /\ Storage.count
       (snd (Storage.putMany Archive.delegationsToBytes
               [Fixture.grant; Fixture.recovery] Archive.empty))
     = (Storage.count Archive.empty + length [Fixture.grant; Fixture.recovery])%nat.
Proof.
  apply (putMany_fresh Archive.delegationsToBytes).
  - apply (bool_decide_eq_true_1 (NoDup _)). vm_compute. reflexivity.
  - intros d _ H. cbn in H. by apply elem_of_nil in H.
Defined.

Lemma putMany_unique_cids_witness :
  NoDup (map Storage.row_cid
           (Storage.table (Storage.db
              (snd (Storage.putMany Archive.delegationsToBytes
                      [Fixture.attestation; Fixture.grant] Archive.two))))).
Proof.
  apply (putMany_unique_cids Archive.delegationsToBytes).
  apply (bool_decide_eq_true_1 (NoDup _)). vm_compute. reflexivity.
Defined.

Lemma putMany_writes_witness :
  Storage.writes
    (snd (Storage.putMany Archive.delegationsToBytes
            [Fixture.grant; Fixture.recovery] Archive.empty))
  = Storage.writes Archive.empty
    ++ map (fun d => Storage.BucketPut (cid d +:+ ".car")
                       (Archive.delegationsToBytes [d]))
           [Fixture.grant; Fixture.recovery]
    ++ [Storage.TableInsert
          (map Storage.createDelegationRowUpdateV3
               [Fixture.grant; Fixture.recovery])].
Proof. apply (putMany_writes Archive.delegationsToBytes). discriminate. Defined.

Lemma read_fails_on_missing_archive_witness :
  thrown (Storage.find Archive.bytesToDelegations Fixture.account
            Archive.torn)
  = Some (mkError "Error" "failed to read car bytes for cid bafy-recovery")
  /\ thrown (Storage.asyncIterator Archive.bytesToDelegations Archive.torn)
     = Some (mkError "Error"
               "failed to read car bytes for cid bafy-recovery").
Proof.
  destruct (read_fails_on_missing_archive Archive.bytesToDelegations
              Archive.torn
              (Storage.createDelegationRowUpdateV3 Fixture.recovery))
    as (Hiter & Hfind & _).
  - vm_compute. right. left.
  - vm_compute. reflexivity.
  - intros r' Hr' Hne. vm_compute in Hr'.
    apply elem_of_cons in Hr' as [->|Hr'].
    + exists Fixture.grant. vm_compute. reflexivity.
    + apply list_elem_of_singleton in Hr' as ->. by destruct Hne.
  - split; [exact Hfind|]. by apply Hiter.
Defined.

Lemma find_consistent_witness :
  thrown (Storage.find Archive.bytesToDelegations Fixture.alice Archive.torn)
  = None
  /\ map Storage.createDelegationRowUpdateV3
         (yielded (Storage.find Archive.bytesToDelegations Fixture.alice
                     Archive.torn))
     = filter (fun r => Storage.row_audience r = Fixture.alice)
              (Storage.table (Storage.db Archive.torn))
  /\ Forall (fun d => audience d = Fixture.alice)
            (yielded (Storage.find Archive.bytesToDelegations Fixture.alice
                        Archive.torn)).
Proof.
  apply (find_consistent Archive.bytesToDelegations).
  intros r Hr Ha. vm_compute in Hr.
  apply elem_of_cons in Hr as [->|Hr]; [vm_compute; reflexivity|].
  apply list_elem_of_singleton in Hr as ->. discriminate Ha.
Defined.

Lemma asyncIterator_consistent_witness :
  thrown (Storage.asyncIterator Archive.bytesToDelegations Archive.two) = None
  /\ Permutation
       (map Storage.createDelegationRowUpdateV3
            (yielded (Storage.asyncIterator Archive.bytesToDelegations
                        Archive.two)))
       (Storage.table (Storage.db Archive.two))
  /\ length (yielded (Storage.asyncIterator Archive.bytesToDelegations
                        Archive.two))
     = Storage.count Archive.two
  /\ forall audience,
       Permutation
         (yielded (Storage.find Archive.bytesToDelegations audience
                     Archive.two))
         (filter (fun d => Ucan.audience d = audience)
                 (yielded (Storage.asyncIterator Archive.bytesToDelegations
                             Archive.two))).
Proof.
  apply (asyncIterator_consistent Archive.bytesToDelegations).
  - vm_compute. reflexivity.
  - reflexivity.
Defined.

Lemma putMany_consistent_witness :
  consistent Archive.bytesToDelegations
    (snd (Storage.putMany Archive.delegationsToBytes [Fixture.attestation]
                          Archive.two)) = true.
Proof.
  apply (putMany_consistent Archive.delegationsToBytes
           Archive.bytesToDelegations).
  - vm_compute. reflexivity.
  - intros d ->%list_elem_of_singleton. vm_compute. reflexivity.
  - apply cid_unique_NoDup, (bool_decide_eq_true_1 (NoDup _)).
    vm_compute. reflexivity.
  - intros d r ->%list_elem_of_singleton Hr Hcid.
    vm_compute in Hr.
    apply elem_of_cons in Hr as [->|Hr]; [discriminate Hcid|].
    apply list_elem_of_singleton in Hr as ->. discriminate Hcid.
Defined.

Lemma putMany_then_find_witness :
  thrown (Storage.find Archive.bytesToDelegations
            (audience Fixture.attestation)
            (snd (Storage.putMany Archive.delegationsToBytes
                    [Fixture.attestation] Archive.two))) = None
  /\ Fixture.attestation
     ∈ yielded (Storage.find Archive.bytesToDelegations
                  (audience Fixture.attestation)
                  (snd (Storage.putMany Archive.delegationsToBytes
                          [Fixture.attestation] Archive.two))).
Proof.
  apply (putMany_then_find Archive.delegationsToBytes
           Archive.bytesToDelegations).
  - vm_compute. reflexivity.
  - intros d ->%list_elem_of_singleton. vm_compute. reflexivity.
  - apply cid_unique_NoDup, (bool_decide_eq_true_1 (NoDup _)).
    vm_compute. reflexivity.
  - intros d r ->%list_elem_of_singleton Hr Hcid.
    vm_compute in Hr.
    apply elem_of_cons in Hr as [->|Hr]; [discriminate Hcid|].
    apply list_elem_of_singleton in Hr as ->. discriminate Hcid.
  - left.
Defined.

(** * Further properties of the account store *)

Section AccountLaws.

Context (delegationToString : Delegation -> string).

Lemma getDelegations_lookup email (kv : gmap string (list string)) :
  Accounts.getDelegations email kv = kv !! email.
Proof. unfold Accounts.getDelegations. by destruct (kv !! email). Qed.

Lemma saveDelegation_lookup email d (kv : gmap string (list string)) e :
  Accounts.saveDelegation delegationToString email d kv !! e
  = if decide (e = email)
    then Some (default [] (kv !! email) ++ [delegationToString d])
    else kv !! e.
Proof.
  unfold Accounts.saveDelegation.
  destruct (decide (e = email)) as [->|Hne];
    destruct (kv !! email) as [accs|] eqn:Hk;
    by rewrite ?lookup_insert_eq, ?lookup_insert_ne.
Qed.

Lemma saved_lookup (saves : list (string * Delegation))
      (kv : gmap string (list string)) email :
  fold_left (fun kv p =>
               Accounts.saveDelegation delegationToString (fst p) (snd p) kv)
            saves kv !! email
  = match filter (fun p => fst p = email) saves with
    | [] => kv !! email
    | mine =>
        Some (default [] (kv !! email)
              ++ map (fun p => delegationToString (snd p)) mine)
    end.
Proof.
  revert kv. induction saves as [|[e d] saves IH]; intros kv; [done|].
  cbn [fold_left fst snd]. rewrite IH, saveDelegation_lookup, filter_cons.
  cbn [fst]. destruct (decide (e = email)) as [->|Hne].
  - rewrite decide_True by done. cbn [default].
    destruct (filter _ saves) as [|p mine]; [done|].
    cbn [map snd]. unfold id. by rewrite <- app_assoc.
  - by rewrite decide_False by (by intros ->).
Qed.

(** X12: the delegations saved for an email are kept in the order they
    were saved, behind those stored before; saving for other emails changes
    nothing for this one. After any sequence of [saveDelegation] calls,
    [getDelegations] returns what it returned before when none of the calls
    was for the email, and otherwise the previous sequence followed by the
    encodings of the delegations saved for it, in call order. *)
Theorem saveDelegation_sequence (saves : list (string * Delegation))
        (kv : gmap string (list string)) email :
  Accounts.getDelegations email
    (fold_left (fun kv p =>
                  Accounts.saveDelegation delegationToString (fst p) (snd p)
                                          kv)
               saves kv)
  = match filter (fun p => fst p = email) saves with
    | [] => Accounts.getDelegations email kv
    | mine =>
        Some (default [] (kv !! email)
              ++ map (fun p => delegationToString (snd p)) mine)
    end.
Proof. rewrite !getDelegations_lookup. apply saved_lookup. Qed.

(** X13: [hasDelegations] tells whether something was saved: after any
    sequence of [saveDelegation] calls it is true for an email exactly when
    it was true before or one of the calls was for that email. *)
Theorem hasDelegations_saved (saves : list (string * Delegation))
        (kv : gmap string (list string)) email :
  Accounts.hasDelegations email
    (fold_left (fun kv p =>
                  Accounts.saveDelegation delegationToString (fst p) (snd p)
                                          kv)
               saves kv)
  = Accounts.hasDelegations email kv
    || bool_decide (email ∈ map fst saves).
Proof.
  unfold Accounts.hasDelegations. rewrite saved_lookup.
  destruct (filter (fun p => fst p = email) saves) as [|p mine] eqn:Hf.
  - rewrite bool_decide_eq_false_2; [by rewrite orb_false_r|].
    intros (p & Hp & Hin)%list_elem_of_fmap.
    assert (p ∈ filter (fun p => fst p = email) saves) as H
        by by apply list_elem_of_filter.
    rewrite Hf in H. by apply elem_of_nil in H.
  - rewrite bool_decide_eq_true_2; [by rewrite orb_true_r|].
    assert (p ∈ filter (fun p => fst p = email) saves) as H
        by (rewrite Hf; left).
    apply list_elem_of_filter in H as [<- H]. by apply list_elem_of_fmap_2.
Qed.

End AccountLaws.

(** ** The account table *)

Lemma no_row_of did (accounts : list (gmap string string)) :
  (forall row, row ∈ accounts -> row !! "did" <> Some did) ->
  filter (fun row : gmap string string => row !! "did" = Some did) accounts
  = [].
Proof.
  induction accounts as [|row accounts IH]; intros H; [done|].
  rewrite filter_cons, decide_False by (apply H; left).
  apply IH. intros row' Hrow'. apply H. by right.
Qed.

Lemma replace_prefix address :
  Account.replace "mailto:" "" ("mailto:" +:+ address) = address.
Proof. by destruct address. Qed.

Lemma created_columns capability issuer (filled : gmap string string) :
  let row := (list_to_map
                [ ("did", Account.account (Account.nb capability));
                  ("product", Account.with_ capability);
                  ("email", Account.replace "mailto:" ""
                              (Account.identity (Account.nb capability)));
                  ("agent", issuer) ] : gmap string string) ∪ filled in
  row !! "did" = Some (Account.account (Account.nb capability))
  /\ row !! "agent" = Some issuer
  /\ row !! "email"
     = Some (Account.replace "mailto:" ""
               (Account.identity (Account.nb capability)))
  /\ row !! "product" = Some (Account.with_ capability)
  /\ row !! "update_at" = filled !! "update_at"
  /\ row !! "inserted_at" = filled !! "inserted_at".
Proof.
  cbv zeta. repeat split;
    first [ by apply lookup_union_Some_l | by apply lookup_union_r ].
Qed.

(** X14: an account created is the account read: when no row has the
    account's DID yet, [get] after [create] returns the DID, the issuer of
    the invocation as agent, the resource as product and the identity
    without its first [mailto:] as email; [inserted_at] is what the table
    filled in, and [updated_at] is read from the column [update_at], so the
    column [updated_at] of the table is never returned. Other DIDs read as
    before. *)
Theorem create_then_get capability issuer (filled : gmap string string)
        (accounts : list (gmap string string)) :
  (forall row, row ∈ accounts ->
               row !! "did" <> Some (Account.account (Account.nb capability))) ->
  Account.get (Account.account (Account.nb capability))
              (Account.create capability issuer filled accounts)
  = Some (Account.mk
            (Some (Account.account (Account.nb capability)))
            (Some issuer)
            (Some (Account.replace "mailto:" ""
                     (Account.identity (Account.nb capability))))
            (Some (Account.with_ capability))
            (filled !! "update_at")
            (filled !! "inserted_at"))
  /\ (forall address,
        Account.identity (Account.nb capability) = "mailto:" +:+ address ->
        Account.replace "mailto:" ""
          (Account.identity (Account.nb capability)) = address)
  /\ (forall did,
        did <> Account.account (Account.nb capability) ->
        Account.get did (Account.create capability issuer filled accounts)
        = Account.get did accounts).
Proof.
  intros Hnew.
  destruct (created_columns capability issuer filled)
    as (Hdid & Hagent & Hemail & Hproduct & Hupdated & Hinserted).
  cbv zeta in Hdid, Hagent, Hemail, Hproduct, Hupdated, Hinserted.
  split; [|split].
  - unfold Account.get, Account.fetchOne, Account.create, Account.insert.
    rewrite filter_app, no_row_of by done.
    rewrite app_nil_l, filter_cons, decide_True by done.
    cbn [head].
    by rewrite Hdid, Hagent, Hemail, Hproduct, Hupdated, Hinserted.
  - intros address ->. apply replace_prefix.
  - intros did Hdid'.
    unfold Account.get, Account.fetchOne, Account.create, Account.insert.
    rewrite filter_app, filter_cons, decide_False, filter_nil, app_nil_r;
      [done|].
    rewrite Hdid. intros [= Heq]. by apply Hdid'.
Qed.

(** ** The bytes of a row *)

Lemma to_uint8_byte b : to_uint8 (Z.of_N (Byte.to_N b)) = b.
Proof.
  unfold to_uint8. pose proof (Byte.to_N_bounded b).
  rewrite Z.mod_small by lia. by rewrite N2Z.id, Byte.of_to_N.
Qed.

Lemma to_uint8_mod x : Z.of_N (Byte.to_N (to_uint8 x)) = (x mod 256)%Z.
Proof.
  unfold to_uint8. pose proof (Z.mod_pos_bound x 256 eq_refl) as Hx.
  pose proof (Byte.to_of_N_option_map (Z.to_N (x mod 256))) as H.
  destruct (Byte.of_N (Z.to_N (x mod 256))) as [b|] eqn:Hb.
  - cbn. apply Byte.to_of_N in Hb. rewrite Hb. lia.
  - cbn in H. destruct (N.leb_spec (Z.to_N (x mod 256)) 255); [done|lia].
Qed.

(** X15: the bytes of a row are the same however the database hands them
    over: a view on a buffer gives the bytes of its window, an array of
    byte values gives those bytes, and in an array of integers every item
    is taken modulo 256; the length is kept. *)
Theorem bytes_of_view_or_array (bs pre post : bytes) :
  delegationsTableBytesToArrayBuffer
    (View (pre ++ bs ++ post) (length pre) (length bs)) = Some bs
  /\ delegationsTableBytesToArrayBuffer
       (Array (map (fun b => Z.of_N (Byte.to_N b)) bs)) = Some bs
  /\ forall items,
       exists out,
         delegationsTableBytesToArrayBuffer (Array items) = Some out
         /\ length out = length items
         /\ map (fun b => Z.of_N (Byte.to_N b)) out
            = map (fun x => (x mod 256)%Z) items.
Proof.
  split; [|split].
  - cbn. by rewrite drop_app_length, take_app_length.
  - cbn. f_equal. rewrite map_map. rewrite <- (map_id bs) at 2.
    apply map_ext. intros b. apply to_uint8_byte.
  - intros items. eexists. split; [reflexivity|].
    split; [by rewrite length_map|].
    rewrite map_map. apply map_ext. intros x. apply to_uint8_mod.
Qed.

Lemma create_then_get_witness :
  Account.get "did:mailto:web.mail:alice"
    (Account.create
       (Account.mkVoucherRedeem "product:free"
          (Account.mkNb "did:mailto:web.mail:alice" "mailto:alice@web.mail"))
       "did:key:zAlice"
       {[ "inserted_at" := "2023-01-01"; "updated_at" := "2023-01-01" ]}
       [ {[ "did" := "did:mailto:web.mail:bob" ]} ])
  = Some (Account.mk (Some "did:mailto:web.mail:alice")
                     (Some "did:key:zAlice")
                     (Some "alice@web.mail")
                     (Some "product:free")
                     None
                     (Some "2023-01-01")).
Proof.
  destruct (create_then_get
              (Account.mkVoucherRedeem "product:free"
                 (Account.mkNb "did:mailto:web.mail:alice"
                               "mailto:alice@web.mail"))
              "did:key:zAlice"
              {[ "inserted_at" := "2023-01-01"; "updated_at" := "2023-01-01" ]}
              [ {[ "did" := "did:mailto:web.mail:bob" ]} ]) as [H _].
  - intros row ->%list_elem_of_singleton. vm_compute. discriminate.
  - exact H.
Defined.

(** * Further properties of the matchers and of the query *)

Section QueryLaws.

Import DB Sem.

Context (ds : list Delegation) (Hu : cid_unique ds).

Lemma explicit_accepts d X I S A t n :
  d ∈ ds ->
  matches (facts ds)
          (fst (Query.explicit (Const (Ucan.link d))
                  (Options.mk (Some (Const (Str X))) (Some (Const (Str I)))
                              (Some (Const (Str S))) (Some (Const (Str A)))
                              (Some (Const (Int t)))) n))
  <-> audience d = X /\ issuer d = I /\ explicit_grant t d A S.
Proof using Hu.
  intros Hd. rewrite explicit_shape. cbn [fst]. split.
  - intros (b & Hh)%matches_holds.
    apply (holds_explicit_grant ds Hu) in Hh
      as (d' & a & s & Hd' & [= Hl] & [= ->] & [= ->] & [= ->] & [= ->] & Hg).
    by assert (d = d') as -> by (by apply Hu).
  - intros (<- & <- & Hun & cap & [k Hk]%list_elem_of_lookup & <- & <-).
    set (θ := <[n := Ref (CapabilityLink (cid d) k)]>
              (<[S n := expiration_scalar (expiration d)]> (∅ : Binding))).
    eapply (matches_intro _ θ); [|apply ok_explicit, available_Const].
    apply (explicit_holds ds θ _ _ _ _ _ _ _ d k cap (Int t));
      try done; cbn [resolve]; subst θ;
      try (repeat first [ rewrite lookup_insert_eq
                        | rewrite lookup_insert_ne by lia ]; reflexivity).
    by rewrite unexpired_geb.
Qed.

Lemma match_accepts d X I S A t n :
  d ∈ ds ->
  matches (facts ds)
          (fst (Query.match_ (Const (Ucan.link d))
                  (Options.mk (Some (Const (Str X))) (Some (Const (Str I)))
                              (Some (Const (Str S))) (Some (Const (Str A)))
                              (Some (Const (Int t)))) n))
  <-> audience d = X /\ issuer d = I
      /\ (explicit_grant t d A S \/ implicit_grant ds t d A S).
Proof using Hu.
  intros Hd. rewrite match_shape. cbn [fst]. split.
  - intros (b & Hh)%matches_holds.
    apply (holds_match ds Hu) in Hh
      as (d' & a & s & Hd' & [= Hl] & [= ->] & [= ->] & [= ->] & [= ->] & Hg).
    by assert (d = d') as -> by (by apply Hu).
  - intros (HX & HI & [Hg|Hg]).
    + assert (matches (facts ds)
                (Shape.explicit (Const (Ucan.link d)) (Const (Str X))
                   (Const (Str I)) (Const (Str S)) (Const (Str A))
                   (Const (Int t)) n)) as (b & Hb)%matches_holds.
      { pose proof (proj2 (explicit_accepts d X I S A t n Hd)) as H.
        rewrite explicit_shape in H. by apply H. }
      eapply (matches_intro _ b); [|apply ok_match, available_Const].
      unfold Shape.match_. cbn [holds]. by left.
    + assert (matches (facts ds)
                (Shape.implicit (Const (Ucan.link d)) (Const (Str X))
                   (Const (Str I)) (Const (Str S)) (Const (Str A))
                   (Const (Int t)) (n + 2))) as (b & Hb)%matches_holds.
      { pose proof (proj2 (implicit_accepts ds Hu d X I S A t (n + 2) Hd))
          as H.
        rewrite implicit_shape in H. by apply H. }
      eapply (matches_intro _ b); [|apply ok_match, available_Const].
      unfold Shape.match_. cbn [holds]. right. by left.
Qed.

End QueryLaws.

(** X16: asked about one delegation with every selector field given, the
    explicit matcher accepts it if and only if it has the selected audience
    and issuer, is unexpired at the selector time and has a capability of
    the selected ability on the selected subject; a [ucan:*] capability
    does not make it an explicit grant on another subject. *)
Theorem explicit_match ds d X I S A t n :
  cid_unique ds -> d ∈ ds ->
  (matches (DB.facts ds)
     (fst (Query.explicit (DB.Const (Ucan.link d))
             (Options.mk (Some (DB.Const (Str X))) (Some (DB.Const (Str I)))
                         (Some (DB.Const (Str S))) (Some (DB.Const (Str A)))
                         (Some (DB.Const (Int t)))) n))
   <-> audience d = X /\ issuer d = I /\ explicit_grant t d A S)
  /\ (S <> "ucan:*" ->
      (forall cap, cap ∈ capabilities d -> with_ cap = "ucan:*") ->
      ~ matches (DB.facts ds)
          (fst (Query.explicit (DB.Const (Ucan.link d))
                  (Options.mk (Some (DB.Const (Str X)))
                              (Some (DB.Const (Str I)))
                              (Some (DB.Const (Str S)))
                              (Some (DB.Const (Str A)))
                              (Some (DB.Const (Int t)))) n))).
Proof.
  intros Hu Hd. split; [by apply explicit_accepts|].
  intros HS Hcaps (_ & _ & _ & cap & Hcap & _ & Hw)%(explicit_accepts ds Hu);
    [|done].
  apply HS. rewrite <- Hw. by apply Hcaps.
Qed.

(** X17: asked about one delegation with every selector field given,
    [match] accepts it if and only if it has the selected audience and
    issuer and is an explicit or an implicit grant of the selected ability
    on the selected subject at the selector time: it accepts exactly what
    [explicit] or [implicit] accepts. *)
Theorem match_explicit_or_implicit ds d X I S A t n :
  cid_unique ds -> d ∈ ds ->
  (matches (DB.facts ds)
     (fst (Query.match_ (DB.Const (Ucan.link d))
             (Options.mk (Some (DB.Const (Str X))) (Some (DB.Const (Str I)))
                         (Some (DB.Const (Str S))) (Some (DB.Const (Str A)))
                         (Some (DB.Const (Int t)))) n))
   <-> audience d = X /\ issuer d = I
       /\ (explicit_grant t d A S \/ implicit_grant ds t d A S))
  /\ (matches (DB.facts ds)
        (fst (Query.match_ (DB.Const (Ucan.link d))
                (Options.mk (Some (DB.Const (Str X)))
                            (Some (DB.Const (Str I)))
                            (Some (DB.Const (Str S)))
                            (Some (DB.Const (Str A)))
                            (Some (DB.Const (Int t)))) n))
      <-> matches (DB.facts ds)
            (fst (Query.explicit (DB.Const (Ucan.link d))
                    (Options.mk (Some (DB.Const (Str X)))
                                (Some (DB.Const (Str I)))
                                (Some (DB.Const (Str S)))
                                (Some (DB.Const (Str A)))
                                (Some (DB.Const (Int t)))) n))
          \/ matches (DB.facts ds)
               (fst (Query.implicit (DB.Const (Ucan.link d))
                       (Options.mk (Some (DB.Const (Str X)))
                                   (Some (DB.Const (Str I)))
                                   (Some (DB.Const (Str S)))
                                   (Some (DB.Const (Str A)))
                                   (Some (DB.Const (Int t)))) n))).
Proof.
  intros Hu Hd. split; [by apply match_accepts|].
  rewrite (match_accepts ds Hu), (explicit_accepts ds Hu),
    (implicit_accepts ds Hu) by done.
  tauto.
Qed.

Lemma explicit_match_witness :
  (matches (DB.facts [Fixture.grant])
     (fst (Query.explicit (DB.Const (Ucan.link Fixture.grant))
             (Options.mk (Some (DB.Const (Str Fixture.alice)))
                         (Some (DB.Const (Str Fixture.space)))
                         (Some (DB.Const (Str Fixture.space)))
                         (Some (DB.Const (Str "store/*")))
                         (Some (DB.Const (Int 50)))) 0))
   <-> audience Fixture.grant = Fixture.alice
       /\ issuer Fixture.grant = Fixture.space
       /\ explicit_grant 50 Fixture.grant "store/*" Fixture.space)
  /\ matches (DB.facts [Fixture.grant])
       (fst (Query.explicit (DB.Const (Ucan.link Fixture.grant))
               (Options.mk (Some (DB.Const (Str Fixture.alice)))
                           (Some (DB.Const (Str Fixture.space)))
                           (Some (DB.Const (Str Fixture.space)))
                           (Some (DB.Const (Str "store/*")))
                           (Some (DB.Const (Int 50)))) 0)).
Proof.
  assert (cid_unique [Fixture.grant]) as Hu.
  { apply cid_unique_NoDup, (bool_decide_eq_true_1 (NoDup _)).
    vm_compute. reflexivity. }
  assert (Fixture.grant ∈ [Fixture.grant]) as Hin by left.
  destruct (explicit_match [Fixture.grant] Fixture.grant Fixture.alice
              Fixture.space Fixture.space "store/*" 50 0 Hu Hin)
    as [Hiff _].
  split; [exact Hiff|]. apply Hiff.
  split; [reflexivity|]. split; [reflexivity|]. split; [reflexivity|].
  eexists. split; [left|]. split; reflexivity.
Defined.

Lemma match_explicit_or_implicit_witness :
  matches (DB.facts [Fixture.recovery; Fixture.space_login])
    (fst (Query.match_ (DB.Const (Ucan.link Fixture.space_login))
            (Options.mk (Some (DB.Const (Str Fixture.alice)))
                        (Some (DB.Const (Str Fixture.account)))
                        (Some (DB.Const (Str Fixture.space)))
                        (Some (DB.Const (Str "*")))
                        (Some (DB.Const (Int 50)))) 0)).
Proof.
  assert (cid_unique [Fixture.recovery; Fixture.space_login]) as Hu.
  { apply cid_unique_NoDup, (bool_decide_eq_true_1 (NoDup _)).
    vm_compute. reflexivity. }
  assert (Fixture.space_login ∈ [Fixture.recovery; Fixture.space_login])
    as Hin by (right; left).
  destruct (match_explicit_or_implicit
              [Fixture.recovery; Fixture.space_login]
              Fixture.space_login Fixture.alice Fixture.account
              Fixture.space "*" 50 0 Hu Hin) as [Hiff _].
  apply Hiff. split; [reflexivity|]. split; [reflexivity|]. right. split.
  - split; [reflexivity|]. eexists. split; [left|]. split; reflexivity.
  - right. exists Fixture.recovery. split; [left|]. split; [left|].
    split; [reflexivity|]. split; [reflexivity|].
    eexists. split; [left|]. split; reflexivity.
Defined.

Section Coverage.

Import DB Sem.

Context (ds : list Delegation) (Hu : cid_unique ds).

(** Every group of the query is answered, in every record, by a proof of
    the record that grants a matching ability. *)
Lemma find_groups selector now n rs r j need :
  Authorization.find ds selector now n = Ok rs -> r ∈ rs ->
  Shape.asked (Query.can selector) !! j = Some need ->
  exists d granted,
    d ∈ ds /\ d ∈ Authorization.proofs r
    /\ Ucan.audience d = Authorization.authority r
    /\ (explicit_grant (default now (Query.time selector)) d granted
                       (Authorization.subject r)
        \/ implicit_grant ds (default now (Query.time selector)) d granted
                          (Authorization.subject r))
    /\ (forall a, need = Some a -> truthy a = true ->
                  glob_match granted a = true).
Proof using Hu.
  intros Hfind Hr Hj.
  destruct (find_inv _ _ _ _ _ _ Hfind Hr) as (b & Hy & Hrec).
  destruct Hrec as (_ & _ & _ & Hfrom).
  rewrite query_shape in Hy, Hfrom.
  cbn [Query.where_ Query.select Authorization.select Selector.proofs] in *.
  set (t := default now (Query.time selector)) in *.
  set (asked := Shape.asked (Query.can selector)) in *.
  set (gs := Shape.groups asked n) in *.
  pose proof (eval_sound _ _ _ _ Hy) as Hall.
  apply holds_And_Forall, Forall_app in Hall as [Hall _].
  rewrite Forall_forall in Hall.
  assert (gs !! j = Some (Shape.variables need (n + 2 + 4 * j))) as Hg.
  { unfold gs, Shape.groups. apply list_lookup_imap_Some. eauto. }
  pose proof (clauses_lookup_Some gs t n j _ Hg) as Hc.
  apply list_elem_of_lookup_2, Hall, (group_sound ds Hu) in Hc
    as (d & a & s & Hd & Hp & Ha & _ & Hs & _ & Hgr & Hneed & _).
  pose proof (fun d => elem_of_record_proofs ds _ _ d Hfrom) as Hproofs.
  apply from_fields in Hfrom as [Hauth Hsubj].
  unfold Authorization.select in Hauth, Hsubj, Hproofs.
  cbn [Row.audience Row.subject Row.proofs resolve Selector.subject
       Selector.audience Selector.proofs] in Hauth, Hsubj, Hproofs.
  cbn [resolve] in Ha, Hs.
  exists d, a. split; [done|]. split; [|split; [congruence|split]].
  - apply Hproofs.
    exists (Authorization.select_proof b
              (Shape.variables need (n + 2 + 4 * j))).
    split; [|split; [by apply get_cid|by left]].
    apply list_elem_of_fmap_2. by eapply list_elem_of_lookup_2.
  - assert (s = Authorization.subject r) as -> by congruence. done.
  - intros k -> Hk. apply Hneed. cbn. by rewrite Hk.
Qed.

End Coverage.

(** X18: every ability that a query asks for is covered in every record it
    returns: the record holds a proof addressed to its authority, unexpired
    at the query time, that grants a matching ability on the subject of the
    record, explicitly or through [ucan:*]; the granted ability is a glob
    pattern that the requested one matches ([store/*] covers
    [store/add]). *)
Theorem requested_ability_covered ds selector now n rs r abilities a :
  cid_unique ds ->
  Authorization.find ds selector now n = Ok rs -> r ∈ rs ->
  Query.can selector = Some abilities -> a ∈ abilities -> a <> "" ->
  exists d granted,
    d ∈ Authorization.proofs r
    /\ audience d = Authorization.authority r
    /\ (explicit_grant (default now (Query.time selector)) d granted
                       (Authorization.subject r)
        \/ implicit_grant ds (default now (Query.time selector)) d granted
                          (Authorization.subject r))
    /\ glob_match granted a = true.
Proof.
  intros Hu Hfind Hr Hcan Ha Hne.
  apply list_elem_of_lookup in Ha as [j Hj].
  destruct (find_groups ds Hu selector now n rs r j (Some a) Hfind Hr)
    as (d & granted & _ & Hd & Haud & Hgr & Hglob).
  { unfold Shape.asked. rewrite Hcan. cbn [default].
    destruct abilities as [|a0 l]; [done|].
    change ((Some <$> (a0 :: l)) !! j = Some (Some a)).
    by rewrite list_lookup_fmap, Hj. }
  exists d, granted. do 3 (split; [done|]).
  apply Hglob; [done|]. by destruct a.
Qed.

Lemma requested_ability_covered_witness :
  exists d granted,
    d ∈ [Fixture.grant]
    /\ audience d = Fixture.alice
    /\ (explicit_grant 50 d granted Fixture.space
        \/ implicit_grant [Fixture.grant] 50 d granted Fixture.space)
    /\ glob_match granted "store/add" = true.
Proof.
  apply (requested_ability_covered [Fixture.grant] (Fixture.store_add 50) 0 0
           [Authorization.mk Fixture.alice Fixture.space ["store/add"]
                             [Fixture.grant]]
           (Authorization.mk Fixture.alice Fixture.space ["store/add"]
                             [Fixture.grant])
           ["store/add"] "store/add").
  - apply cid_unique_NoDup, (bool_decide_eq_true_1 (NoDup _)).
    vm_compute. reflexivity.
  - vm_compute. reflexivity.
  - left.
  - reflexivity.
  - left.
  - discriminate.
Defined.

(** X19: the query never throws, whatever the delegations and the
    selector: every constraint of its clauses is evaluated after the clause
    that binds its variables; and on an empty set of delegations it returns
    no record. *)
Theorem find_returns ds selector now n :
  (exists rs, Authorization.find ds selector now n = Ok rs)
  /\ Authorization.find [] selector now n = Ok [].
Proof.
  split; [apply find_total|].
  destruct (find_total [] selector now n) as [[|r rs] Hrs]; [done|].
  exfalso.
  assert (cid_unique []) as Hu by (intros ? ? H; by apply elem_of_nil in H).
  destruct (Shape.asked (Query.can selector)) as [|need l] eqn:Hasked;
    [by apply asked_nonempty in Hasked|].
  destruct (find_groups [] Hu selector now n (r :: rs) r 0 need Hrs)
    as (d & _ & Hd & _); [left|by rewrite Hasked|].
  by apply elem_of_nil in Hd.
Qed.

(** X20: the empty string is a falsy key: a selector whose [can] has the
    empty string as its only key builds the query of the selector without
    [can] (one group, no [need], no ability constraint), and so returns the
    same records: it asks for any ability, not for the ability named by the
    empty string. *)
Theorem query_empty_ability audience subject time now n :
  Query.query (Query.mkInput audience (Some [""]) subject time) now n
  = Query.query (Query.mkInput audience None subject time) now n
  /\ forall ds,
       Authorization.find ds
         (Query.mkInput audience (Some [""]) subject time) now n
       = Authorization.find ds
           (Query.mkInput audience None subject time) now n.
Proof.
  assert (Query.query (Query.mkInput audience (Some [""]) subject time) now n
          = Query.query (Query.mkInput audience None subject time) now n)
    as Hq by reflexivity.
  split; [exact Hq|]. intros ds.
  unfold Authorization.find, Authorization.rows. by rewrite Hq.
Qed.
